(** * dumppng: sprite-sheet composition and PNG chunk rewriting

    A shallow embedding of [sprites/tools/dumppng/main.go]: the bounding-box
    scan [FindBbox], the shelf-packing loop and the chunk-rewriting loop of
    [processOne], and the worker pool of [main].

    Conventions.
    - Go's [int] is modelled by [Z]; every coordinate the program computes is
      bounded by the frame and canvas dimensions, far below 2^63.  The
      narrowing conversions [int16(..)], [uint8(..)] and [int32(..)] are
      written out with their wrap-around.
    - A Go panic is modelled by [None] (in the pixel-level code) or by the
      outcome [Panicked] (in [processOne]).
    - [image], [image/color] and [image/draw] are modelled as far as
      [processOne] uses them, following the Go standard library. *)

From Stdlib Require Import ZArith List Lia Bool String Ascii Permutation.
Import ListNotations.
Open Scope Z_scope.

Declare Scope go_scope.
Notation "x <- a ;; b" :=
  (match a with None => None | Some x => b end)
  (at level 60, a at next level, right associativity) : go_scope.
Open Scope go_scope.

(** ** image.Point and image.Rectangle *)

Record Point := mkPoint { X : Z; Y : Z }.

Record Rectangle := mkRectangle { Min : Point; Max : Point }.

Definition Dx (r : Rectangle) : Z := X (Max r) - X (Min r).
Definition Dy (r : Rectangle) : Z := Y (Max r) - Y (Min r).

(** [Rectangle.Empty] *)
Definition Empty (r : Rectangle) : bool :=
  (X (Min r) >=? X (Max r)) || (Y (Min r) >=? Y (Max r)).

(** [image.ZR] *)
Definition ZR : Rectangle := mkRectangle (mkPoint 0 0) (mkPoint 0 0).

(** [image.Rect]: the corners are swapped where needed. *)
Definition Rect (x0 y0 x1 y1 : Z) : Rectangle :=
  let '(x0, x1) := if x0 >? x1 then (x1, x0) else (x0, x1) in
  let '(y0, y1) := if y0 >? y1 then (y1, y0) else (y0, y1) in
  mkRectangle (mkPoint x0 y0) (mkPoint x1 y1).

(** [Point.In] *)
Definition PointIn (x y : Z) (r : Rectangle) : bool :=
  (X (Min r) <=? x) && (x <? X (Max r)) && (Y (Min r) <=? y) && (y <? Y (Max r)).

(** [Rectangle.Intersect] *)
Definition Intersect (r s : Rectangle) : Rectangle :=
  let r' :=
    mkRectangle
      (mkPoint (if X (Min r) <? X (Min s) then X (Min s) else X (Min r))
               (if Y (Min r) <? Y (Min s) then Y (Min s) else Y (Min r)))
      (mkPoint (if X (Max r) >? X (Max s) then X (Max s) else X (Max r))
               (if Y (Max r) >? Y (Max s) then Y (Max s) else Y (Max r))) in
  if Empty r' then ZR else r'.

(** [Rectangle.Overlaps] *)
Definition Overlaps (r s : Rectangle) : bool :=
  negb (Empty r) && negb (Empty s) &&
  (X (Min r) <? X (Max s)) && (X (Min s) <? X (Max r)) &&
  (Y (Min r) <? Y (Max s)) && (Y (Min s) <? Y (Max r)).

(** ** image/color *)

(** The dynamic types a [color.Color] value can have; the channels of
    [RGBA] and [NRGBA] are 8-bit, those of [RGBA64] 16-bit. *)
Inductive Color :=
| RGBA (r g b a : Z)
| NRGBA (r g b a : Z)
| RGBA64 (r g b a : Z).

(** [x | x<<8] on a [uint32] holding an 8-bit value *)
Definition widen (v : Z) : Z := Z.lor v (Z.shiftl v 8).

(** The [RGBA()] method: 16-bit alpha-premultiplied channels. *)
Definition Color_RGBA (c : Color) : Z * Z * Z * Z :=
  match c with
  | RGBA r g b a => (widen r, widen g, widen b, widen a)
  | NRGBA r g b a =>
      (widen r * a / 255, widen g * a / 255, widen b * a / 255, widen a)
  | RGBA64 r g b a => (r, g, b, a)
  end.

Definition alphaOf (c : Color) : Z := snd (Color_RGBA c).

(** ** image.Image and image.Paletted *)

(** What [FindBbox] uses of an [image.Image].  [At x y = None] stands for a
    call [img.At(x, y).RGBA()] that panics: [At] returned the nil colour, or
    panicked itself. *)
Record Image := mkImage {
  Bounds : Rectangle;
  At : Z -> Z -> option Color
}.

(** [image.Paletted].  [Pix] is indexed by absolute coordinates, which hides
    the stride arithmetic of [PixOffset]; only the values inside [PRect] are
    meaningful. *)
Record Paletted := mkPaletted {
  Pix : Z -> Z -> Z;
  PRect : Rectangle;
  Palette : list Color
}.

(** [Paletted.At] followed by the method call on its result: nil for an
    empty palette, [Palette[0]] outside the rectangle, and an index panic
    where the pixel exceeds the palette. *)
Definition Paletted_At (p : Paletted) (x y : Z) : option Color :=
  match Palette p with
  | [] => None
  | c0 :: _ =>
      if PointIn x y (PRect p)
      then nth_error (Palette p) (Z.to_nat (Pix p x y))
      else Some c0
  end.

Definition asImage (p : Paletted) : Image :=
  mkImage (PRect p) (Paletted_At p).

(** [image.NewPaletted]: all pixels are index 0. *)
Definition NewPaletted (r : Rectangle) (pal : list Color) : Paletted :=
  mkPaletted (fun _ _ => 0) r pal.

(** ** FindBbox (main.go, lines 24-85) *)

(** [_, _, _, a := img.At(x, y).RGBA(); a != 0] *)
Definition opaque (img : Image) (x y : Z) : option bool :=
  c <- At img x y ;; Some (negb (alphaOf c =? 0)).

(** The inner loops: does one of the [n] pixels from [v] on pass the test?
    The scan stops at the first hit. *)
Fixpoint anyOpaque (test : Z -> option bool) (v : Z) (n : nat) : option bool :=
  match n with
  | O => Some false
  | S n' =>
      b <- test v ;;
      if b then Some true else anyOpaque test (v + 1) n'
  end.

Definition colOpaque (img : Image) (x : Z) : option bool :=
  let b := Bounds img in
  anyOpaque (fun y => opaque img x y) (Y (Min b)) (Z.to_nat (Dy b)).

Definition rowOpaque (img : Image) (y : Z) : option bool :=
  let b := Bounds img in
  anyOpaque (fun x => opaque img x y) (X (Min b)) (Z.to_nat (Dx b)).

(** The outer loops counting upwards ([left], [top]): the first line from
    [i] on with an opaque pixel, or [i + n] when the loop runs out. *)
Fixpoint scanUp (line : Z -> option bool) (i : Z) (n : nat) : option Z :=
  match n with
  | O => Some i
  | S n' =>
      b <- line i ;;
      if b then Some i else scanUp line (i + 1) n'
  end.

(** The outer loops counting downwards ([right], [bottom]). *)
Fixpoint scanDown (line : Z -> option bool) (i : Z) (n : nat) : option Z :=
  match n with
  | O => Some i
  | S n' =>
      b <- line i ;;
      if b then Some i else scanDown line (i - 1) n'
  end.

Definition FindBbox (img : Image) : option Rectangle :=
  let b := Bounds img in
  left <- scanUp (colOpaque img) (X (Min b)) (Z.to_nat (Dx b)) ;;
  top <- scanUp (rowOpaque img) (Y (Min b)) (Z.to_nat (Dy b)) ;;
  right <- scanDown (colOpaque img) (X (Max b) - 1) (Z.to_nat (Dx b)) ;;
  let right := right + 1 in
  bottom <- scanDown (rowOpaque img) (Y (Max b) - 1) (Z.to_nat (Dy b)) ;;
  let bottom := bottom + 1 in
  if (right <? left) || (bottom <? top)
  then Some (Rect 0 0 0 0)
  else Some (mkRectangle (mkPoint left top) (mkPoint right bottom)).

(** ** image/draw: [draw.Draw(dst, r, src, sp, draw.Over)] onto a Paletted *)

Definition uint8 (v : Z) : Z := v mod 256.
Definition uint16 (v : Z) : Z := v mod 65536.
Definition uint32 (v : Z) : Z := v mod 4294967296.
Definition int16 (v : Z) : Z := (v + 32768) mod 65536 - 32768.
Definition int32 (v : Z) : Z := (v + 2147483648) mod 4294967296 - 2147483648.

(** [color.sqDiff] on [uint32] *)
Definition sqDiff (x y : Z) : Z :=
  let d := uint32 (x - y) in Z.shiftr (uint32 (d * d)) 2.

Definition colorDist (c v : Z * Z * Z * Z) : Z :=
  let '(cr, cg, cb, ca) := c in
  let '(vr, vg, vb, va) := v in
  uint32 (sqDiff cr vr + sqDiff cg vg + sqDiff cb vb + sqDiff ca va).

(** The loop of [Palette.Index]: [i] is the index of the head of [p]. *)
Fixpoint IndexFrom (p : list Color) (c : Z * Z * Z * Z) (i ret bestSum : Z) : Z :=
  match p with
  | [] => ret
  | v :: p' =>
      let sum := colorDist c (Color_RGBA v) in
      if sum <? bestSum
      then if sum =? 0 then i else IndexFrom p' c (i + 1) i sum
      else IndexFrom p' c (i + 1) ret bestSum
  end.

(** [Palette.Index] *)
Definition Palette_Index (p : list Color) (c : Z * Z * Z * Z) : Z :=
  IndexFrom p c 0 0 (4294967296 - 1).

(** [Paletted.RGBA64At]: the zero colour for an empty palette; [None] is the
    index panic of [p.Palette[p.Pix[i]]]. *)
Definition Paletted_RGBA64At (p : Paletted) (x y : Z) : option (Z * Z * Z * Z) :=
  match Palette p with
  | [] => Some (0, 0, 0, 0)
  | c0 :: _ =>
      c <- (if PointIn x y (PRect p)
            then nth_error (Palette p) (Z.to_nat (Pix p x y))
            else Some c0) ;;
      let '(r, g, b, a) := Color_RGBA c in
      Some (uint16 r, uint16 g, uint16 b, uint16 a)
  end.

(** One pixel of the general path of [draw.DrawMask] with a nil mask and
    [op = Over] (a Paletted destination has a fast path for [Src] only), and
    the palette index [SetRGBA64] stores for it.  This is the path through
    [RGBA64At] and [SetRGBA64] of Go 1.17 and later; the older one through
    [At] and [Set] computes the same channels. *)
Definition drawPixel (dst src : Paletted) (x y sx sy : Z) : option Z :=
  s <- Paletted_RGBA64At src sx sy ;;
  d <- Paletted_RGBA64At dst x y ;;
  let '(sr, sg, sb, sa) := s in
  let '(dr, dg, db, da) := d in
  let m := 65535 in
  let a := m - sa in
  let out := (uint16 (uint16 (dr * a / m) + sr),
              uint16 (uint16 (dg * a / m) + sg),
              uint16 (uint16 (db * a / m) + sb),
              uint16 (uint16 (da * a / m) + sa)) in
  Some (uint8 (Palette_Index (Palette dst) out)).

Definition PointSub (p q : Point) : Point := mkPoint (X p - X q) (Y p - Y q).

Definition RectAdd (r : Rectangle) (p : Point) : Rectangle :=
  mkRectangle (mkPoint (X (Min r) + X p) (Y (Min r) + Y p))
              (mkPoint (X (Max r) + X p) (Y (Max r) + Y p)).

(** [draw.clip] with a nil mask *)
Definition clip (dstB r srcB : Rectangle) (sp : Point) : Rectangle * Point :=
  let orig := Min r in
  let r := Intersect r dstB in
  let r := Intersect r (RectAdd srcB (PointSub orig sp)) in
  (r, mkPoint (X sp + (X (Min r) - X orig)) (Y sp + (Y (Min r) - Y orig))).

(** Does [test] hold at the [n] positions from [v] on? *)
Fixpoint allFrom (test : Z -> bool) (v : Z) (n : nat) : bool :=
  match n with
  | O => true
  | S n' => test v && allFrom test (v + 1) n'
  end.

Definition rectAll (r : Rectangle) (test : Z -> Z -> bool) : bool :=
  allFrom (fun y => allFrom (fun x => test x y) (X (Min r)) (Z.to_nat (Dx r)))
          (Y (Min r)) (Z.to_nat (Dy r)).

Definition isSome {A} (o : option A) : bool :=
  match o with Some _ => true | None => false end.

(** [draw.Draw] with [draw.Over] from one Paletted onto another.  [None]: a
    pixel of the clipped rectangle panics. *)
Definition Draw (dst : Paletted) (r : Rectangle) (src : Paletted) (sp : Point)
  : option Paletted :=
  let '(r, sp) := clip (PRect dst) r (PRect src) sp in
  if Empty r then Some dst
  else
    let px x y :=
      drawPixel dst src x y (X sp + x - X (Min r)) (Y sp + y - Y (Min r)) in
    if rectAll r (fun x y => isSome (px x y))
    then Some (mkPaletted
                 (fun x y =>
                    if PointIn x y r
                    then match px x y with Some i => i | None => Pix dst x y end
                    else Pix dst x y)
                 (PRect dst) (Palette dst))
    else None.

(** [Paletted.SubImage] *)
Definition SubImage (p : Paletted) (r : Rectangle) : Paletted :=
  let r := Intersect r (PRect p) in
  if Empty r then mkPaletted (Pix p) ZR (Palette p)
  else mkPaletted (Pix p) r (Palette p).

(** ** The sprites package *)

(** Modelled from the spec: [sprites.Frame] and [sprites.Animation] are not
    among the sources.  A frame is "a raster image, its color palette, a
    delay value, and an action code"; [MakeImage] is the raster
    [frame.MakeImage()] returns. *)
Record Frame := mkFrame {
  MakeImage : Paletted;
  FramePalette : list Color;
  FrameDelay : Z;
  FrameAction : Z
}.

Record Animation := mkAnimation { Frames : list Frame }.

(** ** FrameInfo and the composition loop (main.go, lines 87-131) *)

Record FrameInfo := mkFrameInfo {
  BBox : Rectangle;
  Origin : Point;
  Delay : Z;
  Action : Z
}.

(** The variables of [processOne] the loop updates. *)
Record Composer := mkComposer {
  left : Z;
  top : Z;
  infos : list FrameInfo;
  fullPalette : list Color;
  spriteImg : Paletted
}.

Definition setPalette (p : Paletted) (pal : list Color) : Paletted :=
  mkPaletted (Pix p) (PRect p) pal.

(** The cursor a frame of width [w] is placed at: lines 118-122. *)
Definition wrapCursor (st : Composer) (canvas : Paletted) (w : Z) : option (Z * Z) :=
  if left st + w >? Dx (PRect canvas)
  then cb <- FindBbox (asImage canvas) ;; Some (0, Y (Max cb) + 1)
  else Some (left st, top st).

(** The body of the inner loop, lines 104-129. *)
Definition composeFrame (st : Composer) (frame : Frame) : option Composer :=
  let img := MakeImage frame in
  let canvas := setPalette (spriteImg st) (Palette img) in
  trimBbox <- FindBbox (asImage img) ;;
  let origin := mkPoint (Z.quot (Dx (PRect img)) 2 - X (Min trimBbox))
                        (Z.quot (Dy (PRect img)) 2 - Y (Min trimBbox)) in
  lt <- wrapCursor st canvas (Dx trimBbox) ;;
  let '(l, t) := lt in
  let bbox := mkRectangle (mkPoint l t)
                          (mkPoint (l + Dx trimBbox) (t + Dy trimBbox)) in
  canvas' <- Draw canvas bbox img (Min trimBbox) ;;
  Some (mkComposer (l + Dx trimBbox + 1) t
          (infos st ++ [mkFrameInfo bbox origin (FrameDelay frame) (FrameAction frame)])
          (FramePalette frame) canvas').

Fixpoint composeFrames (st : Composer) (frames : list Frame) : option Composer :=
  match frames with
  | [] => Some st
  | f :: fs => st' <- composeFrame st f ;; composeFrames st' fs
  end.

Fixpoint composeAnims (st : Composer) (anims : list Animation) : option Composer :=
  match anims with
  | [] => Some st
  | a :: rest => st' <- composeFrames st (Frames a) ;; composeAnims st' rest
  end.

Definition canvasRect : Rectangle := Rect 0 0 1024 1024.

Definition initComposer : Composer :=
  mkComposer 0 0 [] [] (NewPaletted canvasRect []).

Definition compose (anims : list Animation) : option Composer :=
  composeAnims initComposer anims.

(** ** The two synthesized chunks (main.go, lines 180-218) *)

(** The bytes of a Go string (ASCII here). *)
Definition bytesOf (s : string) : list Z :=
  map (fun a => Z.of_N (N_of_ascii a)) (list_ascii_of_string s).

(** [binary.Write(&buf, binary.LittleEndian, int16(v))] *)
Definition putInt16 (v : Z) : list Z :=
  let w := int16 v in [Z.land w 255; Z.land (Z.shiftr w 8) 255].

(** The body of the loop over [fullPalette]; the type assertion
    [c.(color.RGBA)] panics on any other dynamic type. *)
Definition paletteEntry (c : Color) : option (list Z) :=
  match c with
  | RGBA r g b a => Some [r; g; b; a; 255; 255]
  | _ => None
  end.

Fixpoint paletteEntries (pal : list Color) : option (list Z) :=
  match pal with
  | [] => Some []
  | c :: rest =>
      e <- paletteEntry c ;;
      es <- paletteEntries rest ;;
      Some (e ++ es)
  end.

Definition paletteHeader : list Z := bytesOf "full" ++ [0; 8].

(** The buffer of the palette-dump chunk; [None] is the panic. *)
Definition paletteDump (pal : list Color) : option (list Z) :=
  es <- paletteEntries pal ;; Some (paletteHeader ++ es).

(** The body of the loop over [infos]. *)
Definition controlRecord (info : FrameInfo) : list Z :=
  putInt16 (X (Min (BBox info))) ++ putInt16 (Y (Min (BBox info))) ++
  putInt16 (X (Max (BBox info))) ++ putInt16 (Y (Max (BBox info))) ++
  putInt16 (X (Origin info)) ++ putInt16 (Y (Origin info)) ++
  [uint8 (Delay info); uint8 (Action info)].

Definition controlHeader : list Z := bytesOf "fsctrl" ++ [0; 255].

(** The buffer of the control-table chunk. *)
Definition controlTable (infos : list FrameInfo) : list Z :=
  controlHeader ++ flat_map controlRecord infos.

(** The reader of the control table the spec describes: six little-endian
    signed 16-bit integers, then the delay and the action byte, per frame. *)
Definition getInt16 (lo hi : Z) : Z := int16 (lo + 256 * hi).

Fixpoint decodeRecords (bs : list Z) : option (list FrameInfo) :=
  match bs with
  | [] => Some []
  | a0 :: a1 :: b0 :: b1 :: c0 :: c1 :: d0 :: d1 :: e0 :: e1 :: f0 :: f1 ::
    dl :: ac :: rest =>
      infos <- decodeRecords rest ;;
      Some (mkFrameInfo
              (mkRectangle (mkPoint (getInt16 a0 a1) (getInt16 b0 b1))
                           (mkPoint (getInt16 c0 c1) (getInt16 d0 d1)))
              (mkPoint (getInt16 e0 e1) (getInt16 f0 f1)) dl ac :: infos)
  | _ => None
  end.

(** The control table after its 8-byte keyword/format header. *)
Definition decodeControlTable (payload : list Z) : option (list FrameInfo) :=
  decodeRecords (skipn (List.length controlHeader) payload).

(** ** The chunk-rewriting loop (main.go, lines 166-224) *)

(** The chunk library [pngchunks] is not part of the repository.  Its reader
    is modelled by the results its [NextChunk] calls return, and its writer
    by the chunks it has emitted. *)

Inductive error :=
| EOF                     (* io.EOF *)
| ErrUnexpectedEOF        (* io.ErrUnexpectedEOF *)
| ErrOther (msg : string).

(** [errors.Is(err, io.EOF)] *)
Definition isEOF (e : error) : bool :=
  match e with EOF => true | _ => false end.

(** A chunk as the writer emits it. *)
Record Chunk := mkChunk {
  Length : Z;
  ChunkType : string;
  Data : list Z
}.

(** A [*pngchunks.Chunk] of the reader: what it yields and what its [Close]
    returns. *)
Record ChunkReader := mkChunkReader {
  chunkOf : Chunk;
  closeErr : option error
}.

(** One result [(chunk, err)] of [pngr.NextChunk()]; [rchunk = None] is the
    nil pointer. *)
Record ReadResult := mkReadResult {
  rchunk : option ChunkReader;
  rerr : option error
}.

(** How a piece of [processOne] ends: it goes on, returns an error, or
    panics. *)
Inductive Res (A : Type) :=
| Ok (a : A)
| Fail (e : error)
| Panicked.
Arguments Ok {A} a.
Arguments Fail {A} e.
Arguments Panicked {A}.

(** Code that writes chunks to the output file: the state is the list of
    chunks written so far. *)
Definition W (A : Type) : Type := list Chunk -> Res A * list Chunk.

Definition ret {A} (a : A) : W A := fun out => (Ok a, out).

Definition bind {A B} (m : W A) (k : A -> W B) : W B :=
  fun out =>
    match m out with
    | (Ok a, out') => k a out'
    | (Fail e, out') => (Fail e, out')
    | (Panicked, out') => (Panicked, out')
    end.

Notation "m >> k" := (bind m (fun _ => k))
  (at level 61, right associativity) : go_scope.

(** [if err != nil { return err }] *)
Definition check (err : option error) : W unit :=
  fun out => match err with Some e => (Fail e, out) | None => (Ok tt, out) end.

Definition panic {A} : W A := fun out => (Panicked, out).

(** [pngw.WriteChunk(length, type, r)]: [werr k] is the error of the call
    made when [k] chunks have been written. *)
Definition WriteChunk (werr : nat -> option error) (c : Chunk) : W unit :=
  fun out =>
    match werr (List.length out) with
    | Some e => (Fail e, out)
    | None => (Ok tt, out ++ [c])
    end.

Definition bufLen (buf : list Z) : Z := int32 (Z.of_nat (List.length buf)).

(** Lines 180-197 *)
Definition writePaletteDump (werr : nat -> option error) (pal : list Color) : W unit :=
  match paletteDump pal with
  | None => panic
  | Some buf => WriteChunk werr (mkChunk (bufLen buf) "sPLT" buf)
  end.

(** Lines 199-218 *)
Definition writeControlTable (werr : nat -> option error) (infos : list FrameInfo) : W unit :=
  let buf := controlTable infos in
  WriteChunk werr (mkChunk (bufLen buf) "zTXt" buf).

(** The loop.  [reads] are the results of the successive [NextChunk] calls
    before the reader is exhausted; after them it returns [io.EOF]. *)
Fixpoint rewriteChunks (werr : nat -> option error) (pal : list Color)
    (infos : list FrameInfo) (reads : list ReadResult) : W unit :=
  match reads with
  | [] => ret tt
  | rd :: rest =>
      if match rerr rd with Some e => isEOF e | None => false end
      then ret tt
      else
        match rchunk rd with
        | None => panic
        | Some c =>
            WriteChunk werr (chunkOf c) >>
            (if String.eqb (ChunkType (chunkOf c)) "tRNS"
             then writePaletteDump werr pal >> writeControlTable werr infos
             else ret tt) >>
            check (closeErr c) >>
            rewriteChunks werr pal infos rest
        end
  end.

(** ** processOne (main.go, lines 94-231) *)

(** What a job meets outside the program: the PNG codec at the far end of
    the pipe, the file system and the chunk library's constructors. *)
Record Env := mkEnv {
  pngEncode : Paletted -> list ReadResult;  (* what NextChunk yields of png.Encode's output *)
  encodeErr : Paletted -> option error;     (* what png.Encode returns *)
  createErr : option error;                 (* os.Create *)
  newReaderErr : option error;              (* pngchunks.NewReader *)
  newWriterErr : option error;              (* pngchunks.NewWriter *)
  writeErr : nat -> option error            (* pngw.WriteChunk, by chunks written *)
}.

(** What a job leaves behind: how it ended, the index of the file
    [sprites/%04d.png] it created, and the chunks written to it. *)
Record JobResult := mkJobResult {
  result : Res unit;
  created : option Z;
  written : list Chunk
}.

Definition processOne (env : Env) (idx : Z) (anims : list Animation) : JobResult :=
  match compose anims with
  | None => mkJobResult Panicked None []
  | Some st =>
      match FindBbox (asImage (spriteImg st)) with
      | None => mkJobResult Panicked None []
      | Some bb =>
          let subimg := SubImage (spriteImg st) bb in
          if (Dx (PRect subimg) =? 0) || (Dy (PRect subimg) =? 0)
          then mkJobResult (Ok tt) None []
          else
            match createErr env with
            | Some e => mkJobResult (Fail e) None []
            | None =>
                let '(r, out) :=
                  (check (newReaderErr env) >>
                   check (newWriterErr env) >>
                   rewriteChunks (writeErr env) (fullPalette st) (infos st)
                     (pngEncode env subimg) >>
                   check (encodeErr env subimg)) [] in
                mkJobResult r (Some idx) out
            end
      end
  end.

(** ** The worker pool of main (main.go, lines 262-284) *)

(** A job is known by its position in the queue. *)
Definition Job := nat.

(** The main goroutine: sending the jobs that remain, in [g.Wait()] after
    [close(ch)], or past it with the group's error. *)
Inductive MainState :=
| Sending (rest : list Job)
| Waiting
| Finished (err : option error).

(** A worker goroutine: at [range ch], inside [processOne], or returned. *)
Inductive WorkerState :=
| Receiving
| Running (j : Job)
| Exited.

Record Pool := mkPool {
  mainSt : MainState;
  chBuf : list Job;          (* the buffer of ch *)
  chClosed : bool;
  workers : list WorkerState;
  groupErr : option error;   (* the first error errgroup keeps *)
  completed : list Job       (* the jobs whose processOne call has returned *)
}.

Fixpoint setWorker (i : nat) (w : WorkerState) (ws : list WorkerState) : list WorkerState :=
  match ws, i with
  | [], _ => []
  | _ :: rest, O => w :: rest
  | v :: rest, S i' => v :: setWorker i' w rest
  end.

(** errgroup: [g.errOnce.Do(func() { g.err = err })] *)
Definition keepFirst (old : option error) (e : error) : option error :=
  match old with Some _ => old | None => Some e end.

Section Orchestrator.

(** [runtime.NumCPU()]: the number of workers and the capacity of [ch]. *)
Variable NumCPU : nat.

(** The error [processOne] returns for a job. *)
Variable run : Job -> option error.

Definition initPool (jobs : list Job) : Pool :=
  mkPool (Sending jobs) [] false (repeat Receiving NumCPU) None [].

(** The steps of the goroutines. *)
Inductive step : Pool -> Pool -> Prop :=
| step_send p j rest :
    mainSt p = Sending (j :: rest) ->
    (List.length (chBuf p) < NumCPU)%nat ->
    step p (mkPool (Sending rest) (chBuf p ++ [j]) (chClosed p)
              (workers p) (groupErr p) (completed p))
| step_close p :
    mainSt p = Sending [] ->
    step p (mkPool Waiting (chBuf p) true (workers p) (groupErr p) (completed p))
| step_receive p i j buf :
    nth_error (workers p) i = Some Receiving ->
    chBuf p = j :: buf ->
    step p (mkPool (mainSt p) buf (chClosed p)
              (setWorker i (Running j) (workers p)) (groupErr p) (completed p))
| step_drained p i :
    nth_error (workers p) i = Some Receiving ->
    chBuf p = [] ->
    chClosed p = true ->
    step p (mkPool (mainSt p) [] true
              (setWorker i Exited (workers p)) (groupErr p) (completed p))
| step_job_ok p i j :
    nth_error (workers p) i = Some (Running j) ->
    run j = None ->
    step p (mkPool (mainSt p) (chBuf p) (chClosed p)
              (setWorker i Receiving (workers p)) (groupErr p)
              (completed p ++ [j]))
| step_job_failed p i j e :
    nth_error (workers p) i = Some (Running j) ->
    run j = Some e ->
    step p (mkPool (mainSt p) (chBuf p) (chClosed p)
              (setWorker i Exited (workers p)) (keepFirst (groupErr p) e)
              (completed p ++ [j]))
| step_wait p :
    mainSt p = Waiting ->
    Forall (fun w => w = Exited) (workers p) ->
    step p (mkPool (Finished (groupErr p)) (chBuf p) (chClosed p)
              (workers p) (groupErr p) (completed p)).

(** The states a run can reach. *)
Inductive reachable (jobs : list Job) : Pool -> Prop :=
| reach_init : reachable jobs (initPool jobs)
| reach_step p q : reachable jobs p -> step p q -> reachable jobs q.

(** No goroutine can move. *)
Definition stuck (p : Pool) : Prop := forall q, ~ step p q.

End Orchestrator.

(** * Vocabulary of the specification *)

(** ** Rasters *)

(** An opaque pixel inside the bounds. *)
Definition opaqueAt (img : Image) (x y : Z) : Prop :=
  PointIn x y (Bounds img) = true /\ opaque img x y = Some true.

(** Every pixel inside the bounds can be read without a panic. *)
Definition safe (img : Image) : Prop :=
  forall x y, PointIn x y (Bounds img) = true -> At img x y <> None.

(** The raster has exactly one opaque pixel, at [(x, y)], and every pixel
    of it can be read. *)
Definition onePixel (img : Image) (x y : Z) : Prop :=
  PointIn x y (Bounds img) = true /\
  forall x' y', PointIn x' y' (Bounds img) = true ->
    exists c, At img x' y' = Some c /\ (alphaOf c <> 0 <-> x' = x /\ y' = y).

(** [yb] is the bottommost row with an opaque pixel. *)
Definition bottomInk (img : Image) (yb : Z) : Prop :=
  (exists x, opaqueAt img x yb) /\ (forall x y, opaqueAt img x y -> y <= yb).

(** ** Palettes *)

Definition isRGBA (c : Color) : bool :=
  match c with RGBA _ _ _ _ => true | _ => false end.

Definition isUint8 (v : Z) : bool := (0 <=? v) && (v <? 256).

(** A [color.RGBA] that is fully transparent or fully opaque. *)
Definition binaryAlpha (c : Color) : bool :=
  match c with
  | RGBA r g b a => isUint8 r && isUint8 g && isUint8 b && ((a =? 0) || (a =? 255))
  | _ => false
  end.

(** A palette of at most 256 such colours. *)
Definition spritePalette (P : list Color) : Prop :=
  forallb binaryAlpha P = true /\ (List.length P <= 256)%nat.

(** The palette-dump buffer the spec describes, for a palette of
    [color.RGBA] entries. *)
Definition paletteBytes (pal : list Color) : list Z :=
  paletteHeader ++
  flat_map (fun c => match c with
                     | RGBA r g b a => [r; g; b; a; 255; 255]
                     | _ => []
                     end) pal.

(** ** Placement *)

(** The frames of a sprite set, in the order the loops visit them. *)
Definition allFrames (anims : list Animation) : list Frame := flat_map Frames anims.

(** The rectangle a frame is placed at. *)
Definition placement (l t : Z) (trim : Rectangle) : Rectangle :=
  mkRectangle (mkPoint l t) (mkPoint (l + Dx trim) (t + Dy trim)).

(** The FrameInfo has the size of the trimmed box of the frame. *)
Definition trimmedSize (f : Frame) (i : FrameInfo) : Prop :=
  exists trim, FindBbox (asImage (MakeImage f)) = Some trim /\
               Dx (BBox i) = Dx trim /\ Dy (BBox i) = Dy trim.

(** A rectangle that is empty or lies on the canvas. *)
Definition onCanvas (r : Rectangle) : Prop :=
  Empty r = false ->
  X (Min canvasRect) <= X (Min r) /\ Y (Min canvasRect) <= Y (Min r) /\
  X (Max r) <= X (Max canvasRect) /\ Y (Max r) <= Y (Max canvasRect).

(** No two placement rectangles of the list overlap. *)
Definition noOverlap (l : list FrameInfo) : Prop :=
  forall n m a b, n <> m -> nth_error l n = Some a -> nth_error l m = Some b ->
                  Overlaps (BBox a) (BBox b) = false.

(** An opaque pixel of the canvas, read with the palette [P]. *)
Definition inked (P : list Color) (st : Composer) (x y : Z) : Prop :=
  PointIn x y canvasRect = true /\
  opaque (asImage (setPalette (spriteImg st) P)) x y = Some true.

(** What the packing loop keeps true while every frame has the palette [P]
    and stays on the canvas: the rectangles placed so far are disjoint, each
    lies left of the cursor or above its row, and each has left an opaque
    pixel in its bottom row. *)
Record PackInv (P : list Color) (st : Composer) : Prop := {
  inv_rect : PRect (spriteImg st) = canvasRect;
  inv_disjoint : noOverlap (infos st);
  inv_rows : forall i, In i (infos st) -> Empty (BBox i) = false ->
     X (Max (BBox i)) < left st \/ Y (Max (BBox i)) < top st;
  inv_ink : forall i, In i (infos st) -> Empty (BBox i) = false ->
     exists x, PointIn x (Y (Max (BBox i)) - 1) (BBox i) = true /\
               inked P st x (Y (Max (BBox i)) - 1)
}.

(** A frame of the end-to-end example of the spec. *)
Definition exampleFrame (f : Frame) (x y : Z) : Prop :=
  PRect (MakeImage f) = Rect 0 0 16 16 /\
  List.length (Palette (MakeImage f)) = 2%nat /\
  FrameDelay f = 5 /\ FrameAction f = 1 /\
  onePixel (asImage (MakeImage f)) x y.

(** ** The control table *)

Definition fitsInt16 (v : Z) : Prop := -32768 <= v < 32768.
Definition fitsUint8 (v : Z) : Prop := 0 <= v < 256.

(** Every field of the FrameInfo fits the field of its record. *)
Definition infoFits (i : FrameInfo) : Prop :=
  fitsInt16 (X (Min (BBox i))) /\ fitsInt16 (Y (Min (BBox i))) /\
  fitsInt16 (X (Max (BBox i))) /\ fitsInt16 (Y (Max (BBox i))) /\
  fitsInt16 (X (Origin i)) /\ fitsInt16 (Y (Origin i)) /\
  fitsUint8 (Delay i) /\ fitsUint8 (Action i).

(** What a record of the control table keeps of a FrameInfo. *)
Definition truncInfo (i : FrameInfo) : FrameInfo :=
  mkFrameInfo
    (mkRectangle (mkPoint (int16 (X (Min (BBox i)))) (int16 (Y (Min (BBox i)))))
                 (mkPoint (int16 (X (Max (BBox i)))) (int16 (Y (Max (BBox i))))))
    (mkPoint (int16 (X (Origin i))) (int16 (Y (Origin i))))
    (uint8 (Delay i)) (uint8 (Action i)).

(** A frame whose raster lies within 8192 pixels of the origin and whose
    delay and action are single bytes. *)
Definition smallFrame (f : Frame) : Prop :=
  let b := PRect (MakeImage f) in
  -8192 <= X (Min b) <= X (Max b) /\ X (Max b) <= 8192 /\
  -8192 <= Y (Min b) <= Y (Max b) /\ Y (Max b) <= 8192 /\
  fitsUint8 (FrameDelay f) /\ fitsUint8 (FrameAction f).

(** The cursor stays within a row of the canvas. *)
Definition cursorInv (st : Composer) : Prop :=
  0 <= left st /\ 0 <= top st <= 1025 /\ PRect (spriteImg st) = canvasRect.

(** The bytes of the control table that follow its header. *)
Definition controlRecords (infos : list FrameInfo) : list Z :=
  skipn (List.length controlHeader) (controlTable infos).

(** ** The chunk stream *)

(** A read that succeeds. *)
Definition okRead (c : ChunkReader) : ReadResult := mkReadResult (Some c) None.

Definition isTRNS (c : ChunkReader) : bool :=
  String.eqb (ChunkType (chunkOf c)) "tRNS".

Definition paletteChunk (buf : list Z) : Chunk := mkChunk (bufLen buf) "sPLT" buf.

Definition controlChunk (infos : list FrameInfo) : Chunk :=
  mkChunk (bufLen (controlTable infos)) "zTXt" (controlTable infos).

(** What the loop is to emit for one chunk read. *)
Definition rewritten (pbuf : list Z) (infos : list FrameInfo) (c : ChunkReader) : list Chunk :=
  chunkOf c :: (if isTRNS c then [paletteChunk pbuf; controlChunk infos] else []).

(** The raster handed to [png.Encode]. *)
Definition cropped (st : Composer) : option Paletted :=
  bb <- FindBbox (asImage (spriteImg st)) ;; Some (SubImage (spriteImg st) bb).

(** The job gets as far as the chunk loop. *)
Definition reachesLoop (env : Env) (anims : list Animation)
    (st : Composer) (subimg : Paletted) : Prop :=
  compose anims = Some st /\ cropped st = Some subimg /\
  Dx (PRect subimg) <> 0 /\ Dy (PRect subimg) <> 0 /\
  createErr env = None /\ newReaderErr env = None /\ newWriterErr env = None.

(** The environment with another chunk stream. *)
Definition withStream (env : Env) (reads : list ReadResult) : Env :=
  mkEnv (fun _ => reads) (encodeErr env) (createErr env)
        (newReaderErr env) (newWriterErr env) (writeErr env).

(** ** The pool with a single worker *)

(** While the first job of the queue fails: the worker has taken nothing
    yet, is inside that job, or has returned from it; main is still
    sending. *)
Definition oneWorkerInv (j0 : Job) (jobs : list Job) (p : Pool) : Prop :=
  chClosed p = false /\ (List.length (chBuf p) <= 1)%nat /\
  exists w pending,
    workers p = [w] /\ mainSt p = Sending pending /\
    match w with
    | Receiving => completed p = [] /\ chBuf p ++ pending = jobs
    | Running j => j = j0 /\ completed p = [] /\ j0 :: chBuf p ++ pending = jobs
    | Exited => completed p = [j0] /\ j0 :: chBuf p ++ pending = jobs
    end.

(** The state such a run ends in: main blocked at the send of [j2], [j1] in
    the buffer, and no worker left. *)
Definition deadlock (j0 j1 j2 : Job) (more : list Job) (e : error) : Pool :=
  mkPool (Sending (j2 :: more)) [j1] false [Exited] (Some e) [j0].

(** ** The layout of the sheet *)

(** The FrameInfo carries the delay and the action of the frame, has the
    size of its trimmed box, and its origin is the centre of the raster
    counted from the corner of the trimmed box. *)
Definition recordsFrame (f : Frame) (i : FrameInfo) : Prop :=
  Delay i = FrameDelay f /\ Action i = FrameAction f /\
  exists trim, FindBbox (asImage (MakeImage f)) = Some trim /\
    Dx (BBox i) = Dx trim /\ Dy (BBox i) = Dy trim /\
    X (Origin i) = Z.quot (Dx (PRect (MakeImage f))) 2 - X (Min trim) /\
    Y (Origin i) = Z.quot (Dy (PRect (MakeImage f))) 2 - Y (Min trim).

(** [b] follows [a] in its row, one pixel to the right, and ends on the
    canvas. *)
Definition sameRow (a b : FrameInfo) : Prop :=
  X (Min (BBox b)) = X (Max (BBox a)) + 1 /\
  Y (Min (BBox b)) = Y (Min (BBox a)) /\
  X (Max (BBox b)) <= X (Max canvasRect).

(** [b] did not fit behind [a] and starts a row. *)
Definition newRow (a b : FrameInfo) : Prop :=
  X (Max (BBox a)) + 1 + Dx (BBox b) > X (Max canvasRect) /\
  X (Min (BBox b)) = 0 /\ 1 <= Y (Min (BBox b)).

(** Where a placement rectangle can lie. *)
Definition placed (i : FrameInfo) : Prop :=
  0 <= X (Min (BBox i)) <= X (Max (BBox i)) /\
  0 <= Y (Min (BBox i)) <= Y (Max (BBox i)) /\
  Y (Min (BBox i)) <= 1025 /\
  (X (Max (BBox i)) <= X (Max canvasRect) \/ X (Min (BBox i)) = 0).

(** Where the first placement rectangle lies: in the corner, unless the
    frame is wider than the canvas. *)
Definition firstPlaced (a : FrameInfo) : Prop :=
  Min (BBox a) = mkPoint 0 0 \/
  (Dx (BBox a) > X (Max canvasRect) /\ X (Min (BBox a)) = 0 /\ 1 <= Y (Min (BBox a))).

(** The cursor stands behind the last rectangle placed. *)
Definition rowInv (st : Composer) : Prop :=
  PRect (spriteImg st) = canvasRect /\
  (infos st = [] -> left st = 0 /\ top st = 0) /\
  (forall k a, List.length (infos st) = S k -> nth_error (infos st) k = Some a ->
     left st = X (Max (BBox a)) + 1 /\ top st = Y (Min (BBox a))) /\
  Forall placed (infos st) /\
  (forall a, nth_error (infos st) 0 = Some a -> firstPlaced a) /\
  (forall k a b, nth_error (infos st) k = Some a -> nth_error (infos st) (S k) = Some b ->
     sameRow a b \/ newRow a b).

(** ** Well-formed input *)

(** Every pixel of the raster indexes its palette. *)
Definition validPix (p : Paletted) : Prop :=
  forall x y, PointIn x y (PRect p) = true ->
              (Z.to_nat (Pix p x y) < List.length (Palette p))%nat.

(** A frame whose raster has a palette of [n] colours and can be read. *)
Definition wellFormed (n : nat) (f : Frame) : Prop :=
  List.length (Palette (MakeImage f)) = n /\ safe (asImage (MakeImage f)).

(** The canvas holds indices below [n] only. *)
Definition canvasInv (n : nat) (st : Composer) : Prop :=
  PRect (spriteImg st) = canvasRect /\
  forall x y, PointIn x y canvasRect = true ->
              (Z.to_nat (Pix (spriteImg st) x y) < n)%nat.

(** ** What the loop gets to see *)

(** The chunks the loop takes from the reader: those before the first
    [io.EOF] and before the first nil chunk. *)
Fixpoint readChunks (reads : list ReadResult) : list ChunkReader :=
  match reads with
  | [] => []
  | rd :: rest =>
      if match rerr rd with Some e => isEOF e | None => false end then []
      else match rchunk rd with
           | None => []
           | Some c => c :: readChunks rest
           end
  end.

(** The stream the loop is to emit for the chunks it takes.  (With a
    palette entry that is not a [color.RGBA] the loop panics before it
    writes the palette dump, whose buffer then does not matter.) *)
Definition expected (pal : list Color) (infos : list FrameInfo)
    (reads : list ReadResult) : list Chunk :=
  flat_map (rewritten (paletteBytes pal) infos) (readChunks reads).

(** A read that hands over a chunk, or reports the end of the stream. *)
Definition carriesChunk (rd : ReadResult) : Prop :=
  rchunk rd <> None \/ rerr rd = Some EOF.

(** ** The pool with any number of workers *)

(** The job a worker is inside of. *)
Definition jobOf (w : WorkerState) : list Job :=
  match w with Running j => [j] | _ => [] end.

Definition runningJobs (ws : list WorkerState) : list Job := flat_map jobOf ws.

(** The jobs main has still to send. *)
Definition pendingJobs (m : MainState) : list Job :=
  match m with Sending rest => rest | _ => [] end.

(** Every job of a state: done, being run, in the channel, or not sent yet. *)
Definition accounted (p : Pool) : list Job :=
  completed p ++ runningJobs (workers p) ++ chBuf p ++ pendingJobs (mainSt p).

(** The error of the first job of the list that fails. *)
Fixpoint firstError (run : Job -> option error) (js : list Job) : option error :=
  match js with
  | [] => None
  | j :: rest =>
      match run j with
      | Some e => Some e
      | None => firstError run rest
      end
  end.

(** What every reachable state of the pool satisfies. *)
Definition poolInv (NumCPU : nat) (run : Job -> option error) (jobs : list Job)
    (p : Pool) : Prop :=
  List.length (workers p) = NumCPU /\
  (List.length (chBuf p) <= NumCPU)%nat /\
  (forall x, count_occ Nat.eq_dec (accounted p) x = count_occ Nat.eq_dec jobs x) /\
  groupErr p = firstError run (completed p) /\
  match mainSt p with
  | Sending _ => chClosed p = false
  | Waiting => chClosed p = true
  | Finished err =>
      chClosed p = true /\ err = groupErr p /\ Forall (fun w => w = Exited) (workers p)
  end.

(** While no job fails, a worker returns only from a closed and drained
    channel. *)
Definition quietInv (p : Pool) : Prop :=
  In Exited (workers p) -> chClosed p = true /\ chBuf p = [].

(** Main blocked in a send with the buffer full and no worker left. *)
Definition blockedSend (NumCPU : nat) (p : Pool) : Prop :=
  exists j rest, mainSt p = Sending (j :: rest) /\
                 Forall (fun w => w = Exited) (workers p) /\
                 List.length (chBuf p) = NumCPU.

(** * Sample inputs *)

(** A transparent and an opaque colour. *)
Definition twoTone : list Color := [RGBA 0 0 0 0; RGBA 255 255 255 255].

(** A raster of [w] by [h] opaque pixels. *)
Definition solidImage (w h : Z) : Paletted :=
  mkPaletted (fun _ _ => 1) (Rect 0 0 w h) twoTone.

Definition solidFrame (w h : Z) : Frame := mkFrame (solidImage w h) twoTone 5 1.

(** A raster of [w] by [h] pixels, opaque at [(x, y)] only. *)
Definition dotImage (w h x y : Z) : Paletted :=
  mkPaletted (fun x' y' => if (x' =? x) && (y' =? y) then 1 else 0)
             (Rect 0 0 w h) twoTone.

(** A frame of 16 by 16 pixels, opaque at [(x, y)] only, delay 5, action 1. *)
Definition dotFrame (x y : Z) : Frame := mkFrame (dotImage 16 16 x y) twoTone 5 1.

(** A fully transparent frame. *)
Definition blankFrame : Frame :=
  mkFrame (mkPaletted (fun _ _ => 0) (Rect 0 0 2 2) twoTone) twoTone 5 1.

(** A column and a row that fill the first shelf of the canvas. *)
Definition shelfFrames : list Frame := [solidFrame 1 1020; solidFrame 1022 1].

(** The shelf, and one more frame that has to wrap. *)
Definition wrapSet : list Animation :=
  [mkAnimation shelfFrames; mkAnimation [solidFrame 1 1]].

(** Frames that reach the bottom edge of the canvas, and two more rows. *)
Definition overflowSet : list Animation :=
  [mkAnimation [solidFrame 1 1024; solidFrame 1022 1; solidFrame 1 1; solidFrame 1023 1]].

(** A frame 70000 pixels wide whose only opaque pixel is the last one. *)
Definition wideSet : list Animation :=
  [mkAnimation [mkFrame (dotImage 70000 1 69999 0) twoTone 5 1]].

(** A sprite set whose ink spans the canvas. *)
Definition cornerSet : list Animation :=
  [mkAnimation [solidFrame 1 1024; solidFrame 1022 1]].

(** The same, with a palette entry that is not a [color.RGBA]. *)
Definition nrgbaSet : list Animation :=
  [mkAnimation [solidFrame 1 1024;
                mkFrame (solidImage 1022 1) [RGBA 0 0 0 0; NRGBA 255 255 255 255] 5 1]].

Definition blankSet : list Animation := [mkAnimation [blankFrame]].

(** A palette in which index 1 is transparent and index 2 opaque. *)
Definition threeTone : list Color :=
  [RGBA 0 0 0 0; RGBA 0 0 0 0; RGBA 255 255 255 255].

(** A raster of [w] by [h] pixels of index 2 of [threeTone]. *)
Definition solidFrame3 (w h : Z) : Frame :=
  mkFrame (mkPaletted (fun _ _ => 2) (Rect 0 0 w h) threeTone) threeTone 5 1.

(** A first frame drawn with [twoTone], then frames with [threeTone], the
    last of which has to wrap. *)
Definition twoPaletteSet : list Animation :=
  [mkAnimation [solidFrame 1 3; solidFrame3 1022 1; solidFrame3 1 1]].

(** An environment in which nothing fails, with the chunk stream [reads]. *)
Definition quietEnv (reads : list ReadResult) : Env :=
  mkEnv (fun _ => reads) (fun _ => None) None None None (fun _ => None).

Definition pngChunk (typ : string) (data : list Z) : ChunkReader :=
  mkChunkReader (mkChunk (Z.of_nat (List.length data)) typ data) None.

(** The chunks of a small paletted PNG (payloads shortened). *)
Definition sampleStream : list ChunkReader :=
  [pngChunk "IHDR" [0; 0; 4; 0; 0; 0; 4; 0; 8; 3; 0; 0; 0];
   pngChunk "PLTE" [0; 0; 0; 255; 255; 255];
   pngChunk "tRNS" [0];
   pngChunk "IDAT" [120; 156; 99; 96; 0];
   pngChunk "IEND" []].

(** The first job of the queue fails, the others succeed. *)
Definition failFirst (j : Job) : option error :=
  match j with
  | O => Some (ErrOther "create sprites/0000.png: permission denied")
  | _ => None
  end.

(** ** Sample inputs for the further properties *)

(** No job fails. *)
Definition noFail (j : Job) : option error := None.

(** The end of a run of one worker on one job that succeeds. *)
Definition quietEnd : Pool :=
  mkPool (Finished None) [] true [Exited] None [0%nat].

(** The raster of [dotImage 16 16 3 4], unreadable outside its bounds. *)
Definition fencedDot : Image :=
  mkImage (Rect 0 0 16 16)
          (fun x y => if PointIn x y (Rect 0 0 16 16)
                      then Paletted_At (dotImage 16 16 3 4) x y
                      else None).

(** A raster of 3 by 1 pixels, opaque at both ends and transparent between. *)
Definition gapFrame : Frame :=
  mkFrame (mkPaletted (fun x _ => if x =? 1 then 0 else 1) (Rect 0 0 3 1) twoTone)
          twoTone 5 1.

Definition gapSet : list Animation := [mkAnimation [gapFrame]].

(** * Proofs *)

Ltac inv H := inversion H; subst; clear H.

(** Case analysis on the head of an option bind in a hypothesis. *)
Ltac bind_inv H :=
  match type of H with
  | match ?a with Some _ => _ | None => None end = Some _ =>
      let E := fresh "E" in destruct a eqn:E; [ | discriminate H ]
  end.

(** ** The scans of FindBbox *)

Lemma anyOpaque_false_inv test n : forall v,
  anyOpaque test v n = Some false ->
  forall i, v <= i < v + Z.of_nat n -> test i = Some false.
Proof.
  induction n as [ | n IH ]; intros v H i Hi; [ lia | ].
  cbn [anyOpaque] in H. bind_inv H. destruct b; [ discriminate | ].
  destruct (Z.eq_dec i v) as [ -> | Hne ]; [ assumption | ].
  apply (IH (v + 1)); [ assumption | lia ].
Qed.

Lemma anyOpaque_true_inv test n : forall v,
  anyOpaque test v n = Some true ->
  exists i, v <= i < v + Z.of_nat n /\ test i = Some true.
Proof.
  induction n as [ | n IH ]; intros v H; [ discriminate | ].
  cbn [anyOpaque] in H. bind_inv H. destruct b.
  - exists v. split; [ lia | assumption ].
  - destruct (IH _ H) as (i & Hi & Ht). exists i. split; [ lia | assumption ].
Qed.

Lemma anyOpaque_total test n : forall v,
  (forall i, v <= i < v + Z.of_nat n -> test i <> None) ->
  anyOpaque test v n <> None.
Proof.
  induction n as [ | n IH ]; intros v H; [ discriminate | ].
  cbn [anyOpaque]. destruct (test v) as [ [ | ] | ] eqn:E.
  - discriminate.
  - apply IH. intros i Hi. apply H. lia.
  - exfalso. apply (H v); [ lia | assumption ].
Qed.

Lemma scanUp_inv line n : forall i r,
  scanUp line i n = Some r ->
  i <= r <= i + Z.of_nat n /\
  (forall k, i <= k < r -> line k = Some false) /\
  (r < i + Z.of_nat n -> line r = Some true).
Proof.
  induction n as [ | n IH ]; intros i r H.
  - cbn in H. inv H. repeat split; intros; lia.
  - cbn [scanUp] in H. bind_inv H. destruct b.
    + inv H. repeat split; intros; try lia. assumption.
    + destruct (IH _ _ H) as (Hr & Hlt & Hhit). repeat split; try lia.
      * intros k Hk. destruct (Z.eq_dec k i) as [ -> | ]; [ assumption | ].
        apply Hlt. lia.
      * intros Hlt'. apply Hhit. lia.
Qed.

Lemma scanDown_inv line n : forall i r,
  scanDown line i n = Some r ->
  i - Z.of_nat n <= r <= i /\
  (forall k, r < k <= i -> line k = Some false) /\
  (i - Z.of_nat n < r -> line r = Some true).
Proof.
  induction n as [ | n IH ]; intros i r H.
  - cbn in H. inv H. repeat split; intros; lia.
  - cbn [scanDown] in H. bind_inv H. destruct b.
    + inv H. repeat split; intros; try lia. assumption.
    + destruct (IH _ _ H) as (Hr & Hlt & Hhit). repeat split; try lia.
      * intros k Hk. destruct (Z.eq_dec k i) as [ -> | ]; [ assumption | ].
        apply Hlt. lia.
      * intros Hlt'. apply Hhit. lia.
Qed.

Lemma scanUp_total line n : forall i,
  (forall k, i <= k < i + Z.of_nat n -> line k <> None) ->
  scanUp line i n <> None.
Proof.
  induction n as [ | n IH ]; intros i H; [ discriminate | ].
  cbn [scanUp]. destruct (line i) as [ [ | ] | ] eqn:E.
  - discriminate.
  - apply IH. intros k Hk. apply H. lia.
  - exfalso. apply (H i); [ lia | assumption ].
Qed.

Lemma scanDown_total line n : forall i,
  (forall k, i - Z.of_nat n < k <= i -> line k <> None) ->
  scanDown line i n <> None.
Proof.
  induction n as [ | n IH ]; intros i H; [ discriminate | ].
  cbn [scanDown]. destruct (line i) as [ [ | ] | ] eqn:E.
  - discriminate.
  - apply IH. intros k Hk. apply H. lia.
  - exfalso. apply (H i); [ lia | assumption ].
Qed.

(** ** FindBbox *)

Lemma PointIn_iff x y r :
  PointIn x y r = true <->
  X (Min r) <= x < X (Max r) /\ Y (Min r) <= y < Y (Max r).
Proof.
  unfold PointIn. rewrite !andb_true_iff, !Z.leb_le, !Z.ltb_lt. lia.
Qed.

Lemma Empty_false_iff r :
  Empty r = false <-> X (Min r) < X (Max r) /\ Y (Min r) < Y (Max r).
Proof.
  unfold Empty. rewrite orb_false_iff, !Z.geb_leb, !Z.leb_gt. lia.
Qed.

Section Scans.
Variable img : Image.
Let b := Bounds img.

Lemma colOpaque_false x y :
  colOpaque img x = Some false ->
  Y (Min b) <= y < Y (Max b) -> opaque img x y = Some false.
Proof.
  intros H Hy. unfold colOpaque in H.
  apply (anyOpaque_false_inv _ _ _ H). unfold Dy. fold b. lia.
Qed.

Lemma rowOpaque_false x y :
  rowOpaque img y = Some false ->
  X (Min b) <= x < X (Max b) -> opaque img x y = Some false.
Proof.
  intros H Hx. unfold rowOpaque in H.
  apply (anyOpaque_false_inv _ _ _ H). unfold Dx. fold b. lia.
Qed.

Lemma colOpaque_true x :
  colOpaque img x = Some true ->
  exists y, Y (Min b) <= y < Y (Max b) /\ opaque img x y = Some true.
Proof.
  intros H. unfold colOpaque in H.
  destruct (anyOpaque_true_inv _ _ _ H) as (y & Hy & Ho).
  exists y. split; [ | assumption ]. unfold Dy in Hy. fold b in Hy. lia.
Qed.

Lemma rowOpaque_true y :
  rowOpaque img y = Some true ->
  exists x, X (Min b) <= x < X (Max b) /\ opaque img x y = Some true.
Proof.
  intros H. unfold rowOpaque in H.
  destruct (anyOpaque_true_inv _ _ _ H) as (x & Hx & Ho).
  exists x. split; [ | assumption ]. unfold Dx in Hx. fold b in Hx. lia.
Qed.

Lemma opaque_total x y : safe img -> PointIn x y b = true -> opaque img x y <> None.
Proof.
  intros Hs Hin. unfold opaque. specialize (Hs x y Hin).
  destruct (At img x y); [ discriminate | congruence ].
Qed.

Lemma colOpaque_total x :
  safe img -> X (Min b) <= x < X (Max b) -> colOpaque img x <> None.
Proof.
  intros Hs Hx. unfold colOpaque. apply anyOpaque_total. intros y Hy.
  apply opaque_total; [ assumption | ]. apply PointIn_iff.
  unfold Dy in Hy. fold b in Hy |- *. lia.
Qed.

Lemma rowOpaque_total y :
  safe img -> Y (Min b) <= y < Y (Max b) -> rowOpaque img y <> None.
Proof.
  intros Hs Hy. unfold rowOpaque. apply anyOpaque_total. intros x Hx.
  apply opaque_total; [ assumption | ]. apply PointIn_iff.
  unfold Dx in Hx. fold b in Hx |- *. lia.
Qed.

(** The four scans behind a result of [FindBbox]. *)
Lemma FindBbox_scans r :
  FindBbox img = Some r ->
  exists l t r0 b0,
    scanUp (colOpaque img) (X (Min b)) (Z.to_nat (Dx b)) = Some l /\
    scanUp (rowOpaque img) (Y (Min b)) (Z.to_nat (Dy b)) = Some t /\
    scanDown (colOpaque img) (X (Max b) - 1) (Z.to_nat (Dx b)) = Some r0 /\
    scanDown (rowOpaque img) (Y (Max b) - 1) (Z.to_nat (Dy b)) = Some b0 /\
    r = if (r0 + 1 <? l) || (b0 + 1 <? t)
        then Rect 0 0 0 0
        else mkRectangle (mkPoint l t) (mkPoint (r0 + 1) (b0 + 1)).
Proof.
  unfold FindBbox. fold b. intros H.
  destruct (scanUp (colOpaque img) _ _) as [ l | ]; [ | discriminate ].
  destruct (scanUp (rowOpaque img) _ _) as [ t | ]; [ | discriminate ].
  destruct (scanDown (colOpaque img) _ _) as [ r0 | ]; [ | discriminate ].
  destruct (scanDown (rowOpaque img) _ _) as [ b0 | ]; [ | discriminate ].
  exists l, t, r0, b0. repeat split.
  destruct ((r0 + 1 <? l) || (b0 + 1 <? t)); congruence.
Qed.

(** Every opaque pixel lies in the box. *)
Lemma FindBbox_covers r x y :
  FindBbox img = Some r -> opaqueAt img x y -> PointIn x y r = true.
Proof.
  intros H (Hin & Ho). apply PointIn_iff in Hin. fold b in Hin.
  destruct (FindBbox_scans _ H) as (l & t & r0 & b0 & Hl & Ht & Hr & Hb & ->).
  apply scanUp_inv in Hl. apply scanUp_inv in Ht.
  apply scanDown_inv in Hr. apply scanDown_inv in Hb.
  destruct Hl as (Hl1 & Hl2 & _), Ht as (Ht1 & Ht2 & _),
           Hr as (Hr1 & Hr2 & _), Hb as (Hb1 & Hb2 & _).
  assert (l <= x).
  { destruct (Z_le_gt_dec l x); [ assumption | exfalso ].
    assert (Hc : colOpaque img x = Some false) by (apply Hl2; lia).
    rewrite (colOpaque_false _ y Hc) in Ho by lia. discriminate. }
  assert (x <= r0).
  { destruct (Z_le_gt_dec x r0); [ assumption | exfalso ].
    assert (Hc : colOpaque img x = Some false) by (apply Hr2; lia).
    rewrite (colOpaque_false _ y Hc) in Ho by lia. discriminate. }
  assert (t <= y).
  { destruct (Z_le_gt_dec t y); [ assumption | exfalso ].
    assert (Hc : rowOpaque img y = Some false) by (apply Ht2; lia).
    rewrite (rowOpaque_false x _ Hc) in Ho by lia. discriminate. }
  assert (y <= b0).
  { destruct (Z_le_gt_dec y b0); [ assumption | exfalso ].
    assert (Hc : rowOpaque img y = Some false) by (apply Hb2; lia).
    rewrite (rowOpaque_false x _ Hc) in Ho by lia. discriminate. }
  replace ((r0 + 1 <? l) || (b0 + 1 <? t)) with false
    by (symmetry; apply orb_false_iff; rewrite !Z.ltb_ge; lia).
  apply PointIn_iff. cbn. lia.
Qed.

(** A box that is not empty lies inside the bounds and has an opaque
    pixel on each of its four edges. *)
Lemma FindBbox_edges r :
  FindBbox img = Some r -> Empty r = false ->
  (X (Min b) <= X (Min r) /\ X (Max r) <= X (Max b) /\
   Y (Min b) <= Y (Min r) /\ Y (Max r) <= Y (Max b)) /\
  (exists y, opaqueAt img (X (Min r)) y) /\
  (exists x, opaqueAt img x (Y (Min r))) /\
  (exists y, opaqueAt img (X (Max r) - 1) y) /\
  (exists x, opaqueAt img x (Y (Max r) - 1)).
Proof.
  intros H Hne.
  destruct (FindBbox_scans _ H) as (l & t & r0 & b0 & Hl & Ht & Hr & Hb & ->).
  destruct ((r0 + 1 <? l) || (b0 + 1 <? t)) eqn:Hc; [ discriminate Hne | ].
  apply Empty_false_iff in Hne. cbn in Hne.
  apply scanUp_inv in Hl. apply scanUp_inv in Ht.
  apply scanDown_inv in Hr. apply scanDown_inv in Hb.
  destruct Hl as (Hl1 & _ & Hl3), Ht as (Ht1 & _ & Ht3),
           Hr as (Hr1 & _ & Hr3), Hb as (Hb1 & _ & Hb3).
  unfold Dx, Dy in *. fold b in Hl1, Hl3, Ht1, Ht3, Hr1, Hr3, Hb1, Hb3.
  cbn [Min Max X Y].
  assert (Hl' : colOpaque img l = Some true) by (apply Hl3; lia).
  assert (Ht' : rowOpaque img t = Some true) by (apply Ht3; lia).
  assert (Hr' : colOpaque img r0 = Some true) by (apply Hr3; lia).
  assert (Hb' : rowOpaque img b0 = Some true) by (apply Hb3; lia).
  split; [ lia | ].
  unfold opaqueAt. fold b.
  destruct (colOpaque_true _ Hl') as (y1 & ? & ?).
  destruct (rowOpaque_true _ Ht') as (x2 & ? & ?).
  destruct (colOpaque_true _ Hr') as (y3 & ? & ?).
  destruct (rowOpaque_true _ Hb') as (x4 & ? & ?).
  repeat split.
  - exists y1. split; [ apply PointIn_iff; lia | assumption ].
  - exists x2. split; [ apply PointIn_iff; lia | assumption ].
  - exists y3. replace (r0 + 1 - 1) with r0 by lia.
    split; [ apply PointIn_iff; lia | assumption ].
  - exists x4. replace (b0 + 1 - 1) with b0 by lia.
    split; [ apply PointIn_iff; lia | assumption ].
Qed.

(** On an image whose pixels can all be read the scan returns. *)
Lemma FindBbox_total : safe img -> exists r, FindBbox img = Some r.
Proof.
  intros Hs. unfold FindBbox. fold b.
  destruct (scanUp (colOpaque img) _ _) as [ l | ] eqn:El.
  2:{ exfalso. revert El. apply scanUp_total. intros k Hk.
      apply colOpaque_total; [ assumption | ]. unfold Dx in Hk. fold b in Hk |- *. lia. }
  destruct (scanUp (rowOpaque img) _ _) as [ t | ] eqn:Et.
  2:{ exfalso. revert Et. apply scanUp_total. intros k Hk.
      apply rowOpaque_total; [ assumption | ]. unfold Dy in Hk. fold b in Hk |- *. lia. }
  destruct (scanDown (colOpaque img) _ _) as [ r0 | ] eqn:Er.
  2:{ exfalso. revert Er. apply scanDown_total. intros k Hk.
      apply colOpaque_total; [ assumption | ]. unfold Dx in Hk. fold b in Hk |- *. lia. }
  destruct (scanDown (rowOpaque img) _ _) as [ b0 | ] eqn:Eb.
  2:{ exfalso. revert Eb. apply scanDown_total. intros k Hk.
      apply rowOpaque_total; [ assumption | ]. unfold Dy in Hk. fold b in Hk |- *. lia. }
  destruct ((r0 + 1 <? l) || (b0 + 1 <? t)); eauto.
Qed.

End Scans.

(** ** The control table *)

Lemma int16_id v : fitsInt16 v -> int16 v = v.
Proof. unfold fitsInt16, int16. intros H. rewrite Z.mod_small; lia. Qed.

Lemma int16_range v : fitsInt16 (int16 v).
Proof.
  unfold fitsInt16, int16.
  pose proof (Z.mod_pos_bound (v + 32768) 65536). lia.
Qed.

Lemma uint8_id v : fitsUint8 v -> uint8 v = v.
Proof. unfold fitsUint8, uint8. intros H. apply Z.mod_small; lia. Qed.

Lemma getInt16_putInt16 v :
  forall lo hi, putInt16 v = [lo; hi] -> getInt16 lo hi = int16 v.
Proof.
  intros lo hi H. unfold putInt16 in H. injection H as <- <-.
  pose proof (int16_range v) as Hr. set (w := int16 v) in *.
  change 255 with (Z.ones 8). rewrite !Z.land_ones by lia.
  rewrite Z.shiftr_div_pow2 by lia. change (2 ^ 8) with 256.
  unfold getInt16, int16, fitsInt16 in *.
  Z.div_mod_to_equations. lia.
Qed.

Lemma decodeRecords_controlRecord i rest :
  decodeRecords (controlRecord i ++ rest) =
  (infos <- decodeRecords rest ;; Some (truncInfo i :: infos)).
Proof.
  unfold controlRecord.
  repeat match goal with
  | |- context [putInt16 ?v] =>
      let lo := fresh "lo" in let hi := fresh "hi" in let E := fresh "E" in
      pose proof (getInt16_putInt16 v) as E;
      destruct (putInt16 v) as [ | lo [ | hi [ | ? ? ] ] ] eqn:?;
      try discriminate;
      specialize (E _ _ eq_refl)
  end.
  cbn [app decodeRecords].
  destruct (decodeRecords rest); [ | reflexivity ].
  unfold truncInfo. repeat f_equal; assumption.
Qed.

Lemma decodeRecords_flat_map infos :
  decodeRecords (flat_map controlRecord infos) = Some (map truncInfo infos).
Proof.
  induction infos as [ | i infos IH ]; [ reflexivity | ].
  cbn [flat_map map]. rewrite decodeRecords_controlRecord, IH. reflexivity.
Qed.

Lemma decodeControlTable_controlTable infos :
  decodeControlTable (controlTable infos) = Some (map truncInfo infos).
Proof.
  unfold decodeControlTable, controlTable.
  change (skipn (List.length controlHeader) (controlHeader ++ flat_map controlRecord infos))
    with (flat_map controlRecord infos).
  apply decodeRecords_flat_map.
Qed.

Lemma truncInfo_id i : infoFits i -> truncInfo i = i.
Proof.
  intros (H1 & H2 & H3 & H4 & H5 & H6 & H7 & H8).
  destruct i as [ [ [ a b ] [ c d ] ] [ e f ] dl ac ]. cbn in *.
  unfold truncInfo. cbn.
  rewrite !int16_id, !uint8_id by assumption. reflexivity.
Qed.

Lemma uint8_range v : fitsUint8 (uint8 v).
Proof. unfold fitsUint8, uint8. apply Z.mod_pos_bound. lia. Qed.

Lemma truncInfo_fits i : truncInfo i = i -> infoFits i.
Proof.
  destruct i as [ [ [ a b ] [ c d ] ] [ e f ] dl ac ]. unfold truncInfo, infoFits. cbn.
  intros H. injection H as Ha Hb Hc Hd He Hf Hdl Hac.
  rewrite <- Ha at 1. rewrite <- Hb at 1. rewrite <- Hc at 1. rewrite <- Hd at 1.
  rewrite <- He at 1. rewrite <- Hf at 1. rewrite <- Hdl at 1. rewrite <- Hac at 1.
  repeat split; try apply int16_range; apply uint8_range.
Qed.

Lemma map_truncInfo_id infos : map truncInfo infos = infos <-> Forall infoFits infos.
Proof.
  split.
  - induction infos as [ | i l IH ]; intros H; [ constructor | ].
    cbn [map] in H. injection H as Hi Hl.
    constructor; [ apply truncInfo_fits; exact Hi | apply IH; exact Hl ].
  - induction 1 as [ | i l Hi _ IH ]; [ reflexivity | ].
    cbn [map]. rewrite truncInfo_id, IH by assumption. reflexivity.
Qed.

(** Claim C5, amended.  The control table of a composition reads back, after
    its header, as the FrameInfo list with every coordinate truncated to 16
    bits and delay and action to 8, in frame order; it gives back the list
    itself exactly when every value fits the field it is stored in. *)
Theorem control_table_roundtrip (anims : list Animation) (st : Composer) :
  compose anims = Some st ->
  decodeControlTable (controlTable (infos st)) = Some (map truncInfo (infos st)) /\
  (decodeControlTable (controlTable (infos st)) = Some (infos st) <->
   Forall infoFits (infos st)).
Proof.
  intros _. rewrite decodeControlTable_controlTable. split; [ reflexivity | ].
  rewrite <- map_truncInfo_id. split; [ intros H; injection H; auto | congruence ].
Qed.

Lemma putInt16_length v : List.length (putInt16 v) = 2%nat.
Proof. reflexivity. Qed.

Lemma controlRecord_length i : List.length (controlRecord i) = 14%nat.
Proof. reflexivity. Qed.

Lemma controlTable_length infos :
  List.length (controlTable infos) = (8 + 14 * List.length infos)%nat.
Proof.
  unfold controlTable. rewrite length_app.
  change (List.length controlHeader) with 8%nat. f_equal.
  induction infos as [ | i l IH ]; [ reflexivity | ].
  cbn [flat_map]. rewrite length_app, controlRecord_length, IH. cbn [List.length]. lia.
Qed.

(** ** The chunk loop *)

Section Loop.
Variable werr : nat -> option error.
Variable pal : list Color.
Variable infos : list FrameInfo.

Lemma WriteChunk_ok c out :
  werr (List.length out) = None -> WriteChunk werr c out = (Ok tt, out ++ [c]).
Proof. intros H. unfold WriteChunk. rewrite H. reflexivity. Qed.

Lemma rewriteChunks_cons_ok c rest out :
  werr (List.length out) = None ->
  rewriteChunks werr pal infos (okRead c :: rest) out =
  ((if isTRNS c
    then writePaletteDump werr pal >> writeControlTable werr infos
    else ret tt) >>
   check (closeErr c) >>
   rewriteChunks werr pal infos rest) (out ++ [chunkOf c]).
Proof.
  intros H. cbn [rewriteChunks okRead rerr rchunk].
  unfold bind at 1. rewrite (WriteChunk_ok _ _ H). reflexivity.
Qed.

Lemma rewriteChunks_ok pbuf cs : forall out,
  (forall k, werr k = None) ->
  Forall (fun c => closeErr c = None) cs ->
  paletteDump pal = Some pbuf ->
  rewriteChunks werr pal infos (map okRead cs) out =
  (Ok tt, out ++ flat_map (rewritten pbuf infos) cs).
Proof.
  intros out Hw Hc Hp. revert out.
  induction Hc as [ | c cs Hc _ IH ]; intros out.
  - cbn. rewrite app_nil_r. reflexivity.
  - cbn [map]. rewrite rewriteChunks_cons_ok by apply Hw.
    cbn [flat_map]. unfold rewritten at 1.
    destruct (isTRNS c).
    + unfold bind, writePaletteDump, writeControlTable. rewrite Hp.
      rewrite !WriteChunk_ok by apply Hw. rewrite Hc. cbn [check].
      rewrite IH. f_equal. rewrite <- !app_assoc. reflexivity.
    + unfold bind, ret. rewrite Hc. cbn [check].
      rewrite IH. f_equal. rewrite <- !app_assoc. reflexivity.
Qed.

Lemma flat_map_no_tRNS pbuf cs :
  Forall (fun c => isTRNS c = false) cs ->
  flat_map (rewritten pbuf infos) cs = map chunkOf cs.
Proof.
  induction 1 as [ | c cs Hc _ IH ]; [ reflexivity | ].
  cbn [flat_map map]. unfold rewritten at 1. rewrite Hc, IH. reflexivity.
Qed.

Lemma paletteEntries_None :
  Exists (fun c => isRGBA c = false) pal -> paletteEntries pal = None.
Proof.
  induction 1 as [ c l Hc | c l _ IH ].
  - destruct c; try discriminate; reflexivity.
  - cbn [paletteEntries]. destruct (paletteEntry c); [ | reflexivity ].
    rewrite IH. reflexivity.
Qed.

Lemma paletteEntries_Some :
  Forall (fun c => isRGBA c = true) pal ->
  exists es, paletteEntries pal = Some es /\
             List.length es = (6 * List.length pal)%nat.
Proof.
  induction 1 as [ | c l Hc _ (es & IH & Hlen) ].
  - exists []. split; reflexivity.
  - destruct c; try discriminate. cbn [paletteEntries paletteEntry]. rewrite IH.
    eexists. split; [ reflexivity | ]. cbn [List.length app]. lia.
Qed.

End Loop.

(** ** Rectangles *)

Lemma Empty_true_iff r :
  Empty r = true <-> X (Max r) <= X (Min r) \/ Y (Max r) <= Y (Min r).
Proof.
  unfold Empty. rewrite orb_true_iff, !Z.geb_leb, !Z.leb_le. lia.
Qed.

Lemma Intersect_Empty_l r s : Empty r = true -> Intersect r s = ZR.
Proof.
  intros H. unfold Intersect.
  match goal with |- (if Empty ?q then _ else _) = _ =>
    assert (He : Empty q = true); [ | rewrite He; reflexivity ] end.
  apply Empty_true_iff in H. apply Empty_true_iff. cbn.
  destruct (Z.ltb_spec (X (Min r)) (X (Min s))), (Z.ltb_spec (Y (Min r)) (Y (Min s)));
    destruct (X (Max r) >? X (Max s)) eqn:E1, (Y (Max r) >? Y (Max s)) eqn:E2;
    rewrite ?Z.gtb_ltb, ?Z.ltb_lt, ?Z.ltb_ge in *; lia.
Qed.

Lemma Intersect_inside r s :
  Empty r = false ->
  X (Min s) <= X (Min r) -> Y (Min s) <= Y (Min r) ->
  X (Max r) <= X (Max s) -> Y (Max r) <= Y (Max s) ->
  Intersect r s = r.
Proof.
  intros Hne H1 H2 H3 H4. unfold Intersect.
  replace (X (Min r) <? X (Min s)) with false by (symmetry; apply Z.ltb_ge; lia).
  replace (Y (Min r) <? Y (Min s)) with false by (symmetry; apply Z.ltb_ge; lia).
  replace (X (Max r) >? X (Max s)) with false by (symmetry; rewrite Z.gtb_ltb; apply Z.ltb_ge; lia).
  replace (Y (Max r) >? Y (Max s)) with false by (symmetry; rewrite Z.gtb_ltb; apply Z.ltb_ge; lia).
  destruct r as [ [ a b ] [ c d ] ]. cbn [Min Max X Y]. rewrite Hne. reflexivity.
Qed.

Lemma PointIn_Intersect x y r s :
  PointIn x y (Intersect r s) = true -> PointIn x y r = true /\ PointIn x y s = true.
Proof.
  unfold Intersect.
  match goal with |- PointIn _ _ (if Empty ?q then _ else _) = _ -> _ => destruct (Empty q) end.
  - intros H. apply PointIn_iff in H. cbn in H. lia.
  - rewrite !PointIn_iff. cbn.
    destruct (Z.ltb_spec (X (Min r)) (X (Min s))), (Z.ltb_spec (Y (Min r)) (Y (Min s)));
    destruct (X (Max r) >? X (Max s)) eqn:E1, (Y (Max r) >? Y (Max s)) eqn:E2;
    rewrite ?Z.gtb_ltb, ?Z.ltb_lt, ?Z.ltb_ge in *; lia.
Qed.

Lemma Overlaps_false_iff r s :
  Overlaps r s = false <-> forall x y, PointIn x y r = true -> PointIn x y s = true -> False.
Proof.
  split.
  - intros H x y Hr Hs. apply PointIn_iff in Hr, Hs.
    assert (Overlaps r s = true); [ | congruence ].
    unfold Overlaps.
    rewrite !andb_true_iff, !negb_true_iff, !Empty_false_iff, !Z.ltb_lt. lia.
  - intros H. destruct (Overlaps r s) eqn:E; [ exfalso | reflexivity ].
    unfold Overlaps in E.
    rewrite !andb_true_iff, !negb_true_iff, !Empty_false_iff, !Z.ltb_lt in E.
    apply (H (Z.max (X (Min r)) (X (Min s))) (Z.max (Y (Min r)) (Y (Min s))));
      apply PointIn_iff; lia.
Qed.

(** ** The loops of Draw *)

Lemma allFrom_spec test n : forall v,
  allFrom test v n = true <->
  forall i, v <= i < v + Z.of_nat n -> test i = true.
Proof.
  induction n as [ | n IH ]; intros v; cbn [allFrom].
  - split; [ intros _ i Hi; lia | reflexivity ].
  - rewrite andb_true_iff, IH. split.
    + intros (Hv & Hrest) i Hi.
      destruct (Z.eq_dec i v) as [ -> | ]; [ assumption | apply Hrest; lia ].
    + intros H. split; [ apply H; lia | intros i Hi; apply H; lia ].
Qed.

Lemma rectAll_spec r test :
  rectAll r test = true <-> forall x y, PointIn x y r = true -> test x y = true.
Proof.
  unfold rectAll. rewrite allFrom_spec. split.
  - intros H x y Hin. apply PointIn_iff in Hin.
    assert (Hy : Y (Min r) <= y < Y (Min r) + Z.of_nat (Z.to_nat (Dy r))) by (unfold Dy; lia).
    specialize (H y Hy). rewrite allFrom_spec in H. apply H. unfold Dx. lia.
  - intros H y Hy. apply allFrom_spec. intros x Hx. apply H. apply PointIn_iff.
    unfold Dx, Dy in *. lia.
Qed.

(** ** Draw *)

Section DrawFacts.
Variables (dst src : Paletted) (r : Rectangle) (sp : Point) (dst' : Paletted).
Hypothesis HDraw : Draw dst r src sp = Some dst'.

Lemma Draw_PRect : PRect dst' = PRect dst.
Proof.
  unfold Draw in HDraw. destruct (clip _ _ _ _) as [ r' sp' ].
  destruct (Empty r'); [ congruence | ].
  destruct (rectAll _ _); [ | discriminate ]. inv HDraw. reflexivity.
Qed.

Lemma Draw_Palette : Palette dst' = Palette dst.
Proof.
  unfold Draw in HDraw. destruct (clip _ _ _ _) as [ r' sp' ].
  destruct (Empty r'); [ congruence | ].
  destruct (rectAll _ _); [ | discriminate ]. inv HDraw. reflexivity.
Qed.

(** Outside the rectangle nothing changes. *)
Lemma Draw_outside x y : PointIn x y r = false -> Pix dst' x y = Pix dst x y.
Proof.
  intros Hout. unfold Draw, clip in HDraw.
  set (r' := Intersect (Intersect r (PRect dst)) _) in HDraw.
  destruct (Empty r'); [ congruence | ].
  destruct (rectAll _ _); [ | discriminate ]. inv HDraw. cbn [Pix].
  destruct (PointIn x y r') eqn:Hin; [ | reflexivity ].
  apply PointIn_Intersect in Hin. destruct Hin as (Hin & _).
  apply PointIn_Intersect in Hin. destruct Hin as (Hin & _). congruence.
Qed.

(** Where nothing is clipped away, every pixel of the rectangle is the
    result of [drawPixel]. *)
Lemma Draw_inside x y :
  Empty r = false ->
  X (Min (PRect dst)) <= X (Min r) -> Y (Min (PRect dst)) <= Y (Min r) ->
  X (Max r) <= X (Max (PRect dst)) -> Y (Max r) <= Y (Max (PRect dst)) ->
  X (Min (PRect src)) <= X sp -> Y (Min (PRect src)) <= Y sp ->
  X sp + Dx r <= X (Max (PRect src)) -> Y sp + Dy r <= Y (Max (PRect src)) ->
  PointIn x y r = true ->
  drawPixel dst src x y (X sp + x - X (Min r)) (Y sp + y - Y (Min r)) =
  Some (Pix dst' x y).
Proof.
  intros Hne H1 H2 H3 H4 H5 H6 H7 H8 Hin.
  unfold Draw, clip in HDraw.
  rewrite (Intersect_inside r (PRect dst)) in HDraw by assumption.
  rewrite Intersect_inside in HDraw
    by (try assumption; unfold Dx, Dy in *; cbn; lia).
  replace (X sp + (X (Min r) - X (Min r))) with (X sp) in HDraw by lia.
  replace (Y sp + (Y (Min r) - Y (Min r))) with (Y sp) in HDraw by lia.
  rewrite Hne in HDraw.
  destruct (rectAll _ _) eqn:Hall; [ | discriminate ].
  rewrite rectAll_spec in Hall. specialize (Hall x y Hin).
  inv HDraw. cbn [Pix X Y]. rewrite Hin.
  destruct (drawPixel _ _ _ _ _ _); [ reflexivity | discriminate ].
Qed.

End DrawFacts.

Lemma Draw_Empty dst src r sp : Empty r = true -> Draw dst r src sp = Some dst.
Proof.
  intros He. unfold Draw, clip. rewrite (Intersect_Empty_l r) by assumption.
  rewrite Intersect_Empty_l by reflexivity. reflexivity.
Qed.

(** ** Palette.Index and the pixels Draw stores *)

Lemma uint8_cases (Q : Z -> Prop) :
  (forall n, (n < 256)%nat -> Q (Z.of_nat n)) -> forall v, isUint8 v = true -> Q v.
Proof.
  intros H v Hv. unfold isUint8 in Hv.
  apply andb_true_iff in Hv. destruct Hv as (H0 & H1).
  apply Z.leb_le in H0. apply Z.ltb_lt in H1.
  rewrite <- (Z2Nat.id v) by assumption. apply H. lia.
Qed.

Lemma widen_spec v : isUint8 v = true -> widen v = 257 * v.
Proof.
  revert v. apply uint8_cases. intros n Hn.
  assert (Hall : forallb (fun k => widen (Z.of_nat k) =? 257 * Z.of_nat k) (seq 0 256) = true)
    by (vm_compute; reflexivity).
  rewrite forallb_forall in Hall. apply Z.eqb_eq. apply Hall. apply in_seq. lia.
Qed.

Lemma sqDiff_bound x y : 0 <= sqDiff x y < 1073741824.
Proof.
  unfold sqDiff, uint32. rewrite Z.shiftr_div_pow2 by lia. change (2 ^ 2) with 4.
  set (d := (x - y) mod 4294967296).
  pose proof (Z.mod_pos_bound (d * d) 4294967296).
  Z.div_mod_to_equations. lia.
Qed.

Lemma sqDiff_self x : sqDiff x x = 0.
Proof. unfold sqDiff. rewrite Z.sub_diag. reflexivity. Qed.

Lemma colorDist_self q : colorDist q q = 0.
Proof.
  destruct q as [ [ [ r g ] b ] a ]. unfold colorDist. rewrite !sqDiff_self. reflexivity.
Qed.

Lemma colorDist_nonneg c v : 0 <= colorDist c v.
Proof.
  destruct c as [ [ [ cr cg ] cb ] ca ], v as [ [ [ vr vg ] vb ] va ].
  unfold colorDist, uint32. apply Z.mod_pos_bound. lia.
Qed.

Lemma colorDist_zero_alpha cr cg cb ca vr vg vb va :
  colorDist (cr, cg, cb, ca) (vr, vg, vb, va) = 0 -> sqDiff ca va = 0.
Proof.
  unfold colorDist, uint32.
  pose proof (sqDiff_bound cr vr). pose proof (sqDiff_bound cg vg).
  pose proof (sqDiff_bound cb vb). pose proof (sqDiff_bound ca va).
  intros Hz. rewrite Z.mod_small in Hz by lia. lia.
Qed.

(** [Palette.Index] returns the first entry at distance 0, when there is one. *)
Lemma IndexFrom_exact c p : forall i ret best,
  0 < best ->
  Exists (fun v => colorDist c (Color_RGBA v) = 0) p ->
  exists n v, nth_error p n = Some v /\ colorDist c (Color_RGBA v) = 0 /\
              IndexFrom p c i ret best = i + Z.of_nat n.
Proof.
  induction p as [ | v p IH ]; intros i ret best Hbest Hex; [ inversion Hex | ].
  cbn [IndexFrom].
  pose proof (colorDist_nonneg c (Color_RGBA v)) as Hnn.
  destruct (Z.eqb_spec (colorDist c (Color_RGBA v)) 0) as [ Hz | Hnz ].
  - rewrite Hz. replace (0 <? best) with true by (symmetry; apply Z.ltb_lt; lia).
    exists 0%nat, v. cbn. repeat split; [ assumption | lia ].
  - assert (Hex' : Exists (fun v => colorDist c (Color_RGBA v) = 0) p)
      by (inversion Hex; subst; [ contradiction | assumption ]).
    destruct (colorDist c (Color_RGBA v) <? best).
    + destruct (IH (i + 1) i (colorDist c (Color_RGBA v))) as (n & w & Hn & Hw & E);
        [ lia | assumption | ].
      exists (S n), w. cbn [nth_error]. repeat split; try assumption. rewrite E. lia.
    + destruct (IH (i + 1) ret best) as (n & w & Hn & Hw & E);
        [ lia | assumption | ].
      exists (S n), w. cbn [nth_error]. repeat split; try assumption. rewrite E. lia.
Qed.

Lemma binaryAlpha_inv c :
  binaryAlpha c = true ->
  exists r g b a, c = RGBA r g b a /\ isUint8 r = true /\ isUint8 g = true /\
                  isUint8 b = true /\ (a = 0 \/ a = 255).
Proof.
  destruct c as [ r g b a | | ]; try discriminate. cbn.
  rewrite !andb_true_iff, orb_true_iff, !Z.eqb_eq. intros (((? & ?) & ?) & ?).
  exists r, g, b, a. auto.
Qed.

Lemma spritePalette_nth P n c :
  spritePalette P -> nth_error P n = Some c -> binaryAlpha c = true.
Proof.
  intros (H & _) Hn. rewrite forallb_forall in H. apply H.
  eapply nth_error_In; eassumption.
Qed.

Lemma uint16_widen v : isUint8 v = true -> uint16 (widen v) = widen v.
Proof.
  intros H. rewrite widen_spec by assumption. unfold uint16.
  apply Z.mod_small. unfold isUint8 in H. apply andb_true_iff in H.
  rewrite Z.leb_le, Z.ltb_lt in H. lia.
Qed.

Lemma Paletted_At_inside p x y c :
  PointIn x y (PRect p) = true -> Paletted_At p x y = Some c ->
  nth_error (Palette p) (Z.to_nat (Pix p x y)) = Some c.
Proof.
  intros Hin H. unfold Paletted_At in H. rewrite Hin in H.
  destruct (Palette p); [ discriminate | assumption ].
Qed.

Lemma Paletted_At_nth p x y c :
  PointIn x y (PRect p) = true ->
  nth_error (Palette p) (Z.to_nat (Pix p x y)) = Some c ->
  Paletted_At p x y = Some c.
Proof.
  intros Hin H. unfold Paletted_At. rewrite Hin.
  destruct (Palette p) eqn:E; [ | assumption ].
  destruct (Z.to_nat (Pix p x y)); discriminate.
Qed.

Lemma Paletted_RGBA64At_inside p x y c :
  PointIn x y (PRect p) = true ->
  nth_error (Palette p) (Z.to_nat (Pix p x y)) = Some c ->
  Paletted_RGBA64At p x y =
  (let '(r, g, b, a) := Color_RGBA c in Some (uint16 r, uint16 g, uint16 b, uint16 a)).
Proof.
  intros Hin H. unfold Paletted_RGBA64At. rewrite Hin, H.
  destruct (Palette p) eqn:E; [ | reflexivity ].
  destruct (Z.to_nat (Pix p x y)); discriminate.
Qed.

(** An opaque pixel of the source leaves an opaque pixel in the canvas. *)
Lemma drawPixel_opaque P dst src x y sx sy i :
  spritePalette P -> Palette dst = P -> Palette src = P ->
  PointIn sx sy (PRect src) = true ->
  opaque (asImage src) sx sy = Some true ->
  drawPixel dst src x y sx sy = Some i ->
  exists v, nth_error P (Z.to_nat i) = Some v /\ alphaOf v <> 0.
Proof.
  intros HP Hd Hs Hin Hop Hdraw.
  unfold opaque in Hop. cbn [At asImage] in Hop.
  destruct (Paletted_At src sx sy) as [ c | ] eqn:Hc; [ | discriminate ].
  apply Paletted_At_inside in Hc; [ | assumption ].
  unfold drawPixel in Hdraw.
  rewrite (Paletted_RGBA64At_inside _ _ _ _ Hin Hc) in Hdraw.
  rewrite Hs in Hc.
  destruct (binaryAlpha_inv c (spritePalette_nth _ _ _ HP Hc))
    as (r & g & b & a & -> & Hr & Hg & Hb & Ha).
  assert (a = 255) as ->.
  { destruct Ha as [ -> | -> ]; [ | reflexivity ]. cbn in Hop. discriminate. }
  cbn [Color_RGBA] in Hdraw.
  rewrite !uint16_widen in Hdraw by (assumption || reflexivity).
  destruct (Paletted_RGBA64At dst x y) as [ [ [ [ dr dg ] db ] da ] | ]; [ | discriminate ].
  change (widen 255) with 65535 in Hdraw. change (65535 - 65535) with 0 in Hdraw.
  rewrite !Z.mul_0_r in Hdraw. change (uint16 (0 / 65535)) with 0 in Hdraw.
  cbn [Z.add] in Hdraw.
  rewrite !uint16_widen in Hdraw by assumption.
  change (uint16 65535) with 65535 in Hdraw.
  injection Hdraw as <-. rewrite Hd.
  destruct (IndexFrom_exact (widen r, widen g, widen b, 65535) P 0 0 (4294967296 - 1))
    as (n & v & Hn & Hv & E).
  { lia. }
  { apply Exists_exists. exists (RGBA r g b 255). split.
    - eapply nth_error_In; eassumption.
    - apply colorDist_self. }
  unfold Palette_Index. rewrite E.
  assert (Hlen : (n < List.length P)%nat) by (apply nth_error_Some; congruence).
  destruct HP as (HP1 & HP2).
  unfold uint8. rewrite Z.mod_small by lia.
  replace (Z.to_nat (0 + Z.of_nat n)) with n by lia.
  exists v. split; [ assumption | ].
  assert (Hbin : binaryAlpha v = true)
    by (rewrite forallb_forall in HP1; apply HP1; eapply nth_error_In; eassumption).
  destruct (binaryAlpha_inv v Hbin) as (r' & g' & b' & a' & -> & _ & _ & _ & Ha').
  cbn [Color_RGBA] in Hv. apply colorDist_zero_alpha in Hv.
  destruct Ha' as [ -> | -> ]; [ vm_compute in Hv; discriminate | ].
  vm_compute. discriminate.
Qed.

(** ** The packing loop *)

Lemma composeFrames_app st fs gs :
  composeFrames st (fs ++ gs) = (st' <- composeFrames st fs ;; composeFrames st' gs).
Proof.
  revert st. induction fs as [ | f fs IH ]; intros st; cbn [composeFrames app].
  - reflexivity.
  - destruct (composeFrame st f); [ apply IH | reflexivity ].
Qed.

Lemma composeAnims_flat anims : forall st,
  composeAnims st anims = composeFrames st (allFrames anims).
Proof.
  induction anims as [ | a anims IH ]; intros st; cbn [composeAnims allFrames flat_map].
  - reflexivity.
  - rewrite composeFrames_app. destruct (composeFrames st (Frames a)); [ apply IH | reflexivity ].
Qed.

Lemma composeFrame_inv st f st' :
  composeFrame st f = Some st' ->
  let img := MakeImage f in
  let canvas := setPalette (spriteImg st) (Palette img) in
  exists trim l t canvas',
    FindBbox (asImage img) = Some trim /\
    wrapCursor st canvas (Dx trim) = Some (l, t) /\
    Draw canvas (placement l t trim) img (Min trim) = Some canvas' /\
    st' = mkComposer (l + Dx trim + 1) t
            (infos st ++
             [mkFrameInfo (placement l t trim)
                (mkPoint (Z.quot (Dx (PRect img)) 2 - X (Min trim))
                         (Z.quot (Dy (PRect img)) 2 - Y (Min trim)))
                (FrameDelay f) (FrameAction f)])
            (FramePalette f) canvas'.
Proof.
  unfold composeFrame. intros H.
  destruct (FindBbox (asImage (MakeImage f))) as [ trim | ]; [ | discriminate ].
  destruct (wrapCursor _ _ _) as [ [ l t ] | ] eqn:Ew; [ | discriminate ].
  destruct (Draw _ _ _ _) as [ canvas' | ] eqn:Ed; [ | discriminate ].
  exists trim, l, t, canvas'. injection H as <-. auto.
Qed.

Lemma wrapCursor_inv st canvas w l t :
  wrapCursor st canvas w = Some (l, t) ->
  (left st + w <= Dx (PRect canvas) /\ l = left st /\ t = top st) \/
  (left st + w > Dx (PRect canvas) /\ l = 0 /\
   exists cb, FindBbox (asImage canvas) = Some cb /\ t = Y (Max cb) + 1).
Proof.
  unfold wrapCursor. rewrite Z.gtb_ltb.
  destruct (Z.ltb_spec (Dx (PRect canvas)) (left st + w)) as [ Hlt | Hge ]; intros Hw.
  - right. destruct (FindBbox (asImage canvas)) as [ cb | ]; [ | discriminate ].
    inv Hw. split; [ lia | ]. split; [ reflexivity | ]. exists cb. auto.
  - left. inv Hw. repeat split. lia.
Qed.

Lemma FindBbox_Dx_nonneg img r : FindBbox img = Some r -> 0 <= Dx r /\ 0 <= Dy r.
Proof.
  intros H. destruct (FindBbox_scans _ _ H) as (l & t & r0 & b0 & _ & _ & _ & _ & ->).
  destruct ((r0 + 1 <? l) || (b0 + 1 <? t)) eqn:E.
  - cbn. lia.
  - apply orb_false_iff in E. rewrite !Z.ltb_ge in E. unfold Dx, Dy. cbn. lia.
Qed.

Lemma composeFrames_infos fs : forall st st',
  composeFrames st fs = Some st' ->
  exists more, infos st' = infos st ++ more /\ Forall2 trimmedSize fs more.
Proof.
  induction fs as [ | f fs IH ]; intros st st' H; cbn [composeFrames] in H.
  - inv H. exists []. rewrite app_nil_r. split; [ reflexivity | constructor ].
  - destruct (composeFrame st f) as [ st1 | ] eqn:E1; [ | discriminate ].
    destruct (IH _ _ H) as (more & Hmore & Hsz).
    destruct (composeFrame_inv _ _ _ E1) as (trim & l & t & c' & Hb & _ & _ & ->).
    cbn [infos] in Hmore. rewrite <- app_assoc in Hmore.
    eexists. split; [ exact Hmore | ]. constructor; [ | assumption ].
    exists trim. split; [ assumption | ]. cbn [BBox]. unfold placement, Dx, Dy. cbn. lia.
Qed.

Lemma Paletted_At_ext p q x y :
  PRect p = PRect q -> Palette p = Palette q -> Pix p x y = Pix q x y ->
  Paletted_At p x y = Paletted_At q x y.
Proof. intros H1 H2 H3. unfold Paletted_At. rewrite H1, H2, H3. reflexivity. Qed.

Lemma Overlaps_sym r s : Overlaps r s = Overlaps s r.
Proof.
  unfold Overlaps.
  destruct (Empty r), (Empty s), (X (Min r) <? X (Max s)), (X (Min s) <? X (Max r)),
    (Y (Min r) <? Y (Max s)), (Y (Min s) <? Y (Max r)); reflexivity.
Qed.

Lemma placement_Empty l t trim :
  Empty (placement l t trim) = Empty trim.
Proof.
  unfold Empty, placement, Dx, Dy. cbn.
  rewrite !Z.geb_leb.
  destruct (Z.leb_spec (l + (X (Max trim) - X (Min trim))) l),
           (Z.leb_spec (X (Max trim)) (X (Min trim))); try lia;
  destruct (Z.leb_spec (t + (Y (Max trim) - Y (Min trim))) t),
           (Z.leb_spec (Y (Max trim)) (Y (Min trim))); try lia; reflexivity.
Qed.

Section Packing.

(** The palette the frames share. *)
Variable P : list Color.
Hypothesis HP : spritePalette P.

Lemma PackInv_init : PackInv P initComposer.
Proof.
  split; cbn.
  - reflexivity.
  - intros n m a b _ Ha. destruct n; discriminate.
  - intros i [].
  - intros i [].
Qed.

Lemma PackInv_step st f st' :
  PackInv P st ->
  composeFrame st f = Some st' ->
  Palette (MakeImage f) = P ->
  Forall (fun i => onCanvas (BBox i)) (infos st') ->
  PackInv P st'.
Proof.
  intros [ Hrect Hdis Hrows Hink ] Hc HPf Hfit.
  destruct (composeFrame_inv _ _ _ Hc) as (trim & l & t & canvas' & Hb & Hw & Hd & ->).
  rewrite HPf in Hw, Hd. cbn [infos left top spriteImg] in *.
  set (canvas := setPalette (spriteImg st) P) in *.
  set (bbox := placement l t trim) in *.
  set (new := mkFrameInfo bbox _ _ _) in *.
  pose proof (FindBbox_Dx_nonneg _ _ Hb) as (HDx & HDy).
  (* the rows above the cursor *)
  assert (Hrows' : forall i, In i (infos st) -> Empty (BBox i) = false ->
            X (Max (BBox i)) < l \/ Y (Max (BBox i)) < t).
  { intros i Hi Hne. destruct (wrapCursor_inv _ _ _ _ _ Hw)
      as [ (_ & -> & ->) | (_ & -> & cb & Hcb & ->) ].
    - auto.
    - right. destruct (Hink i Hi Hne) as (x & Hx & Hcan & Hop).
      assert (Hcov : PointIn x (Y (Max (BBox i)) - 1) cb = true).
      { apply (FindBbox_covers (asImage canvas) cb); [ assumption | ].
        split; [ | exact Hop ]. cbn [Bounds asImage]. unfold canvas. cbn [PRect setPalette].
        rewrite Hrect. assumption. }
      apply PointIn_iff in Hcov. lia. }
  assert (Hnew : forall i, In i (infos st) -> Overlaps (BBox i) bbox = false).
  { intros i Hi. destruct (Empty (BBox i)) eqn:Hne; [ unfold Overlaps; rewrite Hne; reflexivity | ].
    apply Overlaps_false_iff. intros x y H1 H2. apply PointIn_iff in H1, H2.
    unfold bbox, placement in H2. cbn in H2.
    destruct (Hrows' i Hi Hne); lia. }
  split; cbn [infos left top spriteImg].
  - rewrite (Draw_PRect _ _ _ _ _ Hd). exact Hrect.
  - intros n m a b Hnm Ha Hb'.
    destruct (Nat.lt_ge_cases n (List.length (infos st))) as [ Hn | Hn ];
    destruct (Nat.lt_ge_cases m (List.length (infos st))) as [ Hm | Hm ].
    + rewrite nth_error_app1 in Ha, Hb' by assumption. eapply Hdis; eassumption.
    + rewrite nth_error_app1 in Ha by assumption. rewrite nth_error_app2 in Hb' by assumption.
      destruct (m - List.length (infos st))%nat as [ | k ]; [ | destruct k; discriminate ].
      inv Hb'. apply Hnew. eapply nth_error_In; eassumption.
    + rewrite nth_error_app1 in Hb' by assumption. rewrite nth_error_app2 in Ha by assumption.
      destruct (n - List.length (infos st))%nat as [ | k ]; [ | destruct k; discriminate ].
      inv Ha. rewrite Overlaps_sym. apply Hnew. eapply nth_error_In; eassumption.
    + rewrite nth_error_app2 in Ha, Hb' by assumption.
      destruct (n - List.length (infos st))%nat as [ | k ] eqn:En; [ | destruct k; discriminate ].
      destruct (m - List.length (infos st))%nat as [ | k ] eqn:Em; [ | destruct k; discriminate ].
      lia.
  - intros i Hi Hne. apply in_app_or in Hi. destruct Hi as [ Hi | [ <- | [] ] ].
    + destruct (Hrows' i Hi Hne); [ left; lia | right; assumption ].
    + left. unfold new, bbox, placement. cbn. lia.
  - assert (Hkeep : forall x y, PointIn x y bbox = false ->
              inked P st x y -> inked P (mkComposer (l + Dx trim + 1) t
                 (infos st ++ [new]) (FramePalette f) canvas') x y).
    { intros x y Hout (Hin & Hop). split; [ assumption | ].
      unfold opaque in *. cbn [At asImage spriteImg] in *.
      rewrite (Paletted_At_ext _ canvas); [ exact Hop | | | ].
      - cbn [PRect setPalette]. rewrite (Draw_PRect _ _ _ _ _ Hd). reflexivity.
      - reflexivity.
      - cbn [Pix setPalette]. rewrite (Draw_outside _ _ _ _ _ Hd) by assumption.
        reflexivity. }
    intros i Hi Hne. apply in_app_or in Hi. destruct Hi as [ Hi | [ <- | [] ] ].
    + destruct (Hink i Hi Hne) as (x & Hx & Hinked). exists x. split; [ assumption | ].
      apply Hkeep; [ | assumption ].
      destruct (PointIn x (Y (Max (BBox i)) - 1) bbox) eqn:E; [ exfalso | reflexivity ].
      pose proof (Hnew i Hi) as Hov. rewrite Overlaps_false_iff in Hov. eauto.
    + cbn [BBox new] in *.
      assert (Hnt : Empty trim = false) by (rewrite <- (placement_Empty l t); exact Hne).
      destruct (FindBbox_edges _ _ Hb Hnt) as (Hsub & _ & _ & _ & (x & Hx)).
      pose proof (FindBbox_covers _ _ _ _ Hb Hx) as Hcov. apply PointIn_iff in Hcov.
      cbn [Bounds asImage] in Hsub.
      rewrite Forall_forall in Hfit.
      assert (Hon : onCanvas bbox) by (apply (Hfit new); apply in_or_app; right; left; reflexivity).
      specialize (Hon Hne).
      set (cx := l + (x - X (Min trim))). set (cy := Y (Max bbox) - 1).
      assert (Hcin : PointIn cx cy bbox = true).
      { apply PointIn_iff. unfold cx, cy, bbox, placement, Dx, Dy. cbn. lia. }
      exists cx. split; [ exact Hcin | ].
      assert (Hcc : PointIn cx cy canvasRect = true).
      { apply PointIn_iff. apply PointIn_iff in Hcin. lia. }
      split; [ exact Hcc | ].
      pose proof (Draw_inside _ _ _ _ _ Hd cx cy Hne) as Hpix.
      unfold canvas in Hpix at 1 2 3 4. cbn [PRect setPalette] in Hpix. rewrite Hrect in Hpix.
      assert (HDxb : Dx bbox = Dx trim) by (unfold bbox, placement, Dx; cbn; lia).
      assert (HDyb : Dy bbox = Dy trim) by (unfold bbox, placement, Dy; cbn; lia).
      rewrite HDxb, HDyb in Hpix.
      specialize (Hpix ltac:(lia) ltac:(lia) ltac:(lia) ltac:(lia)
                       ltac:(lia) ltac:(lia) ltac:(unfold Dx; lia) ltac:(unfold Dy; lia) Hcin).
      replace (X (Min trim) + cx - X (Min bbox)) with x in Hpix
        by (unfold cx, bbox, placement; cbn; lia).
      replace (Y (Min trim) + cy - Y (Min bbox)) with (Y (Max trim) - 1) in Hpix
        by (unfold cy, bbox, placement, Dy; cbn; lia).
      destruct Hx as (Hxin & Hxop).
      destruct (drawPixel_opaque P canvas (MakeImage f) cx cy x (Y (Max trim) - 1) _
                  HP eq_refl HPf Hxin Hxop Hpix) as (v & Hv & Hva).
      unfold opaque. cbn [At asImage spriteImg].
      rewrite (Paletted_At_nth _ _ _ v).
      * destruct (Z.eqb_spec (alphaOf v) 0); [ contradiction | reflexivity ].
      * cbn [PRect setPalette]. rewrite (Draw_PRect _ _ _ _ _ Hd).
        unfold canvas. cbn [PRect setPalette]. rewrite Hrect. exact Hcc.
      * cbn [Palette Pix setPalette]. exact Hv.
Qed.

Lemma PackInv_frames fs : forall st st',
  PackInv P st ->
  composeFrames st fs = Some st' ->
  Forall (fun f => Palette (MakeImage f) = P) fs ->
  Forall (fun i => onCanvas (BBox i)) (infos st') ->
  PackInv P st'.
Proof.
  induction fs as [ | f fs IH ]; intros st st' Hinv H HPs Hfit; cbn [composeFrames] in H.
  - inv H. assumption.
  - destruct (composeFrame st f) as [ st1 | ] eqn:E1; [ | discriminate ].
    apply Forall_cons_iff in HPs. destruct HPs as (HPf & HPs).
    apply (IH st1 st'); try assumption.
    apply (PackInv_step st f); try assumption.
    destruct (composeFrames_infos _ _ _ H) as (more & Hmore & _).
    rewrite Hmore in Hfit. apply Forall_app in Hfit. tauto.
Qed.

End Packing.

(** Claim C2, amended.  Each FrameInfo's BBox has the width and height of
    the trimmed box of its frame; and when the frames share one palette of
    [color.RGBA] entries that are fully transparent or fully opaque, and
    every placement rectangle that is not empty lies on the canvas, no two
    placement rectangles overlap. *)
Theorem placements_do_not_overlap (anims : list Animation) (st : Composer) :
  compose anims = Some st ->
  Forall2 trimmedSize (allFrames anims) (infos st) /\
  forall P,
    spritePalette P ->
    Forall (fun f => Palette (MakeImage f) = P) (allFrames anims) ->
    Forall (fun i => onCanvas (BBox i)) (infos st) ->
    noOverlap (infos st).
Proof.
  unfold compose. rewrite composeAnims_flat. intros Hc. split.
  - destruct (composeFrames_infos _ _ _ Hc) as (more & Hmore & Hsz).
    cbn in Hmore. rewrite Hmore. exact Hsz.
  - intros P HP HPs Hfit. apply (inv_disjoint P st).
    apply (PackInv_frames P HP (allFrames anims) initComposer); try assumption.
    apply PackInv_init.
Qed.

(** ** Small frames fit the control table *)

(** The box lies within the bounds, or is the zero rectangle. *)
Lemma FindBbox_within img r :
  FindBbox img = Some r ->
  X (Min (Bounds img)) <= X (Max (Bounds img)) ->
  Y (Min (Bounds img)) <= Y (Max (Bounds img)) ->
  r = ZR \/
  (X (Min (Bounds img)) <= X (Min r) <= X (Max r) /\ X (Max r) <= X (Max (Bounds img)) /\
   Y (Min (Bounds img)) <= Y (Min r) <= Y (Max r) /\ Y (Max r) <= Y (Max (Bounds img))).
Proof.
  intros H Hx Hy.
  destruct (FindBbox_scans _ _ H) as (l & t & r0 & b0 & Hl & Ht & Hr & Hb & ->).
  apply scanUp_inv in Hl. apply scanUp_inv in Ht.
  apply scanDown_inv in Hr. apply scanDown_inv in Hb.
  destruct Hl as (Hl & _), Ht as (Ht & _), Hr as (Hr & _), Hb as (Hb & _).
  unfold Dx, Dy in *.
  destruct ((r0 + 1 <? l) || (b0 + 1 <? t)) eqn:E; [ left; reflexivity | right ].
  apply orb_false_iff in E. rewrite !Z.ltb_ge in E. cbn. lia.
Qed.

Lemma cursorInv_step st f st' :
  cursorInv st -> smallFrame f -> composeFrame st f = Some st' ->
  cursorInv st' /\ exists i, infos st' = infos st ++ [i] /\ infoFits i.
Proof.
  intros (Hl & Ht & Hrect) (Hx1 & Hx2 & Hy1 & Hy2 & Hd & Ha) Hc.
  destruct (composeFrame_inv _ _ _ Hc) as (trim & l & t & canvas' & Hb & Hw & Hdr & ->).
  set (b := PRect (MakeImage f)) in *.
  assert (Htrim : 0 <= Dx trim <= 16384 /\ 0 <= Dy trim <= 16384 /\
                  -8192 <= X (Min trim) <= 8192 /\ -8192 <= Y (Min trim) <= 8192).
  { destruct (FindBbox_within _ _ Hb) as [ -> | Hin ];
      cbn [Bounds asImage]; fold b; try lia.
    - cbn. lia.
    - cbn [Bounds asImage] in Hin. fold b in Hin. unfold Dx, Dy. lia. }
  assert (Hlt : 0 <= l <= 1024 /\ 0 <= t <= 1025).
  { destruct (wrapCursor_inv _ _ _ _ _ Hw) as [ (Hno & -> & ->) | (_ & -> & cb & Hcb & ->) ].
    - cbn [PRect setPalette] in Hno. rewrite Hrect in Hno. cbn in Hno. lia.
    - destruct (FindBbox_within _ _ Hcb) as [ -> | Hin ];
        cbn [Bounds asImage PRect setPalette]; rewrite ?Hrect; cbn; try lia.
      cbn [Bounds asImage PRect setPalette] in Hin. rewrite Hrect in Hin. cbn in Hin. lia. }
  split.
  - unfold cursorInv. cbn [left top spriteImg].
    rewrite (Draw_PRect _ _ _ _ _ Hdr). cbn [PRect setPalette]. repeat split; try lia.
    exact Hrect.
  - eexists. split; [ reflexivity | ].
    assert (Hqx : 0 <= Z.quot (Dx b) 2 <= 8192).
    { unfold Dx. rewrite Z.quot_div_nonneg by lia. Z.div_mod_to_equations. lia. }
    assert (Hqy : 0 <= Z.quot (Dy b) 2 <= 8192).
    { unfold Dy. rewrite Z.quot_div_nonneg by lia. Z.div_mod_to_equations. lia. }
    unfold infoFits, fitsInt16, placement. cbn. repeat split; try lia; apply Hd || apply Ha.
Qed.

Lemma cursorInv_frames fs : forall st st',
  cursorInv st -> Forall smallFrame fs -> composeFrames st fs = Some st' ->
  cursorInv st' /\ exists more, infos st' = infos st ++ more /\ Forall infoFits more.
Proof.
  induction fs as [ | f fs IH ]; intros st st' Hinv Hs H; cbn [composeFrames] in H.
  - inv H. split; [ assumption | ]. exists []. rewrite app_nil_r. auto.
  - destruct (composeFrame st f) as [ st1 | ] eqn:E1; [ | discriminate ].
    apply Forall_cons_iff in Hs. destruct Hs as (Hf & Hs).
    destruct (cursorInv_step _ _ _ Hinv Hf E1) as (Hinv1 & i & Hi & Hfit).
    destruct (IH _ _ Hinv1 Hs H) as (Hinv' & more & Hmore & Hfits).
    split; [ assumption | ]. exists (i :: more).
    rewrite Hmore, Hi, <- app_assoc. split; [ reflexivity | ]. constructor; assumption.
Qed.

(** The values of a composition of small frames fit the control table. *)
Lemma small_frames_fit anims st :
  compose anims = Some st -> Forall smallFrame (allFrames anims) ->
  Forall infoFits (infos st).
Proof.
  unfold compose. rewrite composeAnims_flat. intros Hc Hs.
  destruct (cursorInv_frames (allFrames anims) initComposer st) as (_ & more & Hmore & Hfit);
    try assumption.
  - repeat split; cbn; lia.
  - cbn in Hmore. rewrite Hmore. exact Hfit.
Qed.

(** ** Wrapping and the blank canvas *)

Lemma FindBbox_blank img r :
  FindBbox img = Some r ->
  (forall x y, ~ opaqueAt img x y) ->
  X (Min (Bounds img)) < X (Max (Bounds img)) ->
  r = ZR.
Proof.
  intros H Hblank Hdx.
  destruct (FindBbox_scans _ _ H) as (l & t & r0 & b0 & Hl & _ & Hr & _ & ->).
  apply scanUp_inv in Hl. apply scanDown_inv in Hr.
  destruct Hl as (Hl1 & _ & Hl3), Hr as (Hr1 & _ & Hr3). unfold Dx in *.
  assert (X (Max (Bounds img)) <= l).
  { destruct (Z_le_gt_dec (X (Max (Bounds img))) l); [ assumption | exfalso ].
    destruct (colOpaque_true img l) as (y & Hy & Ho); [ apply Hl3; lia | ].
    apply (Hblank l y). split; [ apply PointIn_iff; lia | assumption ]. }
  assert (r0 < X (Min (Bounds img))).
  { destruct (Z_lt_ge_dec r0 (X (Min (Bounds img)))); [ assumption | exfalso ].
    destruct (colOpaque_true img r0) as (y & Hy & Ho); [ apply Hr3; lia | ].
    apply (Hblank r0 y). split; [ apply PointIn_iff; lia | assumption ]. }
  replace (r0 + 1 <? l) with true by (symmetry; apply Z.ltb_lt; lia).
  reflexivity.
Qed.

Lemma FindBbox_bottom img r yb :
  FindBbox img = Some r -> bottomInk img yb -> Y (Max r) = yb + 1.
Proof.
  intros H ((x & Hx) & Hmax).
  pose proof (FindBbox_covers _ _ _ _ H Hx) as Hcov. apply PointIn_iff in Hcov.
  assert (Hne : Empty r = false) by (apply Empty_false_iff; lia).
  destruct (FindBbox_edges _ _ H Hne) as (_ & _ & _ & _ & (x' & Hx')).
  apply Hmax in Hx'. lia.
Qed.

(** Claim C4, amended.  When the cursor wraps, the frame is placed at left 0
    and top one past the lower edge of the box [FindBbox] returns for the
    canvas as drawn so far: two past the bottommost row with an opaque
    pixel, and 1 on a canvas without one. *)
Theorem wrap_resets_cursor (st st' : Composer) (f : Frame) (trim : Rectangle) :
  composeFrame st f = Some st' ->
  FindBbox (asImage (MakeImage f)) = Some trim ->
  left st + Dx trim > Dx (PRect (spriteImg st)) ->
  let canvas := asImage (setPalette (spriteImg st) (Palette (MakeImage f))) in
  exists cb,
    FindBbox canvas = Some cb /\
    left st' = 0 + Dx trim + 1 /\
    top st' = Y (Max cb) + 1 /\
    (exists i, infos st' = infos st ++ [i] /\ Min (BBox i) = mkPoint 0 (top st')) /\
    (forall yb, bottomInk canvas yb -> top st' = yb + 2) /\
    ((forall x y, ~ opaqueAt canvas x y) ->
     X (Min (Bounds canvas)) < X (Max (Bounds canvas)) -> top st' = 1).
Proof.
  intros Hc Hb Hwrap canvas.
  destruct (composeFrame_inv _ _ _ Hc) as (trim' & l & t & canvas' & Hb' & Hw & _ & ->).
  rewrite Hb in Hb'. injection Hb' as <-.
  destruct (wrapCursor_inv _ _ _ _ _ Hw) as [ (Hno & _) | (_ & -> & cb & Hcb & ->) ].
  - cbn [PRect setPalette] in Hno. lia.
  - exists cb. cbn [left top infos]. repeat split; try assumption.
    + eexists. split; reflexivity.
    + intros yb Hyb. rewrite (FindBbox_bottom _ _ _ Hcb Hyb). lia.
    + intros Hblank Hdx. rewrite (FindBbox_blank _ _ Hcb Hblank Hdx). reflexivity.
Qed.

Lemma SubImage_zero p bb :
  Dx bb = 0 \/ Dy bb = 0 -> PRect (SubImage p bb) = ZR.
Proof.
  intros H. unfold SubImage. rewrite Intersect_Empty_l; [ reflexivity | ].
  apply Empty_true_iff. unfold Dx, Dy in H. lia.
Qed.

Lemma composeFrames_rect fs : forall st st',
  composeFrames st fs = Some st' -> PRect (spriteImg st') = PRect (spriteImg st).
Proof.
  induction fs as [ | f fs IH ]; intros st st' H; cbn [composeFrames] in H.
  - inv H. reflexivity.
  - destruct (composeFrame st f) as [ st1 | ] eqn:E1; [ | discriminate ].
    rewrite (IH _ _ H).
    destruct (composeFrame_inv _ _ _ E1) as (trim & l & t & c' & _ & _ & Hd & ->).
    cbn [spriteImg]. rewrite (Draw_PRect _ _ _ _ _ Hd). reflexivity.
Qed.

Lemma compose_rect anims st :
  compose anims = Some st -> PRect (spriteImg st) = canvasRect.
Proof.
  unfold compose. rewrite composeAnims_flat. intros H.
  rewrite (composeFrames_rect _ _ _ H). reflexivity.
Qed.

Lemma zero_box_writes_no_file env idx anims st bb :
  compose anims = Some st ->
  FindBbox (asImage (spriteImg st)) = Some bb ->
  Dx bb = 0 \/ Dy bb = 0 ->
  processOne env idx anims = mkJobResult (Ok tt) None [].
Proof.
  intros Hc Hb Hz. unfold processOne. rewrite Hc, Hb.
  rewrite (SubImage_zero _ _ Hz). reflexivity.
Qed.

(** The canvases on which the code does skip: when every pixel of the
    composed canvas can be read and none is opaque, the box [FindBbox]
    returns for it has zero width and height, and [processOne] returns nil
    and creates no file. *)
Lemma blank_canvas_writes_no_file (env : Env) (idx : Z) (anims : list Animation)
    (st : Composer) :
  compose anims = Some st ->
  safe (asImage (spriteImg st)) ->
  (forall x y, ~ opaqueAt (asImage (spriteImg st)) x y) ->
  FindBbox (asImage (spriteImg st)) = Some ZR /\
  processOne env idx anims = mkJobResult (Ok tt) None [].
Proof.
  intros Hc Hsafe Hblank.
  destruct (FindBbox_total _ Hsafe) as (bb & Hb).
  assert (bb = ZR) as ->.
  { apply (FindBbox_blank _ _ Hb Hblank).
    cbn [Bounds asImage]. rewrite (compose_rect _ _ Hc). cbn. lia. }
  split; [ exact Hb | ].
  apply (zero_box_writes_no_file env idx anims st ZR Hc Hb). left. reflexivity.
Qed.

(** Claim C9, at the input on which the code departs from it.  A sprite
    set without frames leaves the canvas as [image.NewPaletted] made it,
    with a nil palette: no pixel of it is opaque, yet [FindBbox(spriteImg)]
    on line 133 panics on the nil colour [At] returns, and [processOne]
    panics instead of returning nil. *)
Theorem frameless_canvas_panics (env : Env) (idx : Z) (anims : list Animation) :
  allFrames anims = [] ->
  exists st,
    compose anims = Some st /\
    (forall x y, ~ opaqueAt (asImage (spriteImg st)) x y) /\
    FindBbox (asImage (spriteImg st)) = None /\
    processOne env idx anims = mkJobResult Panicked None [].
Proof.
  intros Hnil. exists initComposer.
  assert (Hc : compose anims = Some initComposer)
    by (unfold compose; rewrite composeAnims_flat, Hnil; reflexivity).
  assert (Hb : FindBbox (asImage (spriteImg initComposer)) = None)
    by (vm_compute; reflexivity).
  split; [ exact Hc | ]. split.
  - intros x y (_ & Hop). unfold opaque in Hop. cbn in Hop. discriminate Hop.
  - split; [ exact Hb | ]. unfold processOne. rewrite Hc, Hb. reflexivity.
Qed.

(** ** Frames with a single opaque pixel *)

Lemma Paletted_RGBA64At_total p x y :
  Paletted_At p x y <> None -> Paletted_RGBA64At p x y <> None.
Proof.
  unfold Paletted_At, Paletted_RGBA64At.
  destruct (Palette p) as [ | c0 pal ]; [ discriminate | ].
  destruct (if PointIn x y (PRect p) then _ else _) as [ c | ]; [ | congruence ].
  intros _. destruct (Color_RGBA c) as [ [ [ r g ] b ] a ]. discriminate.
Qed.

Lemma drawPixel_total dst src x y sx sy :
  Paletted_At src sx sy <> None -> Paletted_At dst x y <> None ->
  drawPixel dst src x y sx sy <> None.
Proof.
  intros Hs Hd. apply Paletted_RGBA64At_total in Hs, Hd. unfold drawPixel.
  destruct (Paletted_RGBA64At src sx sy) as [ [ [ [ sr sg ] sb ] sa ] | ]; [ | congruence ].
  destruct (Paletted_RGBA64At dst x y) as [ [ [ [ dr dg ] db ] da ] | ]; [ | congruence ].
  discriminate.
Qed.

Lemma Draw_total dst r src sp :
  Empty r = false ->
  X (Min (PRect dst)) <= X (Min r) -> Y (Min (PRect dst)) <= Y (Min r) ->
  X (Max r) <= X (Max (PRect dst)) -> Y (Max r) <= Y (Max (PRect dst)) ->
  X (Min (PRect src)) <= X sp -> Y (Min (PRect src)) <= Y sp ->
  X sp + Dx r <= X (Max (PRect src)) -> Y sp + Dy r <= Y (Max (PRect src)) ->
  (forall x y, PointIn x y r = true ->
     drawPixel dst src x y (X sp + x - X (Min r)) (Y sp + y - Y (Min r)) <> None) ->
  exists dst', Draw dst r src sp = Some dst'.
Proof.
  intros Hne H1 H2 H3 H4 H5 H6 H7 H8 Hpix.
  unfold Draw, clip.
  rewrite (Intersect_inside r (PRect dst)) by assumption.
  rewrite Intersect_inside by (try assumption; unfold Dx, Dy in *; cbn; lia).
  replace (X sp + (X (Min r) - X (Min r))) with (X sp) by lia.
  replace (Y sp + (Y (Min r) - Y (Min r))) with (Y sp) by lia.
  rewrite Hne. cbn [X Y].
  match goal with |- context [rectAll r ?t] => assert (Hall : rectAll r t = true) end.
  { apply rectAll_spec. intros x y Hin. specialize (Hpix x y Hin).
    destruct (drawPixel _ _ _ _ _ _); [ reflexivity | congruence ]. }
  rewrite Hall. eexists. reflexivity.
Qed.

(** The box of a raster with a single opaque pixel. *)
Lemma FindBbox_unit (img : Image) (x y : Z) :
  onePixel img x y ->
  FindBbox img = Some (mkRectangle (mkPoint x y) (mkPoint (x + 1) (y + 1))).
Proof.
  intros (Hin & Hone).
  assert (Hop : forall x' y', opaqueAt img x' y' -> x' = x /\ y' = y).
  { intros x' y' (Hin' & Ho). destruct (Hone _ _ Hin') as (c & Hc & Hiff).
    unfold opaque in Ho. rewrite Hc in Ho. apply Hiff.
    intros Ha. rewrite Ha in Ho. discriminate. }
  assert (Hxy : opaqueAt img x y).
  { split; [ assumption | ]. destruct (Hone _ _ Hin) as (c & Hc & Hiff).
    unfold opaque. rewrite Hc. destruct (Z.eqb_spec (alphaOf c) 0) as [ Ha | ]; [ | reflexivity ].
    exfalso. apply (proj2 Hiff); auto. }
  destruct (FindBbox_total img) as (r & Hr).
  { intros x' y' Hin'. destruct (Hone _ _ Hin') as (c & -> & _). discriminate. }
  rewrite Hr. f_equal.
  pose proof (FindBbox_covers _ _ _ _ Hr Hxy) as Hcov.
  assert (Hne : Empty r = false) by (apply Empty_false_iff; apply PointIn_iff in Hcov; lia).
  destruct (FindBbox_edges _ _ Hr Hne) as (_ & (y1 & H1) & (x2 & H2) & (y3 & H3) & (x4 & H4)).
  apply Hop in H1, H2, H3, H4.
  destruct r as [ [ l t ] [ rr bb ] ]. cbn in *.
  f_equal; f_equal; lia.
Qed.

(** Placing a frame with a single opaque pixel where no wrap is due. *)
Lemma composeFrame_unit st f x y :
  onePixel (asImage (MakeImage f)) x y ->
  PRect (spriteImg st) = canvasRect ->
  0 <= left st -> left st + 1 <= 1024 -> 0 <= top st < 1024 ->
  Paletted_At (setPalette (spriteImg st) (Palette (MakeImage f))) (left st) (top st) <> None ->
  exists canvas',
    composeFrame st f =
    Some (mkComposer (left st + 2) (top st)
            (infos st ++
             [mkFrameInfo
                (mkRectangle (mkPoint (left st) (top st))
                             (mkPoint (left st + 1) (top st + 1)))
                (mkPoint (Z.quot (Dx (PRect (MakeImage f))) 2 - x)
                         (Z.quot (Dy (PRect (MakeImage f))) 2 - y))
                (FrameDelay f) (FrameAction f)])
            (FramePalette f) canvas') /\
    PRect canvas' = canvasRect /\
    forall x' y', (x', y') <> (left st, top st) ->
                  Pix canvas' x' y' = Pix (spriteImg st) x' y'.
Proof.
  intros Hone Hrect Hl0 Hl1 Ht Hdst.
  pose proof (FindBbox_unit _ _ _ Hone) as Hb.
  destruct Hone as (Hin & Hone). cbn [Bounds asImage At] in Hin, Hone.
  apply PointIn_iff in Hin.
  set (bbox := mkRectangle (mkPoint (left st) (top st))
                           (mkPoint (left st + 1) (top st + 1))).
  set (canvas := setPalette (spriteImg st) (Palette (MakeImage f))) in *.
  assert (Hne : Empty bbox = false) by (apply Empty_false_iff; cbn; lia).
  destruct (Draw_total canvas bbox (MakeImage f) (mkPoint x y)) as (canvas' & Hd);
    try assumption;
    try (unfold canvas; cbn [PRect setPalette]; rewrite Hrect; cbn; lia);
    try (unfold Dx, Dy; cbn; lia).
  { intros x' y' Hin'. apply PointIn_iff in Hin'. cbn in Hin'.
    assert (x' = left st) as -> by lia. assert (y' = top st) as -> by lia.
    cbn [X Y Min bbox]. replace (x + left st - left st) with x by lia.
    replace (y + top st - top st) with y by lia.
    apply drawPixel_total; [ | assumption ].
    destruct (Hone x y) as (c & -> & _); [ apply PointIn_iff; lia | discriminate ]. }
  exists canvas'. split; [ | split ].
  - unfold composeFrame. rewrite Hb. cbn [Min Max X Y].
    unfold wrapCursor. fold canvas. unfold canvas at 1. cbn [PRect setPalette]. rewrite Hrect.
    replace (Dx (mkRectangle (mkPoint x y) (mkPoint (x + 1) (y + 1)))) with 1
      by (unfold Dx; cbn; lia).
    replace (Dy (mkRectangle (mkPoint x y) (mkPoint (x + 1) (y + 1)))) with 1
      by (unfold Dy; cbn; lia).
    replace (left st + 1 >? Dx canvasRect) with false
      by (symmetry; rewrite Z.gtb_ltb; apply Z.ltb_ge; cbn; lia).
    fold bbox. rewrite Hd. replace (left st + 1 + 1) with (left st + 2) by lia. reflexivity.
  - rewrite (Draw_PRect _ _ _ _ _ Hd). unfold canvas. cbn [PRect setPalette]. exact Hrect.
  - intros x' y' Hxy. rewrite (Draw_outside _ _ _ _ _ Hd); [ reflexivity | ].
    destruct (PointIn x' y' bbox) eqn:E; [ exfalso | reflexivity ].
    apply PointIn_iff in E. cbn in E. apply Hxy. f_equal; lia.
Qed.

Lemma onePixel_palette p x y : onePixel (asImage p) x y -> Palette p <> [].
Proof.
  intros (Hin & Hone). destruct (Hone x y Hin) as (c & Hc & _).
  cbn [At asImage] in Hc. unfold Paletted_At in Hc.
  destruct (Palette p); [ discriminate | discriminate ].
Qed.

(** Claim C6, amended.  One animation of two frames, each a 16 by 16 raster
    with exactly one opaque pixel, a palette of 2 entries, delay 5 and
    action 1, yields two FrameInfos with boxes of width and height 1 at
    (0,0)-(1,1) and (2,0)-(3,1), and a control table of 2 * 14 = 28 bytes
    after its 8-byte header. *)
Theorem end_to_end_example (f1 f2 : Frame) (x1 y1 x2 y2 : Z) :
  exampleFrame f1 x1 y1 -> exampleFrame f2 x2 y2 ->
  exists st,
    compose [mkAnimation [f1; f2]] = Some st /\
    infos st =
      [mkFrameInfo (Rect 0 0 1 1) (mkPoint (8 - x1) (8 - y1)) 5 1;
       mkFrameInfo (Rect 2 0 3 1) (mkPoint (8 - x2) (8 - y2)) 5 1] /\
    Forall (fun i => Dx (BBox i) = 1 /\ Dy (BBox i) = 1) (infos st) /\
    List.length (controlRecords (infos st)) = (2 * 14)%nat /\
    List.length (controlTable (infos st)) = (8 + 2 * 14)%nat.
Proof.
  intros (Hr1 & _ & Hd1 & Ha1 & Hp1) (Hr2 & _ & Hd2 & Ha2 & Hp2).
  destruct (composeFrame_unit initComposer f1 x1 y1 Hp1) as (c1 & Hc1 & Hrect1 & Hpix1);
    try (cbn; lia); try reflexivity.
  { cbn. unfold Paletted_At. cbn.
    pose proof (onePixel_palette _ _ _ Hp1). destruct (Palette (MakeImage f1)); [ congruence | discriminate ]. }
  set (st1 := mkComposer _ _ _ _ c1) in Hc1.
  destruct (composeFrame_unit st1 f2 x2 y2 Hp2) as (c2 & Hc2 & Hrect2 & Hpix2);
    try (cbn; lia); try assumption.
  { cbn [left top st1 initComposer]. unfold Paletted_At. cbn [Palette PRect Pix setPalette spriteImg st1].
    rewrite Hrect1. cbn [PointIn canvasRect]. rewrite Hpix1 by (cbn; congruence). cbn.
    pose proof (onePixel_palette _ _ _ Hp2). destruct (Palette (MakeImage f2)); [ congruence | discriminate ]. }
  eexists. split; [ | split; [ | split; [ | split ] ] ].
  - unfold compose. cbn [composeAnims composeFrames Frames]. rewrite Hc1, Hc2. reflexivity.
  - cbn [infos st1 initComposer left top app]. rewrite Hr1, Hr2, Hd1, Ha1, Hd2, Ha2. reflexivity.
  - cbn [infos st1 initComposer left top app]. repeat constructor.
  - reflexivity.
  - reflexivity.
Qed.

(** ** processOne *)

Lemma paletteDump_RGBA pal :
  Forall (fun c => isRGBA c = true) pal -> paletteDump pal = Some (paletteBytes pal).
Proof.
  intros H. unfold paletteDump, paletteBytes.
  assert (E : paletteEntries pal =
              Some (flat_map (fun c => match c with
                                       | RGBA r g b a => [r; g; b; a; 255; 255]
                                       | _ => []
                                       end) pal)).
  { induction H as [ | c l Hc _ IH ]; [ reflexivity | ].
    destruct c; try discriminate. cbn [paletteEntries paletteEntry flat_map].
    rewrite IH. reflexivity. }
  rewrite E. reflexivity.
Qed.

Lemma paletteDump_panics pal :
  Exists (fun c => isRGBA c = false) pal -> paletteDump pal = None.
Proof.
  intros H. unfold paletteDump. rewrite paletteEntries_None by assumption. reflexivity.
Qed.

Lemma processOne_loop env idx anims st subimg :
  reachesLoop env anims st subimg ->
  processOne env idx anims =
  (let '(r, out) :=
     (rewriteChunks (writeErr env) (fullPalette st) (infos st) (pngEncode env subimg) >>
      check (encodeErr env subimg)) [] in
   mkJobResult r (Some idx) out).
Proof.
  intros (Hc & Hcr & Hx & Hy & He & Hr & Hw). unfold processOne, cropped in *.
  rewrite Hc. destruct (FindBbox (asImage (spriteImg st))) as [ bb | ]; [ | discriminate ].
  injection Hcr as Hcr. rewrite Hcr.
  apply Z.eqb_neq in Hx, Hy. rewrite Hx, Hy, He, Hr, Hw. reflexivity.
Qed.

Lemma last_cons_default {A} (l : list A) : forall a d, last (a :: l) d = last l a.
Proof.
  induction l as [ | b l IH ]; intros a d; [ reflexivity | ].
  change (last (a :: b :: l) d) with (last (b :: l) d). rewrite !IH. reflexivity.
Qed.

Lemma composeFrames_fullPalette fs : forall st st',
  composeFrames st fs = Some st' ->
  fullPalette st' = last (map FramePalette fs) (fullPalette st).
Proof.
  induction fs as [ | f fs IH ]; intros st st' H; cbn [composeFrames] in H.
  - inv H. reflexivity.
  - destruct (composeFrame st f) as [ st1 | ] eqn:E1; [ | discriminate ].
    rewrite (IH _ _ H).
    destruct (composeFrame_inv _ _ _ E1) as (trim & l & t & c' & _ & _ & _ & ->).
    cbn [fullPalette map]. rewrite last_cons_default. reflexivity.
Qed.

(** Claim C1.  When no write and no close fails and the palette holds
    [color.RGBA] entries, the loop writes every chunk it reads, with the
    length, type and payload read and in the order read, and it writes the
    palette-dump chunk followed by the control-table chunk right after each
    chunk of type tRNS and nowhere else.  For a stream with one tRNS chunk
    the output is the chunks before it, the tRNS chunk, the two synthesized
    chunks, and the chunks after it. *)
Theorem chunks_pass_through (werr : nat -> option error) (pal : list Color)
    (infos : list FrameInfo) (cs : list ChunkReader) :
  (forall k, werr k = None) ->
  Forall (fun c => closeErr c = None) cs ->
  Forall (fun c => isRGBA c = true) pal ->
  rewriteChunks werr pal infos (map okRead cs) [] =
    (Ok tt, flat_map (rewritten (paletteBytes pal) infos) cs) /\
  forall pre t post,
    cs = pre ++ t :: post ->
    Forall (fun c => isTRNS c = false) pre -> isTRNS t = true ->
    Forall (fun c => isTRNS c = false) post ->
    flat_map (rewritten (paletteBytes pal) infos) cs =
    map chunkOf pre ++
    [chunkOf t; paletteChunk (paletteBytes pal); controlChunk infos] ++
    map chunkOf post.
Proof.
  intros Hw Hc Hp. split.
  - rewrite (rewriteChunks_ok werr pal infos (paletteBytes pal) cs [] Hw Hc
               (paletteDump_RGBA pal Hp)).
    reflexivity.
  - intros pre t post -> Hpre Ht Hpost.
    rewrite flat_map_app. cbn [flat_map]. unfold rewritten at 2. rewrite Ht.
    rewrite !flat_map_no_tRNS by assumption. reflexivity.
Qed.

Lemma read_error_dropped werr pal infos c e rest :
  isEOF e = false ->
  rewriteChunks werr pal infos (mkReadResult (Some c) (Some e) :: rest) =
  rewriteChunks werr pal infos (mkReadResult (Some c) None :: rest).
Proof. intros He. cbn [rewriteChunks rerr rchunk]. rewrite He. reflexivity. Qed.

Lemma read_error_nil_chunk werr pal infos e rest out :
  isEOF e = false ->
  rewriteChunks werr pal infos (mkReadResult None (Some e) :: rest) out = (Panicked, out).
Proof. intros He. cbn [rewriteChunks rerr rchunk]. rewrite He. reflexivity. Qed.

(** Claim C3, at the input on which the code departs from it.  A read error
    that is not end-of-stream is not returned: with the nil chunk that
    comes with it the job panics, and with a chunk beside it the job goes
    on as if the read had succeeded. *)
Theorem read_error_is_not_returned (env : Env) (idx : Z) (anims : list Animation)
    (st : Composer) (subimg : Paletted) (e : error) (oc : option ChunkReader)
    (rest : list ReadResult) :
  reachesLoop env anims st subimg ->
  isEOF e = false ->
  pngEncode env subimg = mkReadResult oc (Some e) :: rest ->
  match oc with
  | None => processOne env idx anims = mkJobResult Panicked (Some idx) []
  | Some c =>
      processOne env idx anims =
      processOne (withStream env (mkReadResult (Some c) None :: rest)) idx anims
  end.
Proof.
  intros Hreach He Hs. rewrite (processOne_loop _ _ _ _ _ Hreach).
  destruct oc as [ c | ].
  - assert (Hreach' : reachesLoop (withStream env (mkReadResult (Some c) None :: rest))
                        anims st subimg).
    { destruct Hreach as (? & ? & ? & ? & ? & ? & ?). repeat split; assumption. }
    rewrite (processOne_loop _ _ _ _ _ Hreach'). rewrite Hs.
    cbn [withStream pngEncode writeErr encodeErr].
    rewrite (read_error_dropped _ _ _ _ _ _ He). reflexivity.
  - rewrite Hs. unfold bind. rewrite (read_error_nil_chunk _ _ _ _ _ _ He). reflexivity.
Qed.

Lemma eof_ends_loop werr pal infos oc e rest out :
  isEOF e = true ->
  rewriteChunks werr pal infos (mkReadResult oc (Some e) :: rest) out = (Ok tt, out).
Proof. intros He. cbn [rewriteChunks rerr]. rewrite He. reflexivity. Qed.

Lemma rewriteChunks_app_ok werr pal infos pre : forall rest out,
  (forall k, werr k = None) ->
  Forall (fun c => closeErr c = None) pre ->
  Forall (fun c => isTRNS c = false) pre ->
  rewriteChunks werr pal infos (map okRead pre ++ rest) out =
  rewriteChunks werr pal infos rest (out ++ map chunkOf pre).
Proof.
  intros rest out Hw Hc Ht. revert out.
  induction pre as [ | c pre IH ]; intros out.
  - cbn. rewrite app_nil_r. reflexivity.
  - inv Hc. inv Ht. cbn [map app]. rewrite rewriteChunks_cons_ok by apply Hw.
    rewrite H3. unfold bind, ret. rewrite H1. cbn [check].
    rewrite IH by assumption. rewrite <- app_assoc. reflexivity.
Qed.

(** Claim C10.  In a job that reaches a tRNS chunk, the recorded palette is
    the palette of the last frame composed; if one of its entries is not a
    [color.RGBA] the job panics right after the tRNS chunk is written, and
    if all are the palette-dump chunk is written. *)
Theorem palette_dump_asserts_RGBA (env : Env) (idx : Z) (anims : list Animation)
    (st : Composer) (subimg : Paletted)
    (pre : list ChunkReader) (t : ChunkReader) (rest : list ReadResult) :
  reachesLoop env anims st subimg ->
  pngEncode env subimg = map okRead pre ++ okRead t :: rest ->
  (forall k, writeErr env k = None) ->
  Forall (fun c => closeErr c = None) pre ->
  Forall (fun c => isTRNS c = false) pre ->
  isTRNS t = true ->
  fullPalette st = last (map FramePalette (allFrames anims)) [] /\
  (Exists (fun c => isRGBA c = false) (fullPalette st) ->
   processOne env idx anims =
   mkJobResult Panicked (Some idx) (map chunkOf pre ++ [chunkOf t])) /\
  (Forall (fun c => isRGBA c = true) (fullPalette st) ->
   exists out,
     (writePaletteDump (writeErr env) (fullPalette st)) (map chunkOf pre ++ [chunkOf t]) =
     (Ok tt, out)).
Proof.
  intros Hreach Hs Hw Hc Hpre Ht. split; [ | split ].
  - destruct Hreach as (Hcomp & _). unfold compose in Hcomp.
    rewrite composeAnims_flat in Hcomp.
    apply (composeFrames_fullPalette _ _ _ Hcomp).
  - intros Hbad. rewrite (processOne_loop _ _ _ _ _ Hreach), Hs.
    unfold bind at 1.
    rewrite (rewriteChunks_app_ok _ _ _ pre) by assumption.
    rewrite rewriteChunks_cons_ok by apply Hw. rewrite Ht.
    unfold bind, writePaletteDump. rewrite (paletteDump_panics _ Hbad).
    reflexivity.
  - intros Hgood. unfold writePaletteDump. rewrite (paletteDump_RGBA _ Hgood).
    rewrite WriteChunk_ok by apply Hw. eexists. reflexivity.
Qed.

(** ** The pool with a single worker whose first job fails *)

Lemma single_worker (w v : WorkerState) i :
  nth_error [w] i = Some v -> i = 0%nat /\ v = w.
Proof.
  destruct i as [ | [ | i ] ]; cbn; intros H; try discriminate.
  injection H as <-. auto.
Qed.

Section SingleWorker.
Variable run : Job -> option error.
Variables (j0 j1 j2 : Job) (more : list Job) (e : error).
Hypothesis Hfail : run j0 = Some e.

Let jobs := j0 :: j1 :: j2 :: more.

Lemma oneWorkerInv_pending p pending :
  oneWorkerInv j0 jobs p -> mainSt p = Sending pending -> pending <> [].
Proof.
  intros (_ & Hlen & w & pending' & _ & Hm & Hw) Hm' ->.
  rewrite Hm' in Hm. injection Hm as <-.
  assert (Hl : (List.length (chBuf p) >= 2)%nat).
  { destruct w; [ destruct Hw as (_ & E) | destruct Hw as (_ & _ & E) | destruct Hw as (_ & E) ];
      apply (f_equal (@List.length Job)) in E; unfold jobs in E;
      cbn [List.length] in E; rewrite ?length_app in E; cbn [List.length] in E; lia. }
  lia.
Qed.

Lemma oneWorkerInv_step p q :
  oneWorkerInv j0 jobs p -> step 1 run p q -> oneWorkerInv j0 jobs q.
Proof.
  intros Hinv Hstep.
  destruct Hinv as (Hcl & Hlen & w & pending & Hws & Hm & Hw).
  assert (Hne : pending <> [])
    by (apply (oneWorkerInv_pending p); [ unfold oneWorkerInv; eauto 10 | assumption ]).
  inversion Hstep as [ p' j rest Hs Hcap | p' Hs | p' i j buf Hi Hb | p' i Hi Hb Hc
                     | p' i j Hi Hr | p' i j e' Hi Hr | p' Hs Hall ]; subst p'; subst q.
  - (* send *)
    rewrite Hm in Hs. injection Hs as ->.
    assert (Hb : chBuf p = []) by (destruct (chBuf p); [ reflexivity | cbn in Hcap; lia ]).
    unfold oneWorkerInv. cbn [chClosed chBuf workers mainSt completed].
    rewrite Hb in *. cbn [app List.length].
    split; [ assumption | ]. split; [ lia | ].
    exists w, rest. split; [ assumption | ]. split; [ reflexivity | ].
    destruct w; cbn [app] in *; assumption.
  - (* close *)
    rewrite Hm in Hs. injection Hs as ->. contradiction.
  - (* receive *)
    rewrite Hws in Hi. apply single_worker in Hi. destruct Hi as (-> & <-).
    unfold oneWorkerInv. cbn [chClosed chBuf workers mainSt completed].
    rewrite Hb in *. cbn [List.length] in Hlen.
    split; [ assumption | ]. split; [ lia | ].
    exists (Running j), pending. rewrite Hws. cbn [setWorker].
    split; [ reflexivity | ]. split; [ assumption | ].
    destruct Hw as (Hcomp & E). cbn [app] in E. unfold jobs in E.
    injection E as -> E. split; [ reflexivity | ]. split; [ assumption | ].
    unfold jobs. rewrite E. reflexivity.
  - (* the channel is never closed *)
    congruence.
  - (* the job cannot succeed *)
    rewrite Hws in Hi. apply single_worker in Hi. destruct Hi as (-> & <-).
    destruct Hw as (-> & _). congruence.
  - (* the job fails *)
    rewrite Hws in Hi. apply single_worker in Hi. destruct Hi as (-> & <-).
    destruct Hw as (-> & Hcomp & E).
    unfold oneWorkerInv. cbn [chClosed chBuf workers mainSt completed].
    split; [ assumption | ]. split; [ assumption | ].
    exists Exited, pending. rewrite Hws, Hcomp. cbn [setWorker app].
    repeat split; assumption.
  - (* main is not waiting *)
    congruence.
Qed.

Lemma oneWorkerInv_reachable p : reachable 1 run jobs p -> oneWorkerInv j0 jobs p.
Proof.
  induction 1 as [ | p q _ IH Hstep ].
  - unfold oneWorkerInv, initPool. cbn.
    split; [ reflexivity | ]. split; [ lia | ].
    exists Receiving, jobs. repeat split.
  - eapply oneWorkerInv_step; eassumption.
Qed.

Lemma deadlock_reachable : reachable 1 run jobs (deadlock j0 j1 j2 more e).
Proof.
  pose (p1 := mkPool (Sending (j1 :: j2 :: more)) [j0] false [Receiving] None []).
  pose (p2 := mkPool (Sending (j1 :: j2 :: more)) [] false [Running j0] None []).
  pose (p3 := mkPool (Sending (j2 :: more)) [j1] false [Running j0] None []).
  assert (R1 : reachable 1 run jobs p1).
  { apply (reach_step 1 run jobs (initPool 1 jobs)); [ apply reach_init | ].
    exact (step_send 1 run (initPool 1 jobs) j0 (j1 :: j2 :: more) eq_refl (le_n 1)). }
  assert (R2 : reachable 1 run jobs p2).
  { apply (reach_step 1 run jobs p1); [ exact R1 | ].
    exact (step_receive 1 run p1 0%nat j0 [] eq_refl eq_refl). }
  assert (R3 : reachable 1 run jobs p3).
  { apply (reach_step 1 run jobs p2); [ exact R2 | ].
    exact (step_send 1 run p2 j1 (j2 :: more) eq_refl (le_n 1)). }
  apply (reach_step 1 run jobs p3); [ exact R3 | ].
  exact (step_job_failed 1 run p3 0%nat j0 e eq_refl Hfail).
Qed.

Lemma deadlock_stuck : stuck 1 run (deadlock j0 j1 j2 more e).
Proof.
  intros q Hstep.
  inversion Hstep as [ p' j rest Hs Hcap | p' Hs | p' i j buf Hi Hb | p' i Hi Hb Hc
                     | p' i j Hi Hr | p' i j e' Hi Hr | p' Hs Hall ]; subst p';
    cbn in *; try discriminate; try lia.
  - destruct i as [ | [ | i ] ]; discriminate.
  - destruct i as [ | [ | i ] ]; discriminate.
  - destruct i as [ | [ | i ] ]; discriminate.
Qed.

End SingleWorker.

(** Claim C7, at the input on which the code departs from it.  With one
    worker and a first job that fails, no other job ever completes, main
    never gets past its send loop, and the run can end with main blocked
    and no worker left, the error kept but never returned. *)
Theorem failed_worker_stops_draining (run : Job -> option error)
    (j0 j1 j2 : Job) (more : list Job) (e : error) :
  run j0 = Some e ->
  (forall p, reachable 1 run (j0 :: j1 :: j2 :: more) p ->
     (completed p = [] \/ completed p = [j0]) /\
     exists pending, mainSt p = Sending pending /\ pending <> []) /\
  (exists p, reachable 1 run (j0 :: j1 :: j2 :: more) p /\
             stuck 1 run p /\ completed p = [j0] /\ groupErr p = Some e).
Proof.
  intros Hfail. split.
  - intros p Hp.
    pose proof (oneWorkerInv_reachable run j0 j1 j2 more e Hfail p Hp) as Hinv.
    pose proof (oneWorkerInv_pending j0 j1 j2 more p) as Hpend.
    destruct Hinv as (Hcl & Hlen & w & pending & Hws & Hm & Hw).
    split.
    + destruct w; [ left | left | right ]; tauto.
    + exists pending. split; [ assumption | ].
      apply Hpend; [ unfold oneWorkerInv; eauto 10 | assumption ].
  - exists (deadlock j0 j1 j2 more e). split; [ | split; [ | split ] ].
    + apply deadlock_reachable. assumption.
    + apply deadlock_stuck.
    + reflexivity.
    + reflexivity.
Qed.

(** ** The claims on sample inputs *)

Lemma dotImage_onePixel w h x y :
  0 <= x < w -> 0 <= y < h -> onePixel (asImage (dotImage w h x y)) x y.
Proof.
  intros Hx Hy.
  assert (HR : Rect 0 0 w h = mkRectangle (mkPoint 0 0) (mkPoint w h)).
  { unfold Rect. replace (0 >? w) with false by (symmetry; rewrite Z.gtb_ltb; apply Z.ltb_ge; lia).
    replace (0 >? h) with false by (symmetry; rewrite Z.gtb_ltb; apply Z.ltb_ge; lia).
    reflexivity. }
  split.
  - cbn [Bounds asImage PRect dotImage]. rewrite HR. apply PointIn_iff. cbn. lia.
  - intros x' y' Hin. cbn [Bounds asImage PRect dotImage At] in *.
    unfold Paletted_At. cbn [Palette PRect Pix dotImage twoTone]. rewrite Hin.
    destruct (Z.eqb_spec x' x) as [ -> | Hnx ]; [ destruct (Z.eqb_spec y' y) as [ -> | Hny ] | ];
      cbn [andb Z.to_nat nth_error Pos.to_nat].
    + eexists. split; [ reflexivity | ]. split; [ auto | intros _; discriminate ].
    + eexists. split; [ reflexivity | ]. split; [ intros H; exfalso; apply H; reflexivity | lia ].
    + eexists. split; [ reflexivity | ]. split; [ intros H; exfalso; apply H; reflexivity | lia ].
Qed.

(** Claim C8.  For a raster with exactly one opaque pixel, at [(x, y)],
    [FindBbox] returns the rectangle from [(x, y)] to [(x + 1, y + 1)]. *)
Theorem FindBbox_single_pixel (img : Image) (x y : Z) :
  onePixel img x y ->
  FindBbox img = Some (mkRectangle (mkPoint x y) (mkPoint (x + 1) (y + 1))).
Proof. apply FindBbox_unit. Qed.

Lemma FindBbox_single_pixel_witness :
  FindBbox (asImage (dotImage 16 16 3 4)) = Some (Rect 3 4 4 5).
Proof.
  apply (FindBbox_single_pixel (asImage (dotImage 16 16 3 4)) 3 4).
  apply dotImage_onePixel; lia.
Defined.

Lemma dotFrame_example x y :
  0 <= x < 16 -> 0 <= y < 16 -> exampleFrame (dotFrame x y) x y.
Proof.
  intros Hx Hy. unfold exampleFrame. cbn [MakeImage dotFrame PRect dotImage Palette FrameDelay FrameAction].
  repeat split; try reflexivity; apply dotImage_onePixel; assumption.
Qed.

Lemma end_to_end_example_witness :
  exists st,
    compose [mkAnimation [dotFrame 3 4; dotFrame 7 7]] = Some st /\
    infos st =
      [mkFrameInfo (Rect 0 0 1 1) (mkPoint 5 4) 5 1;
       mkFrameInfo (Rect 2 0 3 1) (mkPoint 1 1) 5 1] /\
    List.length (controlRecords (infos st)) = 28%nat /\
    List.length (controlTable (infos st)) = 36%nat.
Proof.
  destruct (end_to_end_example (dotFrame 3 4) (dotFrame 7 7) 3 4 7 7)
    as (st & Hc & Hi & _ & Hlen & Hlen').
  - apply dotFrame_example; lia.
  - apply dotFrame_example; lia.
  - exists st. repeat split; assumption.
Defined.

(** Claim C6 as stated fails: the control table of the example is neither
    26 bytes long nor 26 bytes long after its header. *)
Lemma end_to_end_payload_is_not_26 :
  exists st,
    compose [mkAnimation [dotFrame 3 4; dotFrame 7 7]] = Some st /\
    List.length (controlRecords (infos st)) <> 26%nat /\
    List.length (controlTable (infos st)) <> 26%nat.
Proof.
  assert (H : option_map (fun st => (List.length (controlRecords (infos st)),
                                     List.length (controlTable (infos st))))
                (compose [mkAnimation [dotFrame 3 4; dotFrame 7 7]]) = Some (28%nat, 36%nat))
    by (vm_compute; reflexivity).
  destruct (compose _) as [ st | ]; [ | discriminate ].
  cbn [option_map] in H. exists st. split; [ reflexivity | ].
  split; intros E; rewrite E in H; discriminate H.
Qed.

Lemma twoTone_spritePalette : spritePalette twoTone.
Proof. split; [ reflexivity | cbn; lia ]. Qed.

(** The run of [wrapSet]: the shelf is filled, then the third frame wraps. *)
Lemma wrapSet_run :
  exists st st',
    composeFrames initComposer shelfFrames = Some st /\
    composeFrame st (solidFrame 1 1) = Some st' /\
    compose wrapSet = Some st' /\
    left st = 1025 /\ PRect (spriteImg st) = canvasRect /\
    FindBbox (asImage (setPalette (spriteImg st) twoTone)) = Some (Rect 0 0 1024 1020) /\
    top st' = 1021 /\
    infos st' = [mkFrameInfo (Rect 0 0 1 1020) (mkPoint 0 510) 5 1;
                 mkFrameInfo (Rect 2 0 1024 1) (mkPoint 511 0) 5 1;
                 mkFrameInfo (Rect 0 1021 1 1022) (mkPoint 0 0) 5 1].
Proof.
  assert (H : (st <- composeFrames initComposer shelfFrames ;;
               cb <- FindBbox (asImage (setPalette (spriteImg st) twoTone)) ;;
               st' <- composeFrame st (solidFrame 1 1) ;;
               Some (left st, PRect (spriteImg st), cb, top st', infos st')) =
              Some (1025, canvasRect, Rect 0 0 1024 1020, 1021,
                    [mkFrameInfo (Rect 0 0 1 1020) (mkPoint 0 510) 5 1;
                     mkFrameInfo (Rect 2 0 1024 1) (mkPoint 511 0) 5 1;
                     mkFrameInfo (Rect 0 1021 1 1022) (mkPoint 0 0) 5 1]))
    by (vm_compute; reflexivity).
  destruct (composeFrames initComposer shelfFrames) as [ st | ] eqn:E1; [ | discriminate ].
  destruct (FindBbox (asImage (setPalette (spriteImg st) twoTone))) as [ cb | ] eqn:E2;
    [ | discriminate ].
  destruct (composeFrame st (solidFrame 1 1)) as [ st' | ] eqn:E3; [ | discriminate ].
  exists st, st'. split; [ reflexivity | ]. split; [ assumption | ].
  split.
  { unfold compose, wrapSet. cbn [composeAnims Frames composeFrames]. rewrite E1, E3. reflexivity. }
  repeat split; congruence.
Qed.

Lemma Rect_onCanvas x0 y0 x1 y1 :
  0 <= x0 <= x1 -> 0 <= y0 <= y1 -> x1 <= 1024 -> y1 <= 1024 ->
  onCanvas (Rect x0 y0 x1 y1).
Proof.
  intros Hx Hy H1 H2 _. unfold Rect.
  replace (x0 >? x1) with false by (symmetry; rewrite Z.gtb_ltb; apply Z.ltb_ge; lia).
  replace (y0 >? y1) with false by (symmetry; rewrite Z.gtb_ltb; apply Z.ltb_ge; lia).
  cbn. lia.
Qed.

Lemma placements_do_not_overlap_witness :
  exists st, compose wrapSet = Some st /\
             Forall2 trimmedSize (allFrames wrapSet) (infos st) /\ noOverlap (infos st).
Proof.
  destruct wrapSet_run as (st & st' & _ & _ & Hc & _ & _ & _ & _ & Hi).
  exists st'. split; [ exact Hc | ].
  destruct (placements_do_not_overlap wrapSet st' Hc) as (Hsize & Hdisjoint).
  split; [ exact Hsize | ].
  apply (Hdisjoint twoTone twoTone_spritePalette).
  - repeat constructor.
  - rewrite Hi. repeat (apply Forall_cons; [ apply Rect_onCanvas; lia | ]). apply Forall_nil.
Defined.

(** Claim C2 as stated fails: once the ink reaches the bottom edge of the
    canvas every further row starts at 1025, and two rows overlap. *)
Lemma placements_overlap_on_a_full_canvas :
  exists st a b,
    compose overflowSet = Some st /\
    nth_error (infos st) 2 = Some a /\ nth_error (infos st) 3 = Some b /\
    Overlaps (BBox a) (BBox b) = true /\ ~ noOverlap (infos st).
Proof.
  assert (H : option_map infos (compose overflowSet) =
              Some [mkFrameInfo (Rect 0 0 1 1024) (mkPoint 0 512) 5 1;
                    mkFrameInfo (Rect 2 0 1024 1) (mkPoint 511 0) 5 1;
                    mkFrameInfo (Rect 0 1025 1 1026) (mkPoint 0 0) 5 1;
                    mkFrameInfo (Rect 0 1025 1023 1026) (mkPoint 511 0) 5 1])
    by (vm_compute; reflexivity).
  destruct (compose overflowSet) as [ st | ]; [ | discriminate ].
  cbn [option_map] in H. injection H as H.
  exists st, (mkFrameInfo (Rect 0 1025 1 1026) (mkPoint 0 0) 5 1),
         (mkFrameInfo (Rect 0 1025 1023 1026) (mkPoint 511 0) 5 1).
  rewrite H. repeat split.
  intros Hno. specialize (Hno 2%nat 3%nat _ _ ltac:(lia) eq_refl eq_refl). discriminate Hno.
Qed.

(** The frames must share their palette: the ink of a frame drawn with
    another palette can be transparent in the palette of the frame that
    wraps, and the new row then starts inside it. *)
Lemma placements_overlap_under_two_palettes :
  exists st a b,
    compose twoPaletteSet = Some st /\
    Forall (fun i => onCanvas (BBox i)) (infos st) /\
    nth_error (infos st) 0 = Some a /\ nth_error (infos st) 2 = Some b /\
    Overlaps (BBox a) (BBox b) = true.
Proof.
  assert (H : option_map infos (compose twoPaletteSet) =
              Some [mkFrameInfo (Rect 0 0 1 3) (mkPoint 0 1) 5 1;
                    mkFrameInfo (Rect 2 0 1024 1) (mkPoint 511 0) 5 1;
                    mkFrameInfo (Rect 0 2 1 3) (mkPoint 0 0) 5 1])
    by (vm_compute; reflexivity).
  destruct (compose twoPaletteSet) as [ st | ]; [ | discriminate ].
  cbn [option_map] in H. injection H as H.
  exists st, (mkFrameInfo (Rect 0 0 1 3) (mkPoint 0 1) 5 1),
         (mkFrameInfo (Rect 0 2 1 3) (mkPoint 0 0) 5 1).
  rewrite H. repeat split.
  repeat (apply Forall_cons; [ apply Rect_onCanvas; lia | ]). apply Forall_nil.
Qed.

Lemma shelf_bottomInk st :
  PRect (spriteImg st) = canvasRect ->
  FindBbox (asImage (setPalette (spriteImg st) twoTone)) = Some (Rect 0 0 1024 1020) ->
  bottomInk (asImage (setPalette (spriteImg st) twoTone)) 1019.
Proof.
  intros Hrect Hb. split.
  - destruct (FindBbox_edges _ _ Hb eq_refl) as (_ & _ & _ & _ & Hx). exact Hx.
  - intros x y Hxy. pose proof (FindBbox_covers _ _ _ _ Hb Hxy) as Hc.
    apply PointIn_iff in Hc. cbn in Hc. lia.
Qed.

Lemma wrap_resets_cursor_witness :
  exists st st',
    composeFrames initComposer shelfFrames = Some st /\
    composeFrame st (solidFrame 1 1) = Some st' /\
    bottomInk (asImage (setPalette (spriteImg st) twoTone)) 1019 /\
    left st' = 2 /\ top st' = 1019 + 2.
Proof.
  destruct wrapSet_run as (st & st' & H1 & H2 & _ & Hl & Hrect & Hcb & _ & _).
  exists st, st'. split; [ exact H1 | ]. split; [ exact H2 | ].
  pose proof (shelf_bottomInk st Hrect Hcb) as Hink.
  split; [ exact Hink | ].
  destruct (wrap_resets_cursor st st' (solidFrame 1 1) (Rect 0 0 1 1) H2)
    as (cb & _ & Hleft & _ & _ & Htop & _).
  - vm_compute. reflexivity.
  - rewrite Hl, Hrect. cbn. lia.
  - split; [ exact Hleft | ]. apply Htop. exact Hink.
Defined.

(** Claim C4 as stated fails: with ink down to row 1019 the wrap sets top
    to 1021, not to 1020. *)
Lemma wrap_leaves_a_blank_row :
  exists st st',
    composeFrames initComposer shelfFrames = Some st /\
    composeFrame st (solidFrame 1 1) = Some st' /\
    left st + Dx (Rect 0 0 1 1) > Dx (PRect (spriteImg st)) /\
    bottomInk (asImage (setPalette (spriteImg st) twoTone)) 1019 /\
    top st' <> 1019 + 1.
Proof.
  destruct wrapSet_run as (st & st' & H1 & H2 & _ & Hl & Hrect & Hcb & Ht & _).
  exists st, st'. split; [ exact H1 | ]. split; [ exact H2 | ].
  split; [ rewrite Hl, Hrect; cbn; lia | ].
  split; [ exact (shelf_bottomInk st Hrect Hcb) | ].
  rewrite Ht. discriminate.
Qed.

Lemma control_table_roundtrip_witness :
  exists st, compose wrapSet = Some st /\
             decodeControlTable (controlTable (infos st)) = Some (infos st).
Proof.
  destruct wrapSet_run as (st & st' & _ & _ & Hc & _ & _ & _ & _ & Hi).
  exists st'. split; [ exact Hc | ].
  apply (proj2 (control_table_roundtrip wrapSet st' Hc)).
  rewrite Hi. repeat (apply Forall_cons; [ unfold infoFits, fitsInt16, fitsUint8; cbn; lia | ]).
  apply Forall_nil.
Defined.

(** Claim C5 as stated fails: an origin of -34999 is read back as 30537. *)
Lemma control_table_truncates_wide_frames :
  exists st,
    compose wideSet = Some st /\
    infos st = [mkFrameInfo (Rect 0 0 1 1) (mkPoint (-34999) 0) 5 1] /\
    decodeControlTable (controlTable (infos st)) =
      Some [mkFrameInfo (Rect 0 0 1 1) (mkPoint 30537 0) 5 1] /\
    decodeControlTable (controlTable (infos st)) <> Some (infos st).
Proof.
  assert (H : option_map infos (compose wideSet) =
              Some [mkFrameInfo (Rect 0 0 1 1) (mkPoint (-34999) 0) 5 1])
    by (vm_compute; reflexivity).
  destruct (compose wideSet) as [ st | ]; [ | discriminate ].
  cbn [option_map] in H. injection H as H.
  exists st. rewrite H. repeat split. discriminate.
Qed.

Lemma blank_canvas_writes_no_file_witness :
  processOne (quietEnv (map okRead sampleStream)) 7 blankSet = mkJobResult (Ok tt) None [].
Proof.
  pose (canvas := mkPaletted (fun _ _ => 0) canvasRect twoTone).
  assert (Hc : compose blankSet =
               Some (mkComposer 1 0 [mkFrameInfo (Rect 0 0 0 0) (mkPoint 1 1) 5 1]
                       twoTone canvas)) by reflexivity.
  apply (blank_canvas_writes_no_file (quietEnv (map okRead sampleStream)) 7 blankSet _ Hc).
  - intros x y Hin. cbn [At asImage Bounds spriteImg] in *. unfold Paletted_At, canvas in *.
    cbn [Palette PRect Pix twoTone] in *. rewrite Hin. discriminate.
  - intros x y (Hin & Hop). unfold opaque in Hop. cbn [At asImage Bounds spriteImg] in Hop, Hin.
    unfold Paletted_At, canvas in Hop, Hin. cbn [Palette PRect Pix twoTone] in Hop, Hin.
    rewrite Hin in Hop. discriminate Hop.
Defined.

Lemma frameless_canvas_panics_witness :
  exists st,
    compose [mkAnimation []] = Some st /\
    (forall x y, ~ opaqueAt (asImage (spriteImg st)) x y) /\
    FindBbox (asImage (spriteImg st)) = None /\
    processOne (quietEnv (map okRead sampleStream)) 7 [mkAnimation []] =
      mkJobResult Panicked None [].
Proof.
  apply (frameless_canvas_panics (quietEnv (map okRead sampleStream)) 7 [mkAnimation []]).
  reflexivity.
Defined.

(** The run of [cornerSet]: the cropped raster is the whole canvas. *)
Lemma cornerSet_run :
  exists st subimg,
    compose cornerSet = Some st /\ cropped st = Some subimg /\
    PRect subimg = canvasRect /\ fullPalette st = twoTone.
Proof.
  assert (H : (st <- compose cornerSet ;; s <- cropped st ;;
               Some (PRect s, fullPalette st)) = Some (canvasRect, twoTone))
    by (vm_compute; reflexivity).
  destruct (compose cornerSet) as [ st | ]; [ | discriminate ].
  destruct (cropped st) as [ s | ] eqn:Es; [ | discriminate ].
  cbv beta iota in H. exists st, s. repeat split; congruence.
Qed.

Lemma nrgbaSet_run :
  exists st subimg,
    compose nrgbaSet = Some st /\ cropped st = Some subimg /\
    PRect subimg = canvasRect /\
    fullPalette st = [RGBA 0 0 0 0; NRGBA 255 255 255 255].
Proof.
  assert (H : (st <- compose nrgbaSet ;; s <- cropped st ;;
               Some (PRect s, fullPalette st)) =
              Some (canvasRect, [RGBA 0 0 0 0; NRGBA 255 255 255 255]))
    by (vm_compute; reflexivity).
  destruct (compose nrgbaSet) as [ st | ]; [ | discriminate ].
  destruct (cropped st) as [ s | ] eqn:Es; [ | discriminate ].
  cbv beta iota in H. exists st, s. repeat split; congruence.
Qed.

Lemma quietEnv_reachesLoop reads anims st subimg :
  compose anims = Some st -> cropped st = Some subimg -> PRect subimg = canvasRect ->
  reachesLoop (quietEnv reads) anims st subimg.
Proof.
  intros Hc Hs Hr. unfold reachesLoop. rewrite Hr.
  repeat split; try assumption; cbn; discriminate.
Qed.

Lemma chunks_pass_through_witness :
  rewriteChunks (fun _ => None) twoTone [mkFrameInfo (Rect 0 0 1 1) (mkPoint 5 4) 5 1]
    (map okRead sampleStream) [] =
  (Ok tt,
   flat_map (rewritten (paletteBytes twoTone) [mkFrameInfo (Rect 0 0 1 1) (mkPoint 5 4) 5 1])
            sampleStream).
Proof.
  apply (chunks_pass_through (fun _ => None) twoTone
           [mkFrameInfo (Rect 0 0 1 1) (mkPoint 5 4) 5 1] sampleStream).
  - reflexivity.
  - repeat constructor.
  - repeat constructor.
Defined.

Lemma read_error_is_not_returned_witness :
  processOne (quietEnv [mkReadResult None (Some ErrUnexpectedEOF)]) 3 cornerSet =
  mkJobResult Panicked (Some 3) [].
Proof.
  destruct cornerSet_run as (st & subimg & Hc & Hs & Hr & _).
  apply (read_error_is_not_returned
           (quietEnv [mkReadResult None (Some ErrUnexpectedEOF)]) 3 cornerSet st subimg
           ErrUnexpectedEOF None []).
  - apply quietEnv_reachesLoop; assumption.
  - reflexivity.
  - reflexivity.
Defined.

Lemma palette_dump_asserts_RGBA_witness :
  processOne (quietEnv (map okRead sampleStream)) 1 nrgbaSet =
  mkJobResult Panicked (Some 1)
    (map chunkOf [pngChunk "IHDR" [0; 0; 4; 0; 0; 0; 4; 0; 8; 3; 0; 0; 0];
                  pngChunk "PLTE" [0; 0; 0; 255; 255; 255];
                  pngChunk "tRNS" [0]]).
Proof.
  destruct nrgbaSet_run as (st & subimg & Hc & Hs & Hr & Hp).
  destruct (palette_dump_asserts_RGBA
              (quietEnv (map okRead sampleStream)) 1 nrgbaSet st subimg
              [pngChunk "IHDR" [0; 0; 4; 0; 0; 0; 4; 0; 8; 3; 0; 0; 0];
               pngChunk "PLTE" [0; 0; 0; 255; 255; 255]]
              (pngChunk "tRNS" [0])
              (map okRead [pngChunk "IDAT" [120; 156; 99; 96; 0]; pngChunk "IEND" []]))
    as (_ & Hpanic & _).
  - apply quietEnv_reachesLoop; assumption.
  - reflexivity.
  - reflexivity.
  - repeat constructor.
  - repeat constructor.
  - reflexivity.
  - apply Hpanic. rewrite Hp. right. left. reflexivity.
Defined.

Lemma failed_worker_stops_draining_witness :
  (forall p, reachable 1 failFirst [0; 1; 2]%nat p ->
     (completed p = [] \/ completed p = [0%nat]) /\
     exists pending, mainSt p = Sending pending /\ pending <> []) /\
  (exists p, reachable 1 failFirst [0; 1; 2]%nat p /\
             stuck 1 failFirst p /\ completed p = [0%nat] /\
             groupErr p = Some (ErrOther "create sprites/0000.png: permission denied")).
Proof.
  apply (failed_worker_stops_draining failFirst 0%nat 1%nat 2%nat []
           (ErrOther "create sprites/0000.png: permission denied")).
  reflexivity.
Defined.

(** * Further properties of the code *)

(** ** More on FindBbox *)

Lemma scanUp_none line n i r :
  scanUp line i n = Some r ->
  (forall k, i <= k < i + Z.of_nat n -> line k <> Some true) ->
  r = i + Z.of_nat n.
Proof.
  intros H Hno. destruct (scanUp_inv _ _ _ _ H) as (Hr & _ & Hhit).
  destruct (Z_lt_ge_dec r (i + Z.of_nat n)) as [ Hlt | ]; [ exfalso | lia ].
  apply (Hno r); [ lia | auto ].
Qed.

Lemma scanDown_none line n i r :
  scanDown line i n = Some r ->
  (forall k, i - Z.of_nat n < k <= i -> line k <> Some true) ->
  r = i - Z.of_nat n.
Proof.
  intros H Hno. destruct (scanDown_inv _ _ _ _ H) as (Hr & _ & Hhit).
  destruct (Z_lt_ge_dec (i - Z.of_nat n) r) as [ Hlt | ]; [ exfalso | lia ].
  apply (Hno r); [ lia | auto ].
Qed.

Lemma blank_columns img x :
  (forall x y, ~ opaqueAt img x y) ->
  X (Min (Bounds img)) <= x < X (Max (Bounds img)) ->
  colOpaque img x <> Some true.
Proof.
  intros Hblank Hx H. destruct (colOpaque_true _ _ H) as (y & Hy & Ho).
  apply (Hblank x y). split; [ apply PointIn_iff; lia | assumption ].
Qed.

Lemma blank_rows img y :
  (forall x y, ~ opaqueAt img x y) ->
  Y (Min (Bounds img)) <= y < Y (Max (Bounds img)) ->
  rowOpaque img y <> Some true.
Proof.
  intros Hblank Hy H. destruct (rowOpaque_true _ _ H) as (x & Hx & Ho).
  apply (Hblank x y). split; [ apply PointIn_iff; lia | assumption ].
Qed.

(** Property X1.  On a raster every pixel of which can be read and none of
    which is opaque, [FindBbox] returns a box of width 0 and height 0; the
    box is the zero rectangle whenever the bounds of the raster are not
    empty. *)
Theorem FindBbox_transparent (img : Image) :
  safe img ->
  (forall x y, ~ opaqueAt img x y) ->
  exists r, FindBbox img = Some r /\ Dx r = 0 /\ Dy r = 0 /\
            (Empty (Bounds img) = false -> r = Rect 0 0 0 0).
Proof.
  intros Hsafe Hblank. destruct (FindBbox_total _ Hsafe) as (r & Hr).
  exists r. split; [ exact Hr | ].
  destruct (FindBbox_scans _ _ Hr) as (l & t & r0 & b0 & Hl & Ht & Hr0 & Hb0 & ->).
  apply scanUp_none in Hl;
    [ | intros k Hk; apply blank_columns; [ assumption | unfold Dx in Hk; lia ] ].
  apply scanUp_none in Ht;
    [ | intros k Hk; apply blank_rows; [ assumption | unfold Dy in Hk; lia ] ].
  apply scanDown_none in Hr0;
    [ | intros k Hk; apply blank_columns; [ assumption | unfold Dx in Hk; lia ] ].
  apply scanDown_none in Hb0;
    [ | intros k Hk; apply blank_rows; [ assumption | unfold Dy in Hk; lia ] ].
  unfold Dx, Dy in Hl, Ht, Hr0, Hb0.
  destruct ((r0 + 1 <? l) || (b0 + 1 <? t)) eqn:E.
  - repeat split.
  - apply orb_false_iff in E. rewrite !Z.ltb_ge in E.
    unfold Dx, Dy. cbn. repeat split; try lia.
    intros Hne. apply Empty_false_iff in Hne. lia.
Qed.

(** Property X2.  The box [FindBbox] returns contains every opaque pixel of
    the raster; when it is not empty it lies within the bounds and is the
    smallest such box: every rectangle that contains all opaque pixels
    contains it. *)
Theorem FindBbox_is_tightest (img : Image) (r : Rectangle) :
  FindBbox img = Some r ->
  (forall x y, opaqueAt img x y -> PointIn x y r = true) /\
  (Empty r = false ->
   (X (Min (Bounds img)) <= X (Min r) /\ X (Max r) <= X (Max (Bounds img)) /\
    Y (Min (Bounds img)) <= Y (Min r) /\ Y (Max r) <= Y (Max (Bounds img))) /\
   forall s, (forall x y, opaqueAt img x y -> PointIn x y s = true) ->
             X (Min s) <= X (Min r) /\ Y (Min s) <= Y (Min r) /\
             X (Max r) <= X (Max s) /\ Y (Max r) <= Y (Max s)).
Proof.
  intros H. split.
  - intros x y Hxy. exact (FindBbox_covers _ _ _ _ H Hxy).
  - intros Hne.
    destruct (FindBbox_edges _ _ H Hne) as (Hin & (y1 & H1) & (x2 & H2) & (y3 & H3) & (x4 & H4)).
    split; [ exact Hin | ]. intros s Hs.
    apply Hs in H1, H2, H3, H4. apply PointIn_iff in H1, H2, H3, H4. lia.
Qed.

Lemma FindBbox_is_tightest_witness :
  FindBbox (asImage (dotImage 16 16 3 4)) = Some (Rect 3 4 4 5) /\
  (forall s, (forall x y, opaqueAt (asImage (dotImage 16 16 3 4)) x y -> PointIn x y s = true) ->
             X (Min s) <= 3 /\ Y (Min s) <= 4 /\ 4 <= X (Max s) /\ 5 <= Y (Max s)).
Proof.
  assert (H : FindBbox (asImage (dotImage 16 16 3 4)) = Some (Rect 3 4 4 5))
    by (vm_compute; reflexivity).
  split; [ exact H | ].
  destruct (FindBbox_is_tightest _ _ H) as (_ & Htight).
  destruct (Htight eq_refl) as (_ & Hs). exact Hs.
Defined.

Lemma anyOpaque_ext test test' n : forall v,
  (forall i, v <= i < v + Z.of_nat n -> test i = test' i) ->
  anyOpaque test v n = anyOpaque test' v n.
Proof.
  induction n as [ | n IH ]; intros v H; [ reflexivity | ].
  cbn [anyOpaque]. rewrite <- (H v) by lia. destruct (test v) as [ [ | ] | ]; try reflexivity.
  apply IH. intros i Hi. apply H. lia.
Qed.

Lemma scanUp_ext line line' n : forall i,
  (forall k, i <= k < i + Z.of_nat n -> line k = line' k) ->
  scanUp line i n = scanUp line' i n.
Proof.
  induction n as [ | n IH ]; intros i H; [ reflexivity | ].
  cbn [scanUp]. rewrite <- (H i) by lia. destruct (line i) as [ [ | ] | ]; try reflexivity.
  apply IH. intros k Hk. apply H. lia.
Qed.

Lemma scanDown_ext line line' n : forall i,
  (forall k, i - Z.of_nat n < k <= i -> line k = line' k) ->
  scanDown line i n = scanDown line' i n.
Proof.
  induction n as [ | n IH ]; intros i H; [ reflexivity | ].
  cbn [scanDown]. rewrite <- (H i) by lia. destruct (line i) as [ [ | ] | ]; try reflexivity.
  apply IH. intros k Hk. apply H. lia.
Qed.

(** Property X3.  [FindBbox] reads pixels inside [img.Bounds()] only: two
    images with the same bounds that agree on every pixel inside them get
    the same result, panics included. *)
Theorem FindBbox_reads_inside_bounds (img img' : Image) :
  Bounds img = Bounds img' ->
  (forall x y, PointIn x y (Bounds img) = true -> At img x y = At img' x y) ->
  FindBbox img = FindBbox img'.
Proof.
  intros Hb Hat.
  assert (Hcol : forall x, X (Min (Bounds img)) <= x < X (Max (Bounds img)) ->
                           colOpaque img x = colOpaque img' x).
  { intros x Hx. unfold colOpaque. rewrite <- Hb. apply anyOpaque_ext. intros y Hy.
    unfold opaque. rewrite Hat; [ reflexivity | ]. apply PointIn_iff. unfold Dy in Hy. lia. }
  assert (Hrow : forall y, Y (Min (Bounds img)) <= y < Y (Max (Bounds img)) ->
                           rowOpaque img y = rowOpaque img' y).
  { intros y Hy. unfold rowOpaque. rewrite <- Hb. apply anyOpaque_ext. intros x Hx.
    unfold opaque. rewrite Hat; [ reflexivity | ]. apply PointIn_iff. unfold Dx in Hx. lia. }
  unfold FindBbox. rewrite <- Hb.
  rewrite (scanUp_ext (colOpaque img) (colOpaque img'))
    by (intros k Hk; apply Hcol; unfold Dx in Hk; lia).
  rewrite (scanUp_ext (rowOpaque img) (rowOpaque img'))
    by (intros k Hk; apply Hrow; unfold Dy in Hk; lia).
  rewrite (scanDown_ext (colOpaque img) (colOpaque img'))
    by (intros k Hk; apply Hcol; unfold Dx in Hk; lia).
  rewrite (scanDown_ext (rowOpaque img) (rowOpaque img'))
    by (intros k Hk; apply Hrow; unfold Dy in Hk; lia).
  reflexivity.
Qed.

(** ** The layout of the sheet *)

Lemma composeFrames_records fs : forall st st',
  composeFrames st fs = Some st' ->
  exists more, infos st' = infos st ++ more /\ Forall2 recordsFrame fs more.
Proof.
  induction fs as [ | f fs IH ]; intros st st' H; cbn [composeFrames] in H.
  - inv H. exists []. rewrite app_nil_r. split; [ reflexivity | constructor ].
  - destruct (composeFrame st f) as [ st1 | ] eqn:E1; [ | discriminate ].
    destruct (IH _ _ H) as (more & Hmore & Hrec).
    destruct (composeFrame_inv _ _ _ E1) as (trim & l & t & c' & Hb & _ & _ & ->).
    cbn [infos] in Hmore. rewrite <- app_assoc in Hmore.
    eexists. split; [ exact Hmore | ]. constructor; [ | assumption ].
    split; [ reflexivity | ]. split; [ reflexivity | ].
    exists trim. split; [ assumption | ]. cbn [BBox Origin X Y].
    unfold placement, Dx, Dy. cbn. repeat split; lia.
Qed.

(** Property X4.  The composition records one FrameInfo per frame, in the
    order of the frames: each carries the delay and the action of its frame,
    has the size of the frame's trimmed box, and its origin is half the
    raster's width and height minus the corner of the trimmed box.  The
    palette recorded for the sheet is the one of the last frame (none for a
    sprite set without frames). *)
Theorem infos_follow_frames (anims : list Animation) (st : Composer) :
  compose anims = Some st ->
  Forall2 recordsFrame (allFrames anims) (infos st) /\
  fullPalette st = last (map FramePalette (allFrames anims)) [].
Proof.
  unfold compose. rewrite composeAnims_flat. intros Hc. split.
  - destruct (composeFrames_records _ _ _ Hc) as (more & Hmore & Hrec).
    cbn in Hmore. rewrite Hmore. exact Hrec.
  - rewrite (composeFrames_fullPalette _ _ _ Hc). reflexivity.
Qed.

Lemma infos_follow_frames_witness :
  exists st, compose wrapSet = Some st /\
             Forall2 recordsFrame (allFrames wrapSet) (infos st) /\
             fullPalette st = twoTone.
Proof.
  destruct wrapSet_run as (st & st' & _ & _ & Hc & _).
  exists st'. split; [ exact Hc | ].
  exact (infos_follow_frames wrapSet st' Hc).
Defined.

Lemma rowInv_init : rowInv initComposer.
Proof.
  unfold rowInv. cbn.
  split; [ reflexivity | ]. split; [ auto | ].
  split; [ intros k a Hk; discriminate | ].
  split; [ constructor | ].
  split; [ intros a Ha; discriminate | ].
  intros k a b Ha. destruct k; discriminate.
Qed.

Lemma rowInv_step st f st' :
  rowInv st -> composeFrame st f = Some st' -> rowInv st'.
Proof.
  intros (Hrect & Hnil & Hlast & Hpl & Hfirst & Hadj) Hc.
  destruct (composeFrame_inv _ _ _ Hc) as (trim & l & t & canvas' & Hb & Hw & Hd & ->).
  pose proof (FindBbox_Dx_nonneg _ _ Hb) as (HDx & HDy).
  set (new := mkFrameInfo (placement l t trim) _ _ _) in *.
  (* the cursor before the frame *)
  assert (Hcur : 0 <= left st /\ 0 <= top st <= 1025).
  { destruct (infos st) as [ | i0 is0 ] eqn:Ei.
    - destruct (Hnil eq_refl) as (-> & ->). lia.
    - destruct (exists_last (l := i0 :: is0)) as (pre & a & Ea); [ discriminate | ].
      destruct (Hlast (List.length pre) a) as (-> & ->).
      + rewrite Ea, length_app. cbn. lia.
      + rewrite Ea, nth_error_app2 by lia. rewrite Nat.sub_diag. reflexivity.
      + rewrite Ea in Hpl. apply Forall_app in Hpl. destruct Hpl as (_ & Hpa).
        apply Forall_cons_iff in Hpa. destruct Hpa as ((Hx & Hy & Hy' & _) & _). lia. }
  assert (Hlt : (left st + Dx trim <= 1024 /\ l = left st /\ t = top st) \/
                (left st + Dx trim > 1024 /\ l = 0 /\ 1 <= t <= 1025)).
  { destruct (wrapCursor_inv _ _ _ _ _ Hw) as [ (Hno & -> & ->) | (Hyes & -> & cb & Hcb & ->) ];
      cbn [PRect setPalette] in *; rewrite Hrect in *; cbn in *.
    - left. lia.
    - right. split; [ lia | ]. split; [ reflexivity | ].
      destruct (FindBbox_within _ _ Hcb) as [ -> | Hin ];
        cbn [Bounds asImage PRect setPalette]; rewrite ?Hrect; cbn; try lia.
      cbn [Bounds asImage PRect setPalette] in Hin. rewrite Hrect in Hin. cbn in Hin. lia. }
  assert (Hnew : placed new).
  { unfold placed, new, placement. cbn. destruct Hlt as [ (? & -> & ->) | (? & -> & ?) ]; lia. }
  unfold rowInv. cbn [infos left top spriteImg].
  split; [ rewrite (Draw_PRect _ _ _ _ _ Hd); exact Hrect | ].
  split; [ intros Hk; destruct (infos st); discriminate | ].
  split.
  { intros k a Hk Ha. rewrite length_app in Hk. cbn in Hk.
    rewrite nth_error_app2 in Ha by lia.
    replace (k - List.length (infos st))%nat with 0%nat in Ha by lia.
    inv Ha. unfold new, placement. cbn. lia. }
  split; [ apply Forall_app; split; [ assumption | constructor; [ assumption | constructor ] ] | ].
  split.
  { intros a Ha. destruct (infos st) as [ | i0 is0 ] eqn:Ei.
    - cbn in Ha. inv Ha. destruct (Hnil eq_refl) as (Hl0 & Ht0).
      unfold firstPlaced, new, placement, Dx, canvasRect. cbn.
      destruct Hlt as [ (? & -> & ->) | (? & -> & ?) ];
        [ left; rewrite Hl0, Ht0; reflexivity | right; unfold Dx in *; lia ].
    - cbn in Ha. inv Ha. apply Hfirst. reflexivity. }
  intros k a b Ha Hb'.
  destruct (Nat.lt_ge_cases (S k) (List.length (infos st))) as [ Hk | Hk ].
  - rewrite nth_error_app1 in Ha, Hb' by lia. eauto.
  - assert (Hlen : List.length (infos st) = S k).
    { assert (Hlt' : (S k < List.length (infos st ++ [new]))%nat)
        by (apply nth_error_Some; congruence).
      rewrite length_app in Hlt'. cbn in Hlt'. lia. }
    rewrite nth_error_app1 in Ha by lia. rewrite nth_error_app2 in Hb' by lia.
    replace (S k - List.length (infos st))%nat with 0%nat in Hb' by lia.
    inv Hb'. destruct (Hlast k a Hlen Ha) as (Hl & Ht).
    unfold sameRow, newRow, new, placement, Dx, canvasRect. cbn.
    destruct Hlt as [ (? & -> & ->) | (? & -> & ?) ]; [ left | right ];
      unfold Dx in *; lia.
Qed.

Lemma rowInv_frames fs : forall st st',
  rowInv st -> composeFrames st fs = Some st' -> rowInv st'.
Proof.
  induction fs as [ | f fs IH ]; intros st st' Hinv H; cbn [composeFrames] in H.
  - inv H. assumption.
  - destruct (composeFrame st f) as [ st1 | ] eqn:E1; [ | discriminate ].
    apply (IH st1 st'); [ | assumption ]. apply (rowInv_step st f); assumption.
Qed.

Lemma compose_rowInv anims st : compose anims = Some st -> rowInv st.
Proof.
  unfold compose. rewrite composeAnims_flat.
  apply rowInv_frames. apply rowInv_init.
Qed.

(** Property X5.  Of two consecutive FrameInfos the second lies in the row
    of the first, one pixel right of it and ending on the canvas, or it
    did not fit there and starts at left 0 in a row with top at least 1. *)
Theorem frames_fill_rows (anims : list Animation) (st : Composer)
    (k : nat) (a b : FrameInfo) :
  compose anims = Some st ->
  nth_error (infos st) k = Some a -> nth_error (infos st) (S k) = Some b ->
  sameRow a b \/ newRow a b.
Proof.
  intros Hc. destruct (compose_rowInv _ _ Hc) as (_ & _ & _ & _ & _ & Hadj). apply Hadj.
Qed.

(** Property X6.  Every placement rectangle has its corner at
    non-negative coordinates with top at most 1025, and ends within the
    width of the canvas unless it starts at left 0.  The first one is at
    (0, 0), unless the frame is wider than the canvas. *)
Theorem placements_start_on_canvas (anims : list Animation) (st : Composer) :
  compose anims = Some st ->
  Forall placed (infos st) /\
  forall a, nth_error (infos st) 0 = Some a -> firstPlaced a.
Proof.
  intros Hc. destruct (compose_rowInv _ _ Hc) as (_ & _ & _ & Hpl & Hfirst & _).
  split; assumption.
Qed.

Lemma frames_fill_rows_witness :
  exists st a b c,
    compose wrapSet = Some st /\ infos st = [a; b; c] /\ sameRow a b /\ newRow b c.
Proof.
  destruct wrapSet_run as (st & st' & _ & _ & Hc & _ & _ & _ & _ & Hi).
  exists st'. do 3 eexists. split; [ exact Hc | ]. split; [ exact Hi | ].
  assert (H1 := frames_fill_rows wrapSet st' 0 _ _ Hc
                  ltac:(rewrite Hi; reflexivity) ltac:(rewrite Hi; reflexivity)).
  assert (H2 := frames_fill_rows wrapSet st' 1 _ _ Hc
                  ltac:(rewrite Hi; reflexivity) ltac:(rewrite Hi; reflexivity)).
  split.
  - destruct H1 as [ H1 | (H1 & _) ]; [ exact H1 | cbn in H1; lia ].
  - destruct H2 as [ (H2 & _) | H2 ]; [ cbn in H2; lia | exact H2 ].
Defined.

Lemma placements_start_on_canvas_witness :
  exists st, compose wrapSet = Some st /\ Forall placed (infos st).
Proof.
  destruct wrapSet_run as (st & st' & _ & _ & Hc & _).
  exists st'. split; [ exact Hc | ].
  exact (proj1 (placements_start_on_canvas wrapSet st' Hc)).
Defined.

(** ** The control table of small frames *)

(** Property X7.  When every frame's raster lies within 8192 pixels of the
    origin and its delay and action are single bytes, the control table
    written for the composition is read back as the FrameInfo list
    itself. *)
Theorem small_frames_read_back (anims : list Animation) (st : Composer) :
  compose anims = Some st ->
  Forall smallFrame (allFrames anims) ->
  decodeControlTable (controlTable (infos st)) = Some (infos st).
Proof.
  intros Hc Hs. rewrite decodeControlTable_controlTable. f_equal.
  apply map_truncInfo_id. exact (small_frames_fit _ _ Hc Hs).
Qed.

Lemma small_frames_read_back_witness :
  exists st, compose wrapSet = Some st /\
             decodeControlTable (controlTable (infos st)) = Some (infos st).
Proof.
  destruct wrapSet_run as (st & st' & _ & _ & Hc & _).
  exists st'. split; [ exact Hc | ].
  apply (small_frames_read_back wrapSet st' Hc).
  repeat (apply Forall_cons;
          [ unfold smallFrame, fitsUint8; cbn; repeat split; lia | ]).
  apply Forall_nil.
Defined.

(** ** What the composition leaves alone *)

Lemma composeFrames_outside x y fs : forall st st',
  composeFrames st fs = Some st' ->
  (forall i, In i (infos st') -> PointIn x y (BBox i) = false) ->
  Pix (spriteImg st') x y = Pix (spriteImg st) x y.
Proof.
  induction fs as [ | f fs IH ]; intros st st' H Hout; cbn [composeFrames] in H.
  - inv H. reflexivity.
  - destruct (composeFrame st f) as [ st1 | ] eqn:E1; [ | discriminate ].
    rewrite (IH _ _ H Hout).
    destruct (composeFrames_infos _ _ _ H) as (more & Hmore & _).
    destruct (composeFrame_inv _ _ _ E1) as (trim & l & t & c' & _ & _ & Hd & ->).
    cbn [spriteImg infos] in *.
    rewrite (Draw_outside _ _ _ _ _ Hd); [ reflexivity | ].
    set (new := mkFrameInfo (placement l t trim) _ _ _) in *.
    apply (Hout new). rewrite Hmore. apply in_or_app. left. apply in_or_app. right. left. reflexivity.
Qed.

(** Property X8.  A canvas pixel that lies in no placement rectangle still
    has the index 0 that [image.NewPaletted] gave it. *)
Theorem pixels_outside_boxes_stay_zero (anims : list Animation) (st : Composer) (x y : Z) :
  compose anims = Some st ->
  (forall i, In i (infos st) -> PointIn x y (BBox i) = false) ->
  Pix (spriteImg st) x y = 0.
Proof.
  unfold compose. rewrite composeAnims_flat. intros Hc Hout.
  rewrite (composeFrames_outside x y _ _ _ Hc Hout). reflexivity.
Qed.

Lemma pixels_outside_boxes_stay_zero_witness :
  exists st, compose wrapSet = Some st /\ Pix (spriteImg st) 1 0 = 0.
Proof.
  destruct wrapSet_run as (st & st' & _ & _ & Hc & _ & _ & _ & _ & Hi).
  exists st'. split; [ exact Hc | ].
  apply (pixels_outside_boxes_stay_zero wrapSet st' 1 0 Hc).
  rewrite Hi. intros i [ <- | [ <- | [ <- | [] ] ] ]; reflexivity.
Defined.

(** ** A sprite set without frames *)

(** Property X9.  For a sprite set without frames the canvas keeps its nil
    palette, and [processOne] panics in [FindBbox(spriteImg)] on line 133
    before any file is created. *)
Theorem no_frames_panics (env : Env) (idx : Z) (anims : list Animation) :
  allFrames anims = [] ->
  processOne env idx anims = mkJobResult Panicked None [].
Proof.
  intros Hnil. unfold processOne, compose.
  rewrite composeAnims_flat, Hnil. cbn [composeFrames].
  replace (FindBbox (asImage (spriteImg initComposer))) with (@None Rectangle)
    by (vm_compute; reflexivity).
  reflexivity.
Qed.

Lemma no_frames_panics_witness :
  processOne (quietEnv []) 7 [mkAnimation []; mkAnimation []] = mkJobResult Panicked None [].
Proof. apply no_frames_panics. reflexivity. Defined.

(** ** The composition of well-formed frames *)

Lemma Paletted_RGBA64At_valid p x y :
  (PointIn x y (PRect p) = true ->
   (Z.to_nat (Pix p x y) < List.length (Palette p))%nat) ->
  Paletted_RGBA64At p x y <> None.
Proof.
  unfold Paletted_RGBA64At. intros H.
  destruct (Palette p) as [ | c0 pal ] eqn:Ep; [ discriminate | ].
  destruct (PointIn x y (PRect p)).
  - apply nth_error_Some in H; [ | reflexivity ].
    destruct (nth_error (c0 :: pal) _) as [ c | ]; [ | congruence ].
    cbn. destruct (Color_RGBA c) as [ [ [ r g ] b ] a ]. discriminate.
  - cbn. destruct (Color_RGBA c0) as [ [ [ r g ] b ] a ]. discriminate.
Qed.

Lemma safe_validPix p : safe (asImage p) -> validPix p.
Proof.
  intros Hs x y Hin. specialize (Hs x y Hin). cbn [At asImage] in Hs.
  unfold Paletted_At in Hs. destruct (Palette p) as [ | c0 pal ]; [ congruence | ].
  cbn [Bounds asImage] in Hin. rewrite Hin in Hs. apply nth_error_Some. exact Hs.
Qed.

Lemma validPix_safe p : Palette p <> [] -> validPix p -> safe (asImage p).
Proof.
  intros Hne Hv x y Hin. cbn [At asImage Bounds] in *. unfold Paletted_At.
  destruct (Palette p) as [ | c0 pal ] eqn:Ep; [ congruence | ].
  rewrite Hin. rewrite <- Ep. apply nth_error_Some. apply Hv. exact Hin.
Qed.

Lemma IndexFrom_range c p : forall i ret best,
  IndexFrom p c i ret best = ret \/
  i <= IndexFrom p c i ret best < i + Z.of_nat (List.length p).
Proof.
  induction p as [ | v p IH ]; intros i ret best; cbn [IndexFrom]; [ left; reflexivity | ].
  cbn [List.length]. rewrite Nat2Z.inj_succ.
  destruct (colorDist c (Color_RGBA v) <? best).
  - destruct (colorDist c (Color_RGBA v) =? 0); [ right; lia | ].
    destruct (IH (i + 1) i (colorDist c (Color_RGBA v))) as [ -> | H ]; right; lia.
  - destruct (IH (i + 1) ret best) as [ -> | H ]; [ left; reflexivity | right; lia ].
Qed.

Lemma Palette_Index_lt p c :
  p <> [] -> 0 <= Palette_Index p c < Z.of_nat (List.length p).
Proof.
  intros Hne. unfold Palette_Index.
  destruct (IndexFrom_range c p 0 0 (4294967296 - 1)) as [ -> | H ]; [ | lia ].
  destruct p; [ congruence | cbn [List.length]; lia ].
Qed.

Lemma uint8_Palette_Index_lt p c :
  p <> [] -> (Z.to_nat (uint8 (Palette_Index p c)) < List.length p)%nat.
Proof.
  intros Hne. pose proof (Palette_Index_lt p c Hne) as Hi.
  unfold uint8. pose proof (Z.mod_pos_bound (Palette_Index p c) 256 ltac:(lia)).
  assert (Palette_Index p c mod 256 <= Palette_Index p c) by (apply Z.mod_le; lia). lia.
Qed.

Lemma drawPixel_lt dst src x y sx sy i :
  drawPixel dst src x y sx sy = Some i -> Palette dst <> [] ->
  (Z.to_nat i < List.length (Palette dst))%nat.
Proof.
  unfold drawPixel. intros H Hne.
  destruct (Paletted_RGBA64At src sx sy) as [ [ [ [ sr sg ] sb ] sa ] | ]; [ | discriminate ].
  destruct (Paletted_RGBA64At dst x y) as [ [ [ [ dr dg ] db ] da ] | ]; [ | discriminate ].
  apply (f_equal (fun o => match o with Some v => v | None => i end)) in H.
  cbv beta iota zeta in H. rewrite <- H. apply uint8_Palette_Index_lt. exact Hne.
Qed.

Lemma Draw_valid dst r src sp :
  validPix dst -> validPix src -> exists dst', Draw dst r src sp = Some dst'.
Proof.
  intros Hd Hs. unfold Draw, clip.
  set (r' := Intersect (Intersect r (PRect dst)) _).
  destruct (Empty r'); [ eexists; reflexivity | ].
  match goal with |- context [rectAll r' ?t] => assert (Hall : rectAll r' t = true) end.
  { apply rectAll_spec. intros x y Hin. unfold drawPixel.
    match goal with |- context [Paletted_RGBA64At src ?sx ?sy] =>
      pose proof (Paletted_RGBA64At_valid src sx sy (Hs sx sy)) as H1;
      destruct (Paletted_RGBA64At src sx sy) as [ [ [ [ sr sg ] sb ] sa ] | ]; [ | congruence ]
    end.
    pose proof (Paletted_RGBA64At_valid dst x y (Hd x y)) as H2.
    destruct (Paletted_RGBA64At dst x y) as [ [ [ [ dr dg ] db ] da ] | ]; [ | congruence ].
    reflexivity. }
  rewrite Hall. eexists. reflexivity.
Qed.

Lemma Draw_pix dst r src sp dst' x y :
  Draw dst r src sp = Some dst' ->
  Pix dst' x y = Pix dst x y \/
  exists sx sy, drawPixel dst src x y sx sy = Some (Pix dst' x y).
Proof.
  unfold Draw, clip.
  set (r' := Intersect (Intersect r (PRect dst)) _).
  destruct (Empty r'); [ intros H; inv H; left; reflexivity | ].
  destruct (rectAll _ _); [ | discriminate ]. intros H. inv H. cbn [Pix].
  destruct (PointIn x y r'); [ | left; reflexivity ].
  match goal with |- context [drawPixel dst src x y ?sx ?sy] =>
    destruct (drawPixel dst src x y sx sy) as [ i | ] eqn:E;
      [ right; exists sx, sy; exact E | left; reflexivity ]
  end.
Qed.

Lemma canvasInv_step n st f :
  (0 < n)%nat -> canvasInv n st -> wellFormed n f ->
  exists st', composeFrame st f = Some st' /\ canvasInv n st' /\
              List.length (Palette (spriteImg st')) = n.
Proof.
  intros Hn (Hrect & Hpix) (Hlen & Hsafe).
  set (img := MakeImage f) in *.
  set (canvas := setPalette (spriteImg st) (Palette img)).
  assert (Hne : Palette canvas <> []).
  { cbn [canvas Palette setPalette]. intros E. rewrite E in Hlen. cbn in Hlen. lia. }
  assert (Hvc : validPix canvas).
  { intros x y Hin. cbn [canvas PRect Pix Palette setPalette] in *.
    rewrite Hrect in Hin. rewrite Hlen. apply Hpix. exact Hin. }
  destruct (FindBbox_total _ Hsafe) as (trim & Htrim).
  assert (Hw : exists l t, wrapCursor st canvas (Dx trim) = Some (l, t)).
  { unfold wrapCursor. destruct (left st + Dx trim >? Dx (PRect canvas)).
    - destruct (FindBbox_total (asImage canvas)) as (cb & Hcb);
        [ apply validPix_safe; assumption | ].
      rewrite Hcb. cbn. eauto.
    - eauto. }
  destruct Hw as (l & t & Hw).
  destruct (Draw_valid canvas (placement l t trim) img (Min trim) Hvc (safe_validPix _ Hsafe))
    as (canvas' & Hd).
  eexists. split.
  { unfold composeFrame. fold img. fold canvas. rewrite Htrim. cbn beta iota.
    rewrite Hw. cbn beta iota. unfold placement in Hd. rewrite Hd. reflexivity. }
  cbn [spriteImg]. split.
  - split; cbn [spriteImg].
    + rewrite (Draw_PRect _ _ _ _ _ Hd). exact Hrect.
    + intros x y Hin.
      destruct (Draw_pix _ _ _ _ _ x y Hd) as [ -> | (sx & sy & Hpx) ].
      * cbn [canvas Pix setPalette]. apply Hpix. exact Hin.
      * apply drawPixel_lt in Hpx; [ | exact Hne ].
        cbn [canvas Palette setPalette] in Hpx. rewrite Hlen in Hpx. exact Hpx.
  - rewrite (Draw_Palette _ _ _ _ _ Hd). exact Hlen.
Qed.

Lemma canvasInv_frames n fs : forall st,
  (0 < n)%nat -> canvasInv n st -> Forall (wellFormed n) fs ->
  exists st', composeFrames st fs = Some st' /\ canvasInv n st' /\
              (fs <> [] -> List.length (Palette (spriteImg st')) = n).
Proof.
  induction fs as [ | f fs IH ]; intros st Hn Hinv Hwf; cbn [composeFrames].
  - exists st. split; [ reflexivity | ]. split; [ assumption | congruence ].
  - apply Forall_cons_iff in Hwf. destruct Hwf as (Hf & Hfs).
    destruct (canvasInv_step n st f Hn Hinv Hf) as (st1 & E1 & Hinv1 & Hlen1).
    rewrite E1. cbn beta iota.
    destruct (IH st1 Hn Hinv1 Hfs) as (st' & E' & Hinv' & Hlen').
    exists st'. split; [ exact E' | ]. split; [ exact Hinv' | ]. intros _.
    destruct fs as [ | g gs ]; [ | apply Hlen'; discriminate ].
    cbn [composeFrames] in E'. injection E' as <-. exact Hlen1.
Qed.

Lemma canvasInv_init n : (0 < n)%nat -> canvasInv n initComposer.
Proof. intros Hn. split; [ reflexivity | ]. intros x y _. cbn. lia. Qed.

Lemma canvasInv_safe n st :
  (0 < n)%nat -> canvasInv n st -> List.length (Palette (spriteImg st)) = n ->
  safe (asImage (spriteImg st)).
Proof.
  intros Hn (Hrect & Hpix) Hlen. apply validPix_safe.
  - intros E. rewrite E in Hlen. cbn in Hlen. lia.
  - intros x y Hin. rewrite Hrect in Hin. rewrite Hlen. apply Hpix. exact Hin.
Qed.

Lemma compose_wellFormed n anims :
  (0 < n)%nat ->
  Forall (wellFormed n) (allFrames anims) ->
  exists st, compose anims = Some st /\
             (allFrames anims <> [] -> safe (asImage (spriteImg st))).
Proof.
  intros Hn Hwf. unfold compose. rewrite composeAnims_flat.
  destruct (canvasInv_frames n (allFrames anims) initComposer Hn (canvasInv_init n Hn) Hwf)
    as (st & Hc & Hinv & Hlen).
  exists st. split; [ exact Hc | ]. intros Hne.
  apply (canvasInv_safe n); auto.
Qed.

Lemma wellFormed_solid w h : wellFormed 2 (solidFrame w h).
Proof.
  split; [ reflexivity | ].
  apply validPix_safe; [ discriminate | ]. intros x y _. cbn. lia.
Qed.

(** Property X10.  When every frame's raster can be read and all rasters
    have palettes of one length [n > 0], the composition loop does not
    panic; and with at least one frame every pixel of the canvas it leaves
    can be read. *)
Theorem composition_never_panics (n : nat) (anims : list Animation) :
  (0 < n)%nat ->
  Forall (wellFormed n) (allFrames anims) ->
  exists st, compose anims = Some st /\
             (allFrames anims <> [] -> safe (asImage (spriteImg st))).
Proof. exact (compose_wellFormed n anims). Qed.

Lemma composition_never_panics_witness :
  exists st, compose wrapSet = Some st /\ safe (asImage (spriteImg st)).
Proof.
  destruct (composition_never_panics 2 wrapSet) as (st & Hc & Hs).
  - lia.
  - repeat (apply Forall_cons; [ apply wellFormed_solid | ]). apply Forall_nil.
  - exists st. split; [ exact Hc | ]. apply Hs. discriminate.
Defined.

(** ** Failures in the chunk loop *)

Lemma paletteEntries_isRGBA pal es :
  paletteEntries pal = Some es -> Forall (fun c => isRGBA c = true) pal.
Proof.
  revert es. induction pal as [ | c pal IH ]; intros es H; [ constructor | ].
  cbn [paletteEntries] in H. destruct c; try discriminate.
  cbn [paletteEntry] in H. cbn beta iota in H.
  destruct (paletteEntries pal) as [ es' | ]; [ | discriminate ].
  constructor; [ reflexivity | eapply IH; reflexivity ].
Qed.

Lemma paletteDump_Some pal buf :
  paletteDump pal = Some buf ->
  Forall (fun c => isRGBA c = true) pal /\ buf = paletteBytes pal.
Proof.
  intros H. assert (Hall : Forall (fun c => isRGBA c = true) pal).
  { unfold paletteDump in H. destruct (paletteEntries pal) as [ es | ] eqn:E; [ | discriminate ].
    eapply paletteEntries_isRGBA; eassumption. }
  split; [ exact Hall | ]. rewrite (paletteDump_RGBA pal Hall) in H. congruence.
Qed.

Lemma firstn_app_more {A} (l rest : list A) k :
  l ++ firstn k rest = firstn (List.length l + k) (l ++ rest).
Proof.
  symmetry. apply firstn_app_2.
Qed.

(** The outcome of one turn of the loop on a chunk: it fails or panics
    having written the first [k] chunks of [rewritten], or it has written
    them all and goes on. *)
Lemma loop_turn werr pal infos c rest out :
  (exists k r,
     rewriteChunks werr pal infos (mkReadResult (Some c) None :: rest) out =
       (r, out ++ firstn k (rewritten (paletteBytes pal) infos c)) /\ r <> Ok tt) \/
  rewriteChunks werr pal infos (mkReadResult (Some c) None :: rest) out =
    rewriteChunks werr pal infos rest (out ++ rewritten (paletteBytes pal) infos c).
Proof.
  cbn [rewriteChunks rerr rchunk]. unfold rewritten, isTRNS.
  destruct (String.eqb (ChunkType (chunkOf c)) "tRNS");
    cbv [bind WriteChunk writePaletteDump writeControlTable check ret panic];
    (destruct (werr (List.length out)) as [ e | ];
     [ left; exists 0%nat, (Fail e); cbn [firstn]; rewrite app_nil_r;
       split; [ reflexivity | discriminate ] | ]).
  - destruct (paletteDump pal) as [ buf | ] eqn:Ep.
    + destruct (paletteDump_Some _ _ Ep) as (_ & ->).
      destruct (werr (List.length (out ++ [chunkOf c]))) as [ e | ].
      { left. exists 1%nat, (Fail e). split; [ reflexivity | discriminate ]. }
      destruct (werr (List.length ((out ++ [chunkOf c]) ++ _))) as [ e | ].
      { left. exists 2%nat, (Fail e). cbn [firstn]. rewrite <- app_assoc.
        split; [ reflexivity | discriminate ]. }
      destruct (closeErr c) as [ e | ].
      { left. exists 3%nat, (Fail e). cbn [firstn]. rewrite <- !app_assoc.
        split; [ reflexivity | discriminate ]. }
      right. rewrite <- !app_assoc. reflexivity.
    + left. exists 1%nat, Panicked. split; [ reflexivity | discriminate ].
  - destruct (closeErr c) as [ e | ].
    { left. exists 1%nat, (Fail e). split; [ reflexivity | discriminate ]. }
    right. reflexivity.
Qed.

Lemma rewriteChunks_drops_error werr pal infos oc e rest :
  isEOF e = false ->
  rewriteChunks werr pal infos (mkReadResult oc (Some e) :: rest) =
  rewriteChunks werr pal infos (mkReadResult oc None :: rest).
Proof. intros H. cbn [rewriteChunks rerr rchunk]. rewrite H. reflexivity. Qed.

Lemma loop_prefix werr pal infos reads : forall out,
  exists k,
    snd (rewriteChunks werr pal infos reads out) =
      out ++ firstn k (expected pal infos reads) /\
    (fst (rewriteChunks werr pal infos reads out) = Ok tt ->
     snd (rewriteChunks werr pal infos reads out) = out ++ expected pal infos reads).
Proof.
  induction reads as [ | [ oc oe ] rest IH ]; intros out.
  - exists 0%nat. cbn. rewrite app_nil_r. auto.
  - assert (Hstop : forall r, r <> Ok tt \/ expected pal infos (mkReadResult oc oe :: rest) = [] ->
              rewriteChunks werr pal infos (mkReadResult oc oe :: rest) out = (r, out) ->
              exists k,
                snd (rewriteChunks werr pal infos (mkReadResult oc oe :: rest) out) =
                  out ++ firstn k (expected pal infos (mkReadResult oc oe :: rest)) /\
                (fst (rewriteChunks werr pal infos (mkReadResult oc oe :: rest) out) = Ok tt ->
                 snd (rewriteChunks werr pal infos (mkReadResult oc oe :: rest) out) =
                   out ++ expected pal infos (mkReadResult oc oe :: rest))).
    { intros r Hr E. exists 0%nat. rewrite E. cbn [fst snd firstn]. rewrite app_nil_r.
      split; [ reflexivity | ]. intros ->. destruct Hr as [ Hr | -> ]; [ congruence | ].
      rewrite app_nil_r. reflexivity. }
    destruct (match oe with Some e => isEOF e | None => false end) eqn:Eeof.
    { apply (Hstop (Ok tt)).
      - right. unfold expected. cbn [readChunks rerr]. rewrite Eeof. reflexivity.
      - cbn [rewriteChunks rerr]. rewrite Eeof. reflexivity. }
    destruct oc as [ c | ].
    2:{ apply (Hstop Panicked); [ left; discriminate | ].
        cbn [rewriteChunks rerr rchunk]. rewrite Eeof. reflexivity. }
    assert (Hsame : rewriteChunks werr pal infos (mkReadResult (Some c) oe :: rest) =
                    rewriteChunks werr pal infos (mkReadResult (Some c) None :: rest)).
    { destruct oe as [ e | ]; [ apply rewriteChunks_drops_error; exact Eeof | reflexivity ]. }
    assert (Hexp : expected pal infos (mkReadResult (Some c) oe :: rest) =
                   rewritten (paletteBytes pal) infos c ++ expected pal infos rest).
    { unfold expected. cbn [readChunks rerr rchunk]. rewrite Eeof. reflexivity. }
    rewrite Hsame, Hexp.
    destruct (loop_turn werr pal infos c rest out) as [ (k & r & E & Hr) | E ]; rewrite E.
    + exists (Nat.min k (List.length (rewritten (paletteBytes pal) infos c))).
      cbn [fst snd]. split; [ | congruence ]. f_equal.
      rewrite firstn_app.
      replace (Nat.min k _ - _)%nat with 0%nat by lia. cbn [firstn]. rewrite app_nil_r.
      rewrite <- firstn_firstn. rewrite firstn_all. reflexivity.
    + destruct (IH (out ++ rewritten (paletteBytes pal) infos c)) as (k & Hk & Hok).
      exists (List.length (rewritten (paletteBytes pal) infos c) + k)%nat.
      split.
      * rewrite Hk, <- firstn_app_more, <- app_assoc. reflexivity.
      * intros Hfst. rewrite (Hok Hfst), <- app_assoc. reflexivity.
Qed.

(** Property X11.  Whatever fails in the chunk loop, the chunks in the
    output file are the first [k] of the stream the loop is to write for
    the chunks it takes from the reader; and when the loop returns without
    an error they are all of it. *)
Theorem loop_writes_a_prefix (werr : nat -> option error) (pal : list Color)
    (infos : list FrameInfo) (reads : list ReadResult) :
  (exists k, snd (rewriteChunks werr pal infos reads []) =
             firstn k (expected pal infos reads)) /\
  (fst (rewriteChunks werr pal infos reads []) = Ok tt ->
   snd (rewriteChunks werr pal infos reads []) = expected pal infos reads).
Proof.
  destruct (loop_prefix werr pal infos reads []) as (k & Hk & Hok).
  split; [ exists k; exact Hk | exact Hok ].
Qed.

Lemma loop_no_panic werr pal infos reads : forall out,
  Forall (fun c => isRGBA c = true) pal ->
  Forall carriesChunk reads ->
  fst (rewriteChunks werr pal infos reads out) <> Panicked.
Proof.
  intros out Hpal Hreads. revert out.
  induction Hreads as [ | [ oc oe ] rest Hrd _ IH ]; intros out; [ discriminate | ].
  destruct (match oe with Some e => isEOF e | None => false end) eqn:Eeof.
  { cbn [rewriteChunks rerr]. rewrite Eeof. discriminate. }
  destruct oc as [ c | ].
  2:{ destruct Hrd as [ Hrd | Hrd ]; cbn in Hrd; [ congruence | ].
      subst oe. discriminate. }
  assert (Hsame : rewriteChunks werr pal infos (mkReadResult (Some c) oe :: rest) =
                  rewriteChunks werr pal infos (mkReadResult (Some c) None :: rest)).
  { destruct oe as [ e | ]; [ apply rewriteChunks_drops_error; exact Eeof | reflexivity ]. }
  rewrite Hsame. clear Hsame.
  cbn [rewriteChunks rerr rchunk].
  destruct (String.eqb (ChunkType (chunkOf c)) "tRNS");
    cbv [bind WriteChunk writePaletteDump writeControlTable check ret panic];
    (destruct (werr (List.length out)); [ discriminate | ]).
  - rewrite (paletteDump_RGBA pal Hpal).
    destruct (werr (List.length (out ++ [chunkOf c]))); [ discriminate | ].
    destruct (werr (List.length ((out ++ [chunkOf c]) ++ _))); [ discriminate | ].
    destruct (closeErr c); [ discriminate | ]. apply IH.
  - destruct (closeErr c); [ discriminate | ]. apply IH.
Qed.

(** ** The palette dump *)

Lemma paletteBytes_inj pal : forall pal',
  Forall (fun c => isRGBA c = true) pal -> Forall (fun c => isRGBA c = true) pal' ->
  paletteBytes pal = paletteBytes pal' -> pal = pal'.
Proof.
  unfold paletteBytes. intros pal' H H' E. apply app_inv_head in E.
  revert pal' H' E. induction H as [ | c l Hc _ IH ]; intros pal' H' E.
  - destruct H' as [ | c' l' Hc' _ ]; [ reflexivity | ].
    destruct c'; discriminate.
  - destruct H' as [ | c' l' Hc' Hl' ].
    + destruct c; discriminate.
    + destruct c; try discriminate. destruct c'; try discriminate.
      cbn [flat_map app] in E. injection E as -> -> -> -> E.
      f_equal. apply IH; assumption.
Qed.

(** Property X12.  The palette-dump buffer determines the palette: two
    palettes with the same buffer are equal. *)
Theorem palette_dump_is_injective (pal pal' : list Color) (buf : list Z) :
  paletteDump pal = Some buf -> paletteDump pal' = Some buf -> pal = pal'.
Proof.
  intros H H'. destruct (paletteDump_Some _ _ H) as (Hp & ->).
  destruct (paletteDump_Some _ _ H') as (Hp' & E).
  apply paletteBytes_inj; assumption.
Qed.

Lemma paletteDump_length pal buf :
  paletteDump pal = Some buf -> List.length buf = (6 + 6 * List.length pal)%nat.
Proof.
  intros H. destruct (paletteDump_Some _ _ H) as (Hp & _).
  destruct (paletteEntries_Some pal Hp) as (es & Hes & Hlen).
  assert (E : paletteDump pal = Some (paletteHeader ++ es))
    by (unfold paletteDump; rewrite Hes; reflexivity).
  assert (buf = paletteHeader ++ es) as -> by congruence.
  rewrite length_app, Hlen. reflexivity.
Qed.

(** Property X13.  The palette dump is 6 + 6n bytes for n colours and the
    control table 8 + 14m bytes for m frames, and the length fields of the
    two chunks say so (for fewer than 2^28 colours and 2^27 frames, which
    the [int32] conversion of [buf.Len()] holds). *)
Theorem synthesized_chunk_lengths (pal : list Color) (infos : list FrameInfo) (buf : list Z) :
  paletteDump pal = Some buf ->
  Z.of_nat (List.length pal) < 2 ^ 28 -> Z.of_nat (List.length infos) < 2 ^ 27 ->
  Length (paletteChunk buf) = 6 + 6 * Z.of_nat (List.length pal) /\
  Z.of_nat (List.length (Data (paletteChunk buf))) = Length (paletteChunk buf) /\
  Length (controlChunk infos) = 8 + 14 * Z.of_nat (List.length infos) /\
  Z.of_nat (List.length (Data (controlChunk infos))) = Length (controlChunk infos).
Proof.
  intros H Hp Hi. unfold paletteChunk, controlChunk, bufLen. cbn [Length Data].
  rewrite (paletteDump_length _ _ H), controlTable_length.
  unfold int32. rewrite !Z.mod_small by lia. lia.
Qed.

Lemma synthesized_chunk_lengths_witness :
  Length (paletteChunk (paletteBytes twoTone)) = 18 /\
  Length (controlChunk []) = 8.
Proof.
  destruct (synthesized_chunk_lengths twoTone [] (paletteBytes twoTone))
    as (H1 & _ & H2 & _); [ reflexivity | cbn; lia | cbn; lia | ].
  split; [ exact H1 | exact H2 ].
Defined.

(** ** When processOne creates a file *)

Lemma SubImage_tight p bb :
  Empty bb = false ->
  X (Min (PRect p)) <= X (Min bb) -> Y (Min (PRect p)) <= Y (Min bb) ->
  X (Max bb) <= X (Max (PRect p)) -> Y (Max bb) <= Y (Max (PRect p)) ->
  SubImage p bb = mkPaletted (Pix p) bb (Palette p).
Proof.
  intros Hne H1 H2 H3 H4. unfold SubImage.
  rewrite Intersect_inside by assumption. rewrite Hne. reflexivity.
Qed.

Lemma canvas_ink_box img bb :
  FindBbox img = Some bb ->
  (Empty bb = false <-> exists x y, opaqueAt img x y).
Proof.
  intros Hb. split.
  - intros Hne. destruct (FindBbox_edges _ _ Hb Hne) as (_ & (y & Hy) & _). eauto.
  - intros (x & y & Hxy). pose proof (FindBbox_covers _ _ _ _ Hb Hxy) as Hin.
    apply PointIn_iff in Hin. apply Empty_false_iff. lia.
Qed.

(** Property X14.  After a composition whose canvas can be read,
    [processOne] creates [sprites/idx.png] exactly when [os.Create]
    succeeds and the canvas has an opaque pixel; when the canvas has one
    and [os.Create] fails, the job returns that error and writes
    nothing. *)
Theorem file_created_iff_ink (env : Env) (idx : Z) (anims : list Animation) (st : Composer) :
  compose anims = Some st ->
  safe (asImage (spriteImg st)) ->
  (created (processOne env idx anims) = Some idx <->
   createErr env = None /\ exists x y, opaqueAt (asImage (spriteImg st)) x y) /\
  (forall e, createErr env = Some e ->
             (exists x y, opaqueAt (asImage (spriteImg st)) x y) ->
             processOne env idx anims = mkJobResult (Fail e) None []).
Proof.
  intros Hc Hsafe. destruct (FindBbox_total _ Hsafe) as (bb & Hb).
  pose proof (canvas_ink_box _ _ Hb) as Hink.
  unfold processOne. rewrite Hc, Hb.
  destruct (Empty bb) eqn:Hne.
  - unfold SubImage. rewrite (Intersect_Empty_l _ _ Hne). cbn.
    split.
    + split; [ discriminate | ]. intros (_ & H). apply Hink in H. discriminate.
    + intros e _ H. apply Hink in H. discriminate.
  - destruct (FindBbox_edges _ _ Hb Hne) as (Hin & _). cbn [Bounds asImage] in Hin.
    rewrite SubImage_tight by (assumption || lia). cbn [PRect].
    apply Empty_false_iff in Hne.
    replace (Dx bb =? 0) with false by (symmetry; apply Z.eqb_neq; unfold Dx; lia).
    replace (Dy bb =? 0) with false by (symmetry; apply Z.eqb_neq; unfold Dy; lia).
    cbn [orb]. destruct (createErr env) as [ e | ].
    + split.
      * split; [ discriminate | ]. intros (H & _). discriminate.
      * intros e' He' _. injection He' as <-. reflexivity.
    + split; [ | discriminate ].
      match goal with |- context [let '(r, out) := ?m in _] => destruct m as [ r out ] end.
      cbn [created]. split; [ | reflexivity ].
      intros _. split; [ reflexivity | ]. apply Hink. reflexivity.
Qed.

(** ** processOne on well-formed input *)

(** Property X15.  [processOne] does not panic on a sprite set with at
    least one frame whose rasters can be read and have palettes of one
    length [n > 0], whose last frame has a palette of [color.RGBA]
    entries, and whose chunk reader hands over a chunk with every result
    but [io.EOF]. *)
Theorem processOne_never_panics (n : nat) (env : Env) (idx : Z) (anims : list Animation) :
  (0 < n)%nat ->
  allFrames anims <> [] ->
  Forall (wellFormed n) (allFrames anims) ->
  Forall (fun c => isRGBA c = true) (last (map FramePalette (allFrames anims)) []) ->
  (forall img, Forall carriesChunk (pngEncode env img)) ->
  result (processOne env idx anims) <> Panicked.
Proof.
  intros Hn Hne Hwf Hpal Hreads.
  destruct (compose_wellFormed n anims Hn Hwf) as (st & Hc & Hsafe).
  destruct (FindBbox_total _ (Hsafe Hne)) as (bb & Hb).
  assert (Hfp : fullPalette st = last (map FramePalette (allFrames anims)) []).
  { unfold compose in Hc. rewrite composeAnims_flat in Hc.
    rewrite (composeFrames_fullPalette _ _ _ Hc). reflexivity. }
  unfold processOne. rewrite Hc, Hb.
  destruct (_ || _); [ discriminate | ].
  destruct (createErr env); [ discriminate | ].
  cbv [bind check].
  destruct (newReaderErr env); [ discriminate | ].
  destruct (newWriterErr env); [ discriminate | ].
  pose proof (loop_no_panic (writeErr env) (fullPalette st) (infos st)
                (pngEncode env (SubImage (spriteImg st) bb)) []
                ltac:(rewrite Hfp; exact Hpal) (Hreads _)) as Hloop.
  destruct (rewriteChunks _ _ _ _ _) as [ [ [] | e | ] out ]; cbn [fst] in Hloop.
  - destruct (encodeErr env _); discriminate.
  - discriminate.
  - congruence.
Qed.

Lemma wrapSet_safe :
  exists st, compose wrapSet = Some st /\ safe (asImage (spriteImg st)) /\
             opaqueAt (asImage (spriteImg st)) 0 0.
Proof.
  destruct (compose_wellFormed 2 wrapSet) as (st & Hc & Hs).
  - lia.
  - repeat (apply Forall_cons; [ apply wellFormed_solid | ]). apply Forall_nil.
  - exists st. split; [ exact Hc | ]. split; [ apply Hs; discriminate | ].
    assert (H : (st <- compose wrapSet ;; opaque (asImage (spriteImg st)) 0 0) = Some true)
      by (vm_compute; reflexivity).
    rewrite Hc in H. split; [ | exact H ].
    cbn [Bounds asImage]. rewrite (compose_rect _ _ Hc). reflexivity.
Qed.

Lemma file_created_iff_ink_witness :
  created (processOne (quietEnv (map okRead sampleStream)) 7 wrapSet) = Some 7.
Proof.
  destruct wrapSet_safe as (st & Hc & Hs & Hink).
  apply (proj1 (file_created_iff_ink (quietEnv (map okRead sampleStream)) 7 wrapSet st Hc Hs)).
  split; [ reflexivity | ]. exists 0, 0. exact Hink.
Defined.

Lemma processOne_never_panics_witness :
  exists r, result (processOne (quietEnv (map okRead sampleStream)) 7 wrapSet) = r /\
            r <> Panicked.
Proof.
  eexists. split; [ reflexivity | ].
  apply (processOne_never_panics 2).
  - lia.
  - discriminate.
  - repeat (apply Forall_cons; [ apply wellFormed_solid | ]). apply Forall_nil.
  - repeat constructor.
  - intros img. repeat (apply Forall_cons; [ left; discriminate | ]). apply Forall_nil.
Defined.

(** ** The sheet holds the opaque pixels of the frames *)

Lemma sqDiff_small x y :
  0 <= x <= 65535 -> 0 <= y <= 65535 -> sqDiff x y = (x - y) * (x - y) / 4.
Proof.
  intros Hx Hy. unfold sqDiff, uint32.
  rewrite Z.shiftr_div_pow2 by lia. change (2 ^ 2) with 4.
  rewrite <- (Z.mul_mod (x - y) (x - y) 4294967296) by lia.
  set (d := x - y). assert (Hd : -65535 <= d <= 65535) by (unfold d; lia).
  assert (Hdd : 0 <= d * d <= 4294836225) by nia.
  rewrite Z.mod_small by lia. reflexivity.
Qed.

Lemma sqDiff_zero_widen u v :
  isUint8 u = true -> isUint8 v = true -> sqDiff (widen u) (widen v) = 0 -> u = v.
Proof.
  intros Hu Hv. rewrite (widen_spec u Hu), (widen_spec v Hv).
  unfold isUint8 in Hu, Hv. apply andb_true_iff in Hu, Hv.
  destruct Hu as (Hu0 & Hu1), Hv as (Hv0 & Hv1).
  apply Z.leb_le in Hu0, Hv0. apply Z.ltb_lt in Hu1, Hv1.
  rewrite sqDiff_small by lia. intros H.
  assert (Hsq : (257 * u - 257 * v) * (257 * u - 257 * v) < 4).
  { apply Z.div_small_iff in H; lia. }
  nia.
Qed.

Lemma colorDist_zero_all cr cg cb ca vr vg vb va :
  colorDist (cr, cg, cb, ca) (vr, vg, vb, va) = 0 ->
  sqDiff cr vr = 0 /\ sqDiff cg vg = 0 /\ sqDiff cb vb = 0 /\ sqDiff ca va = 0.
Proof.
  unfold colorDist, uint32.
  pose proof (sqDiff_bound cr vr). pose proof (sqDiff_bound cg vg).
  pose proof (sqDiff_bound cb vb). pose proof (sqDiff_bound ca va).
  intros Hz. rewrite Z.mod_small in Hz by lia. lia.
Qed.

Lemma binaryAlpha_same c v :
  binaryAlpha c = true -> binaryAlpha v = true ->
  colorDist (Color_RGBA c) (Color_RGBA v) = 0 -> c = v.
Proof.
  intros Hc Hv.
  destruct (binaryAlpha_inv c Hc) as (r & g & b & a & -> & Hr & Hg & Hb & Ha).
  destruct (binaryAlpha_inv v Hv) as (r' & g' & b' & a' & -> & Hr' & Hg' & Hb' & Ha').
  cbn [Color_RGBA]. intros H. apply colorDist_zero_all in H.
  destruct H as (H1 & H2 & H3 & H4).
  apply sqDiff_zero_widen in H1, H2, H3; try assumption.
  apply sqDiff_zero_widen in H4;
    [ | destruct Ha as [ -> | -> ]; reflexivity | destruct Ha' as [ -> | -> ]; reflexivity ].
  congruence.
Qed.

(** The index stored for an opaque source pixel is one of its colour. *)
Lemma drawPixel_opaque_colour P dst src x y sx sy i c :
  spritePalette P -> Palette dst = P -> Palette src = P ->
  PointIn sx sy (PRect src) = true ->
  Paletted_At src sx sy = Some c -> alphaOf c <> 0 ->
  drawPixel dst src x y sx sy = Some i ->
  nth_error P (Z.to_nat i) = Some c.
Proof.
  intros HP Hd Hs Hin Hc Hop Hdraw.
  apply Paletted_At_inside in Hc; [ | assumption ].
  unfold drawPixel in Hdraw.
  rewrite (Paletted_RGBA64At_inside _ _ _ _ Hin Hc) in Hdraw.
  rewrite Hs in Hc.
  pose proof (spritePalette_nth _ _ _ HP Hc) as Hbc.
  destruct (binaryAlpha_inv c Hbc) as (r & g & b & a & Ec & Hr & Hg & Hb & Ha).
  subst c.
  assert (a = 255) as ->.
  { destruct Ha as [ -> | -> ]; [ | reflexivity ]. exfalso. apply Hop. reflexivity. }
  cbn [Color_RGBA] in Hdraw.
  rewrite !uint16_widen in Hdraw by (assumption || reflexivity).
  destruct (Paletted_RGBA64At dst x y) as [ [ [ [ dr dg ] db ] da ] | ]; [ | discriminate ].
  change (widen 255) with 65535 in Hdraw. change (65535 - 65535) with 0 in Hdraw.
  rewrite !Z.mul_0_r in Hdraw. change (uint16 (0 / 65535)) with 0 in Hdraw.
  cbn [Z.add] in Hdraw.
  rewrite !uint16_widen in Hdraw by assumption.
  change (uint16 65535) with 65535 in Hdraw.
  apply (f_equal (fun o => match o with Some v => v | None => i end)) in Hdraw.
  cbv beta iota zeta in Hdraw. rewrite <- Hdraw, Hd.
  destruct (IndexFrom_exact (widen r, widen g, widen b, 65535) P 0 0 (4294967296 - 1))
    as (n & v & Hn & Hv & E).
  { lia. }
  { apply Exists_exists. exists (RGBA r g b 255). split.
    - eapply nth_error_In; eassumption.
    - apply colorDist_self. }
  unfold Palette_Index. rewrite E.
  assert (Hlen : (n < List.length P)%nat) by (apply nth_error_Some; congruence).
  pose proof (spritePalette_nth _ _ _ HP Hn) as Hbv.
  destruct HP as (HP1 & HP2).
  unfold uint8. rewrite Z.mod_small by lia.
  replace (Z.to_nat (0 + Z.of_nat n)) with n by lia.
  rewrite Hn. f_equal. symmetry. apply binaryAlpha_same; assumption.
Qed.

Lemma composeFrames_outside_more x y fs : forall st st' more,
  composeFrames st fs = Some st' ->
  infos st' = infos st ++ more ->
  (forall i, In i more -> PointIn x y (BBox i) = false) ->
  Pix (spriteImg st') x y = Pix (spriteImg st) x y.
Proof.
  induction fs as [ | f fs IH ]; intros st st' more H Hmore Hout; cbn [composeFrames] in H.
  - inv H. reflexivity.
  - destruct (composeFrame st f) as [ st1 | ] eqn:E1; [ | discriminate ].
    destruct (composeFrames_infos _ _ _ H) as (more1 & Hmore1 & _).
    destruct (composeFrame_inv _ _ _ E1) as (trim & l & t & c' & _ & _ & Hd & ->).
    cbn [spriteImg infos] in *.
    set (new := mkFrameInfo (placement l t trim) _ _ _) in *.
    assert (Em : more = new :: more1).
    { rewrite Hmore1, <- app_assoc in Hmore. apply app_inv_head in Hmore. auto. }
    subst more.
    rewrite (IH _ _ more1 H Hmore1); [ | intros i Hi; apply Hout; right; exact Hi ].
    cbn [spriteImg].
    rewrite (Draw_outside _ _ _ _ _ Hd); [ reflexivity | ].
    apply (Hout new). left. reflexivity.
Qed.

Lemma composeFrames_palette P fs : forall st st',
  composeFrames st fs = Some st' ->
  Forall (fun f => Palette (MakeImage f) = P) fs ->
  Palette (spriteImg st) = P -> Palette (spriteImg st') = P.
Proof.
  induction fs as [ | f fs IH ]; intros st st' H HPs Hst; cbn [composeFrames] in H.
  - injection H as <-. assumption.
  - destruct (composeFrame st f) as [ st1 | ] eqn:E1; [ | discriminate ].
    apply Forall_cons_iff in HPs. destruct HPs as (HPf & HPs).
    apply (IH st1 st' H HPs).
    destruct (composeFrame_inv _ _ _ E1) as (trim & l & t & c' & _ & _ & Hd & ->).
    cbn [spriteImg]. rewrite (Draw_Palette _ _ _ _ _ Hd). exact HPf.
Qed.

Lemma IndexFrom_head c v p :
  colorDist c (Color_RGBA v) = 0 -> Palette_Index (v :: p) c = 0.
Proof.
  intros H. unfold Palette_Index. cbn [IndexFrom]. rewrite H. reflexivity.
Qed.

(** A source pixel of colour [RGBA 0 0 0 0] leaves index 0 in place. *)
Lemma drawPixel_transparent P dst src x y sx sy i :
  spritePalette P -> Palette dst = P -> Palette src = P ->
  PointIn sx sy (PRect src) = true ->
  Paletted_At src sx sy = Some (RGBA 0 0 0 0) ->
  PointIn x y (PRect dst) = true -> Pix dst x y = 0 ->
  drawPixel dst src x y sx sy = Some i ->
  i = 0.
Proof.
  intros HP Hd Hs Hin Hc Hdin Hzero Hdraw.
  apply Paletted_At_inside in Hc; [ | assumption ].
  unfold drawPixel in Hdraw.
  rewrite (Paletted_RGBA64At_inside _ _ _ _ Hin Hc) in Hdraw.
  rewrite Hs in Hc.
  destruct P as [ | c0 P' ]; [ destruct (Z.to_nat (Pix src sx sy)); discriminate | ].
  assert (H0 : nth_error (Palette dst) (Z.to_nat (Pix dst x y)) = Some c0)
    by (rewrite Hd, Hzero; reflexivity).
  rewrite (Paletted_RGBA64At_inside _ _ _ _ Hdin H0) in Hdraw.
  assert (Hb0 : binaryAlpha c0 = true)
    by (apply (spritePalette_nth (c0 :: P') 0 c0 HP); reflexivity).
  destruct (binaryAlpha_inv c0 Hb0) as (r & g & b & a & -> & Hr & Hg & Hb & Ha).
  assert (Hau : isUint8 a = true) by (destruct Ha as [ -> | -> ]; reflexivity).
  cbn [Color_RGBA] in Hdraw.
  rewrite !uint16_widen in Hdraw by (assumption || reflexivity).
  change (widen 0) with 0 in Hdraw. change (65535 - 0) with 65535 in Hdraw.
  rewrite !Z.div_mul in Hdraw by lia. rewrite !Z.add_0_r in Hdraw.
  rewrite !uint16_widen in Hdraw by assumption.
  apply (f_equal (fun o => match o with Some v => v | None => i end)) in Hdraw.
  cbv beta iota zeta in Hdraw. rewrite <- Hdraw, Hd.
  rewrite (IndexFrom_head _ (RGBA r g b a) P'); [ reflexivity | ].
  apply colorDist_self.
Qed.

(** What the draw of frame [k] does at a pixel of its trimmed box, and
    that the later frames leave the pixel alone: [dst] is the canvas the
    frame is drawn on. *)
Lemma sheet_draw P fs st k f i trim x y :
  spritePalette P ->
  Forall (fun f => Palette (MakeImage f) = P) fs ->
  composeFrames initComposer fs = Some st ->
  Forall (fun i => onCanvas (BBox i)) (infos st) ->
  nth_error fs k = Some f -> nth_error (infos st) k = Some i ->
  FindBbox (asImage (MakeImage f)) = Some trim ->
  PointIn x y trim = true ->
  let cx := X (Min (BBox i)) + (x - X (Min trim)) in
  let cy := Y (Min (BBox i)) + (y - Y (Min trim)) in
  PointIn x y (PRect (MakeImage f)) = true /\
  PointIn cx cy canvasRect = true /\
  Palette (spriteImg st) = P /\ PRect (spriteImg st) = canvasRect /\
  exists dst,
    Palette dst = P /\ PRect dst = canvasRect /\ Pix dst cx cy = 0 /\
    drawPixel dst (MakeImage f) cx cy x y = Some (Pix (spriteImg st) cx cy).
Proof.
  intros HP HPs Hc Hfit Hf Hi Hb0 Hxt.
  assert (Hdis : noOverlap (infos st)).
  { apply (inv_disjoint P st).
    apply (PackInv_frames P HP fs initComposer); try assumption. apply PackInv_init. }
  destruct (nth_error_split _ _ Hf) as (pre & post & -> & Hk).
  rewrite composeFrames_app in Hc.
  destruct (composeFrames initComposer pre) as [ st1 | ] eqn:E1; [ | discriminate ].
  cbn [composeFrames] in Hc.
  destruct (composeFrame st1 f) as [ st2 | ] eqn:E2; [ | discriminate ].
  cbn beta iota in Hc.
  apply Forall_app in HPs. destruct HPs as (HPpre & HPs).
  apply Forall_cons_iff in HPs. destruct HPs as (HPf & HPpost).
  destruct (composeFrames_infos _ _ _ E1) as (more1 & Hm1 & Hsz1).
  change (infos initComposer ++ more1) with more1 in Hm1.
  destruct (composeFrames_infos _ _ _ Hc) as (more2 & Hm2 & _).
  pose proof (Forall2_length Hsz1) as Hlen1.
  pose proof (composeFrames_rect _ _ _ E1) as Hrect1.
  change (PRect (spriteImg st1) = canvasRect) in Hrect1.
  destruct (composeFrame_inv _ _ _ E2) as (trim' & l & t & canvas' & Hb & Hw & Hd & ->).
  assert (trim' = trim) as -> by congruence.
  cbn [infos spriteImg] in *.
  set (new := mkFrameInfo (placement l t trim) _ _ _) in *.
  assert (Ha : nth_error (infos st) (List.length more1) = Some new).
  { rewrite Hm2, Hm1. rewrite nth_error_app1 by (rewrite length_app; cbn; lia).
    rewrite nth_error_app2 by lia. rewrite Nat.sub_diag. reflexivity. }
  assert (i = new) as -> by (rewrite <- Hlen1, Hk in Ha; congruence).
  assert (Hnt : Empty trim = false).
  { apply Empty_false_iff. apply PointIn_iff in Hxt. lia. }
  destruct (FindBbox_edges _ _ Hb Hnt) as (Hsub & _). cbn [Bounds asImage] in Hsub.
  assert (Hne : Empty (BBox new) = false) by (cbn [BBox new]; rewrite placement_Empty; exact Hnt).
  assert (Hon : onCanvas (BBox new)).
  { rewrite Forall_forall in Hfit. apply Hfit. eapply nth_error_In. exact Ha. }
  specialize (Hon Hne). cbn [BBox new] in Hon, Hne |- *.
  set (bbox := placement l t trim) in *. cbv zeta.
  set (cx := X (Min bbox) + (x - X (Min trim))).
  set (cy := Y (Min bbox) + (y - Y (Min trim))).
  assert (Hcin : PointIn cx cy bbox = true).
  { apply PointIn_iff. apply PointIn_iff in Hxt.
    unfold cx, cy, bbox, placement, Dx, Dy. cbn. lia. }
  assert (Hcc : PointIn cx cy canvasRect = true).
  { apply PointIn_iff. apply PointIn_iff in Hcin. lia. }
  (* the other rectangles do not hold the pixel *)
  assert (Hother : forall m j, m <> List.length more1 -> nth_error (infos st) m = Some j ->
                               PointIn cx cy (BBox j) = false).
  { intros m j Hm Hj. destruct (PointIn cx cy (BBox j)) eqn:Ej; [ exfalso | reflexivity ].
    pose proof (Hdis (List.length more1) m new j ltac:(lia) Ha Hj) as Hov.
    rewrite Overlaps_false_iff in Hov. apply (Hov cx cy); assumption. }
  (* what the draw of this frame stores *)
  pose proof (Draw_inside _ _ _ _ _ Hd cx cy Hne) as Hpix.
  cbn [PRect setPalette] in Hpix. rewrite Hrect1 in Hpix.
  assert (HDxb : Dx bbox = Dx trim) by (unfold bbox, placement, Dx; cbn; lia).
  assert (HDyb : Dy bbox = Dy trim) by (unfold bbox, placement, Dy; cbn; lia).
  rewrite HDxb, HDyb in Hpix.
  specialize (Hpix ltac:(lia) ltac:(lia) ltac:(lia) ltac:(lia)
                   ltac:(lia) ltac:(lia) ltac:(unfold Dx; lia) ltac:(unfold Dy; lia) Hcin).
  replace (X (Min trim) + cx - X (Min bbox)) with x in Hpix by (unfold cx; lia).
  replace (Y (Min trim) + cy - Y (Min bbox)) with y in Hpix by (unfold cy; lia).
  (* the later frames leave it alone *)
  assert (Hkeep : Pix (spriteImg st) cx cy = Pix canvas' cx cy).
  { apply (composeFrames_outside_more cx cy post _ st more2 Hc Hm2).
    intros j Hj. destruct (In_nth_error _ _ Hj) as (m & Hm).
    apply (Hother (S (List.length more1) + m)%nat); [ lia | ].
    rewrite Hm2, Hm1. rewrite nth_error_app2 by (rewrite length_app; cbn; lia).
    rewrite length_app. cbn [List.length].
    replace (S (List.length more1) + m - (List.length more1 + 1))%nat with m by lia.
    exact Hm. }
  (* the earlier frames have not touched it *)
  assert (Hzero : Pix (spriteImg st1) cx cy = 0).
  { apply (composeFrames_outside_more cx cy pre initComposer st1 more1 E1 Hm1).
    intros j Hj. destruct (In_nth_error _ _ Hj) as (m & Hm).
    assert (Hlt : (m < List.length more1)%nat) by (apply nth_error_Some; congruence).
    apply (Hother m); [ lia | ].
    rewrite Hm2, Hm1, <- app_assoc. rewrite nth_error_app1 by lia. exact Hm. }
  split.
  { apply PointIn_iff. apply PointIn_iff in Hxt. lia. }
  split; [ exact Hcc | ].
  split.
  { rewrite (composeFrames_palette P _ _ _ Hc HPpost); [ reflexivity | ].
    cbn [spriteImg]. rewrite (Draw_Palette _ _ _ _ _ Hd). exact HPf. }
  split.
  { rewrite (composeFrames_rect _ _ _ Hc). cbn [spriteImg].
    rewrite (Draw_PRect _ _ _ _ _ Hd). exact Hrect1. }
  exists (setPalette (spriteImg st1) (Palette (MakeImage f))).
  split; [ exact HPf | ]. split; [ exact Hrect1 | ]. split; [ exact Hzero | ].
  rewrite Hkeep. exact Hpix.
Qed.

Lemma sheet_pixel P fs st k f i x y c :
  spritePalette P ->
  Forall (fun f => Palette (MakeImage f) = P) fs ->
  composeFrames initComposer fs = Some st ->
  Forall (fun i => onCanvas (BBox i)) (infos st) ->
  nth_error fs k = Some f -> nth_error (infos st) k = Some i ->
  PointIn x y (PRect (MakeImage f)) = true ->
  Paletted_At (MakeImage f) x y = Some c -> alphaOf c <> 0 ->
  exists trim,
    FindBbox (asImage (MakeImage f)) = Some trim /\
    PointIn x y trim = true /\
    PointIn (X (Min (BBox i)) + (x - X (Min trim)))
            (Y (Min (BBox i)) + (y - Y (Min trim))) canvasRect = true /\
    Paletted_At (spriteImg st)
      (X (Min (BBox i)) + (x - X (Min trim)))
      (Y (Min (BBox i)) + (y - Y (Min trim))) = Some c.
Proof.
  intros HP HPs Hc Hfit Hf Hi Hin Hcol Hop.
  assert (Htrim : exists trim, FindBbox (asImage (MakeImage f)) = Some trim).
  { destruct (nth_error_split _ _ Hf) as (pre & post & -> & _).
    rewrite composeFrames_app in Hc.
    destruct (composeFrames initComposer pre) as [ st1 | ]; [ | discriminate ].
    cbn [composeFrames] in Hc.
    destruct (composeFrame st1 f) as [ st2 | ] eqn:E2; [ | discriminate ].
    destruct (composeFrame_inv _ _ _ E2) as (trim & _ & _ & _ & Hb & _). eauto. }
  destruct Htrim as (trim & Hb).
  assert (Hopq : opaqueAt (asImage (MakeImage f)) x y).
  { split; [ exact Hin | ]. unfold opaque. cbn [At asImage]. rewrite Hcol.
    destruct (Z.eqb_spec (alphaOf c) 0); [ contradiction | reflexivity ]. }
  pose proof (FindBbox_covers _ _ _ _ Hb Hopq) as Hxt.
  destruct (sheet_draw P fs st k f i trim x y HP HPs Hc Hfit Hf Hi Hb Hxt)
    as (_ & Hcc & Hpal & Hrect & dst & Hdp & Hdr & _ & Hdraw).
  exists trim. split; [ exact Hb | ]. split; [ exact Hxt | ]. split; [ exact Hcc | ].
  apply Paletted_At_nth; [ rewrite Hrect; exact Hcc | ]. rewrite Hpal.
  apply (drawPixel_opaque_colour P dst (MakeImage f)
           (X (Min (BBox i)) + (x - X (Min trim)))
           (Y (Min (BBox i)) + (y - Y (Min trim))) x y); try assumption.
  destruct (nth_error_split _ _ Hf) as (pre & post & -> & _).
  apply Forall_app in HPs. destruct HPs as (_ & HPs).
  apply Forall_cons_iff in HPs. tauto.
Qed.

(** Property X16.  The sheet holds the opaque pixels of every frame: when
    the frames share one palette of fully transparent or fully opaque
    [color.RGBA] entries and the placement rectangles lie on the canvas,
    an opaque pixel [(x, y)] of frame [k] is found on the finished canvas,
    with its colour, at the corner of the frame's rectangle plus the
    offset of [(x, y)] in the trimmed box. *)
Theorem sheet_holds_opaque_pixels (P : list Color) (anims : list Animation) (st : Composer)
    (k : nat) (f : Frame) (i : FrameInfo) (x y : Z) (c : Color) :
  spritePalette P ->
  Forall (fun f => Palette (MakeImage f) = P) (allFrames anims) ->
  compose anims = Some st ->
  Forall (fun i => onCanvas (BBox i)) (infos st) ->
  nth_error (allFrames anims) k = Some f -> nth_error (infos st) k = Some i ->
  PointIn x y (PRect (MakeImage f)) = true ->
  Paletted_At (MakeImage f) x y = Some c -> alphaOf c <> 0 ->
  exists trim,
    FindBbox (asImage (MakeImage f)) = Some trim /\
    PointIn x y trim = true /\
    Paletted_At (spriteImg st)
      (X (Min (BBox i)) + (x - X (Min trim)))
      (Y (Min (BBox i)) + (y - Y (Min trim))) = Some c.
Proof.
  unfold compose. rewrite composeAnims_flat. intros HP HPs Hc Hfit Hf Hi Hin Hcol Hop.
  destruct (sheet_pixel P _ st k f i x y c HP HPs Hc Hfit Hf Hi Hin Hcol Hop)
    as (trim & Hb & Hxt & _ & Hat).
  exists trim. auto.
Qed.

(** Property X17.  When the frames share one palette of fully
    transparent or fully opaque [color.RGBA] entries and the placement
    rectangles lie on the canvas: where a frame has a pixel of colour
    [RGBA 0 0 0 0] inside its trimmed box, the finished canvas has index 0,
    whatever index the frame used for it. *)
Theorem transparent_pixels_keep_background (P : list Color) (anims : list Animation)
    (st : Composer) (k : nat) (f : Frame) (i : FrameInfo) (trim : Rectangle) (x y : Z) :
  spritePalette P ->
  Forall (fun f => Palette (MakeImage f) = P) (allFrames anims) ->
  compose anims = Some st ->
  Forall (fun i => onCanvas (BBox i)) (infos st) ->
  nth_error (allFrames anims) k = Some f -> nth_error (infos st) k = Some i ->
  FindBbox (asImage (MakeImage f)) = Some trim ->
  PointIn x y trim = true ->
  Paletted_At (MakeImage f) x y = Some (RGBA 0 0 0 0) ->
  Pix (spriteImg st) (X (Min (BBox i)) + (x - X (Min trim)))
                     (Y (Min (BBox i)) + (y - Y (Min trim))) = 0.
Proof.
  unfold compose. rewrite composeAnims_flat. intros HP HPs Hc Hfit Hf Hi Hb Hxt Hcol.
  destruct (sheet_draw P _ st k f i trim x y HP HPs Hc Hfit Hf Hi Hb Hxt)
    as (Hin & Hcc & _ & _ & dst & Hdp & Hdr & Hzero & Hdraw).
  apply (drawPixel_transparent P dst (MakeImage f)
           (X (Min (BBox i)) + (x - X (Min trim)))
           (Y (Min (BBox i)) + (y - Y (Min trim))) x y); try assumption.
  - destruct (nth_error_split _ _ Hf) as (pre & post & E & _). rewrite E in HPs.
    apply Forall_app in HPs. destruct HPs as (_ & HPs).
    apply Forall_cons_iff in HPs. tauto.
  - rewrite Hdr. exact Hcc.
Qed.

(** Property X18.  When the frames share one palette of fully
    transparent or fully opaque [color.RGBA] entries and the placement
    rectangles lie on the canvas: the raster handed to [png.Encode], the
    canvas cropped to [FindBbox(spriteImg)], has that box as its bounds and
    still holds every opaque pixel of every frame, with its colour, at the
    coordinates it has on the canvas. *)
Theorem crop_keeps_opaque_pixels (P : list Color) (anims : list Animation) (st : Composer)
    (bb : Rectangle) (k : nat) (f : Frame) (i : FrameInfo) (x y : Z) (c : Color) :
  spritePalette P ->
  Forall (fun f => Palette (MakeImage f) = P) (allFrames anims) ->
  compose anims = Some st ->
  Forall (fun i => onCanvas (BBox i)) (infos st) ->
  FindBbox (asImage (spriteImg st)) = Some bb ->
  nth_error (allFrames anims) k = Some f -> nth_error (infos st) k = Some i ->
  PointIn x y (PRect (MakeImage f)) = true ->
  Paletted_At (MakeImage f) x y = Some c -> alphaOf c <> 0 ->
  exists trim,
    FindBbox (asImage (MakeImage f)) = Some trim /\
    PRect (SubImage (spriteImg st) bb) = bb /\
    PointIn (X (Min (BBox i)) + (x - X (Min trim)))
            (Y (Min (BBox i)) + (y - Y (Min trim))) bb = true /\
    Paletted_At (SubImage (spriteImg st) bb)
      (X (Min (BBox i)) + (x - X (Min trim)))
      (Y (Min (BBox i)) + (y - Y (Min trim))) = Some c.
Proof.
  unfold compose. rewrite composeAnims_flat. intros HP HPs Hc Hfit Hbb Hf Hi Hin Hcol Hop.
  destruct (sheet_pixel P _ st k f i x y c HP HPs Hc Hfit Hf Hi Hin Hcol Hop)
    as (trim & Hb & Hxt & Hcc & Hat).
  exists trim. split; [ exact Hb | ].
  pose proof (composeFrames_rect _ _ _ Hc) as Hrect.
  change (PRect (spriteImg st) = canvasRect) in Hrect.
  set (cx := X (Min (BBox i)) + (x - X (Min trim))) in *.
  set (cy := Y (Min (BBox i)) + (y - Y (Min trim))) in *.
  assert (Hink : opaqueAt (asImage (spriteImg st)) cx cy).
  { split; [ cbn [Bounds asImage]; rewrite Hrect; exact Hcc | ].
    unfold opaque. cbn [At asImage]. rewrite Hat.
    destruct (Z.eqb_spec (alphaOf c) 0); [ contradiction | reflexivity ]. }
  pose proof (FindBbox_covers _ _ _ _ Hbb Hink) as Hcov.
  assert (Hne : Empty bb = false).
  { apply Empty_false_iff. apply PointIn_iff in Hcov. lia. }
  destruct (FindBbox_edges _ _ Hbb Hne) as (Hsub & _). cbn [Bounds asImage] in Hsub.
  assert (Hsubimg : SubImage (spriteImg st) bb =
                    mkPaletted (Pix (spriteImg st)) bb (Palette (spriteImg st))).
  { unfold SubImage. rewrite Intersect_inside by (assumption || lia).
    rewrite Hne. reflexivity. }
  rewrite Hsubimg. cbn [PRect].
  split; [ reflexivity | ]. split; [ exact Hcov | ].
  apply Paletted_At_inside in Hat; [ | rewrite Hrect; exact Hcc ].
  apply Paletted_At_nth; [ exact Hcov | exact Hat ].
Qed.

(** ** Frames placed below the canvas *)





Lemma gapSet_run :
  exists st, compose gapSet = Some st /\
             infos st = [mkFrameInfo (Rect 0 0 3 1) (mkPoint 1 0) 5 1].
Proof.
  assert (H : option_map infos (compose gapSet) =
              Some [mkFrameInfo (Rect 0 0 3 1) (mkPoint 1 0) 5 1])
    by (vm_compute; reflexivity).
  destruct (compose gapSet) as [ st | ]; [ | discriminate ].
  exists st. split; [ reflexivity | ]. cbn [option_map] in H. injection H as H. exact H.
Qed.

Lemma transparent_pixels_keep_background_witness :
  exists st, compose gapSet = Some st /\ Pix (spriteImg st) (0 + (1 - 0)) (0 + (0 - 0)) = 0.
Proof.
  destruct gapSet_run as (st & Hc & Hi).
  exists st. split; [ exact Hc | ].
  apply (transparent_pixels_keep_background twoTone gapSet st 0 gapFrame
           (mkFrameInfo (Rect 0 0 3 1) (mkPoint 1 0) 5 1) (Rect 0 0 3 1) 1 0
           twoTone_spritePalette).
  - repeat constructor.
  - exact Hc.
  - rewrite Hi. repeat (apply Forall_cons; [ apply Rect_onCanvas; lia | ]). apply Forall_nil.
  - reflexivity.
  - rewrite Hi. reflexivity.
  - vm_compute. reflexivity.
  - reflexivity.
  - reflexivity.
Defined.

Lemma wrapSet_crop :
  exists st, compose wrapSet = Some st /\
             FindBbox (asImage (spriteImg st)) = Some (Rect 0 0 1024 1022) /\
             nth_error (infos st) 2 = Some (mkFrameInfo (Rect 0 1021 1 1022) (mkPoint 0 0) 5 1) /\
             Forall (fun i => onCanvas (BBox i)) (infos st).
Proof.
  assert (H : (st <- compose wrapSet ;; bb <- FindBbox (asImage (spriteImg st)) ;;
               Some (bb, infos st)) =
              Some (Rect 0 0 1024 1022,
                    [mkFrameInfo (Rect 0 0 1 1020) (mkPoint 0 510) 5 1;
                     mkFrameInfo (Rect 2 0 1024 1) (mkPoint 511 0) 5 1;
                     mkFrameInfo (Rect 0 1021 1 1022) (mkPoint 0 0) 5 1]))
    by (vm_compute; reflexivity).
  destruct (compose wrapSet) as [ st | ]; [ | discriminate ].
  destruct (FindBbox (asImage (spriteImg st))) as [ bb | ] eqn:Eb; [ | discriminate ].
  cbv beta iota in H. exists st. split; [ reflexivity | ].
  assert (Hbb : bb = Rect 0 0 1024 1022) by congruence.
  assert (Hi : infos st = [mkFrameInfo (Rect 0 0 1 1020) (mkPoint 0 510) 5 1;
                           mkFrameInfo (Rect 2 0 1024 1) (mkPoint 511 0) 5 1;
                           mkFrameInfo (Rect 0 1021 1 1022) (mkPoint 0 0) 5 1]) by congruence.
  split; [ rewrite Eb, Hbb; reflexivity | ]. rewrite Hi. split; [ reflexivity | ].
  repeat (apply Forall_cons; [ apply Rect_onCanvas; lia | ]). apply Forall_nil.
Qed.

Lemma crop_keeps_opaque_pixels_witness :
  exists st trim,
    compose wrapSet = Some st /\
    FindBbox (asImage (MakeImage (solidFrame 1 1))) = Some trim /\
    PRect (SubImage (spriteImg st) (Rect 0 0 1024 1022)) = Rect 0 0 1024 1022 /\
    Paletted_At (SubImage (spriteImg st) (Rect 0 0 1024 1022))
      (0 + (0 - X (Min trim))) (1021 + (0 - Y (Min trim))) = Some (RGBA 255 255 255 255).
Proof.
  destruct wrapSet_crop as (st & Hc & Hbb & Hi & Hfit).
  destruct (crop_keeps_opaque_pixels twoTone wrapSet st (Rect 0 0 1024 1022) 2
              (solidFrame 1 1) (mkFrameInfo (Rect 0 1021 1 1022) (mkPoint 0 0) 5 1) 0 0
              (RGBA 255 255 255 255) twoTone_spritePalette)
    as (trim & Hb & Hr & _ & Hat); try assumption; try reflexivity.
  - repeat constructor.
  - vm_compute. discriminate.
  - exists st, trim. repeat split; assumption.
Defined.

(** ** The pool with any number of workers *)

Lemma setWorker_length i w ws : List.length (setWorker i w ws) = List.length ws.
Proof.
  revert i. induction ws as [ | v ws IH ]; intros i; [ destruct i; reflexivity | ].
  destruct i; cbn [setWorker List.length]; [ reflexivity | rewrite IH; reflexivity ].
Qed.

Lemma runningJobs_setWorker x w ws : forall i v,
  nth_error ws i = Some v ->
  (count_occ Nat.eq_dec (jobOf v) x +
   count_occ Nat.eq_dec (runningJobs (setWorker i w ws)) x =
   count_occ Nat.eq_dec (jobOf w) x + count_occ Nat.eq_dec (runningJobs ws) x)%nat.
Proof.
  unfold runningJobs.
  induction ws as [ | u ws IH ]; intros i v Hi; [ destruct i; discriminate | ].
  destruct i as [ | i ]; cbn [nth_error setWorker flat_map] in *.
  - injection Hi as ->. rewrite !count_occ_app. unfold Job. lia.
  - rewrite !count_occ_app. specialize (IH i v Hi). unfold Job in *. lia.
Qed.

Lemma setWorker_In_Exited i w ws :
  In Exited (setWorker i w ws) -> w = Exited \/ In Exited ws.
Proof.
  revert i. induction ws as [ | u ws IH ]; intros i H; [ destruct i; destruct H | ].
  destruct i as [ | i ]; cbn [setWorker] in H; destruct H as [ H | H ].
  - left. exact H.
  - right. right. exact H.
  - right. left. exact H.
  - destruct (IH i H); [ left | right; right ]; assumption.
Qed.

Lemma Forall_Exited_nth ws i w :
  Forall (fun w => w = Exited) ws -> nth_error ws i = Some w -> w = Exited.
Proof.
  intros Hall Hi. rewrite Forall_forall in Hall. apply Hall.
  eapply nth_error_In; eassumption.
Qed.

Lemma firstError_app run l j :
  firstError run (l ++ [j]) =
  match firstError run l with Some e => Some e | None => run j end.
Proof.
  induction l as [ | i l IH ]; cbn [firstError app].
  - destruct (run j); reflexivity.
  - destruct (run i); [ reflexivity | exact IH ].
Qed.

Section Workers.

Variable NumCPU : nat.
Variable run : Job -> option error.
Variable jobs : list Job.

Lemma poolInv_init : poolInv NumCPU run jobs (initPool NumCPU jobs).
Proof.
  unfold poolInv, initPool, accounted. cbn [workers chBuf completed mainSt groupErr chClosed].
  split; [ apply repeat_length | ]. split; [ cbn; lia | ].
  split; [ | split; reflexivity ].
  intros x. cbn [app pendingJobs].
  replace (runningJobs (repeat Receiving NumCPU)) with (@nil Job); [ reflexivity | ].
  unfold runningJobs. induction NumCPU as [ | n IH ]; [ reflexivity | exact IH ].
Qed.

Lemma poolInv_step p q :
  poolInv NumCPU run jobs p -> step NumCPU run p q -> poolInv NumCPU run jobs q.
Proof.
  intros (Hlen & Hbuf & Hacc & Herr & Hmain) Hstep.
  unfold accounted in Hacc.
  inversion Hstep as [ p' j rest Hs Hcap | p' Hs | p' i j buf Hi Hb | p' i Hi Hb Hc
                     | p' i j Hi Hr | p' i j e' Hi Hr | p' Hs Hall ]; subst p'; subst q;
    unfold poolInv, accounted;
    cbn [workers chBuf completed mainSt groupErr chClosed pendingJobs];
    rewrite ?setWorker_length.
  - (* send *)
    rewrite Hs in Hmain, Hacc. cbn [pendingJobs] in Hacc.
    split; [ assumption | ]. split; [ rewrite length_app; cbn; lia | ].
    split; [ | split; assumption ].
    intros x. rewrite <- (Hacc x). rewrite <- !app_assoc. reflexivity.
  - (* close *)
    rewrite Hs in Hmain, Hacc. cbn [pendingJobs] in Hacc.
    split; [ assumption | ]. split; [ assumption | ].
    split; [ exact Hacc | ]. split; [ assumption | reflexivity ].
  - (* receive *)
    rewrite Hb in Hbuf, Hacc. cbn [List.length] in Hbuf.
    split; [ assumption | ]. split; [ lia | ].
    split; [ | split; [ assumption | ] ].
    + intros x. rewrite <- (Hacc x). rewrite !count_occ_app.
      pose proof (runningJobs_setWorker x (Running j) _ _ _ Hi) as Hrun.
      change (j :: buf) with ([j] ++ buf). rewrite count_occ_app.
      cbn [jobOf] in Hrun. rewrite ?count_occ_nil in Hrun. unfold Job in *. lia.
    + destruct (mainSt p) as [ r | | err ]; try assumption.
      destruct Hmain as (_ & _ & Hall).
      pose proof (Forall_Exited_nth _ _ _ Hall Hi). discriminate.
  - (* drained *)
    rewrite Hb in Hbuf, Hacc.
    split; [ assumption | ]. split; [ assumption | ].
    split; [ | split; [ assumption | ] ].
    + intros x. rewrite <- (Hacc x). rewrite !count_occ_app.
      pose proof (runningJobs_setWorker x Exited _ _ _ Hi) as Hrun.
      cbn [jobOf] in Hrun. rewrite ?count_occ_nil in Hrun. unfold Job in *. lia.
    + destruct (mainSt p) as [ r | | err ]; [ congruence | reflexivity | ].
      destruct Hmain as (_ & _ & Hall).
      pose proof (Forall_Exited_nth _ _ _ Hall Hi). discriminate.
  - (* a job succeeds *)
    split; [ assumption | ]. split; [ assumption | ].
    split; [ | split ].
    + intros x. rewrite <- (Hacc x). rewrite !count_occ_app.
      pose proof (runningJobs_setWorker x Receiving _ _ _ Hi) as Hrun.
      cbn [jobOf] in Hrun. rewrite ?count_occ_nil in Hrun. unfold Job in *. lia.
    + rewrite firstError_app, <- Herr, Hr. destruct (groupErr p); reflexivity.
    + destruct (mainSt p) as [ r | | err ]; try assumption.
      destruct Hmain as (_ & _ & Hall).
      pose proof (Forall_Exited_nth _ _ _ Hall Hi). discriminate.
  - (* a job fails *)
    split; [ assumption | ]. split; [ assumption | ].
    split; [ | split ].
    + intros x. rewrite <- (Hacc x). rewrite !count_occ_app.
      pose proof (runningJobs_setWorker x Exited _ _ _ Hi) as Hrun.
      cbn [jobOf] in Hrun. rewrite ?count_occ_nil in Hrun. unfold Job in *. lia.
    + rewrite firstError_app, <- Herr, Hr. unfold keepFirst. destruct (groupErr p); reflexivity.
    + destruct (mainSt p) as [ r | | err ]; try assumption.
      destruct Hmain as (_ & _ & Hall).
      pose proof (Forall_Exited_nth _ _ _ Hall Hi). discriminate.
  - (* wait returns *)
    rewrite Hs in Hmain, Hacc.
    split; [ assumption | ]. split; [ assumption | ].
    split; [ exact Hacc | ]. split; [ assumption | ]. auto.
Qed.

Lemma poolInv_reachable p : reachable NumCPU run jobs p -> poolInv NumCPU run jobs p.
Proof.
  induction 1 as [ | p q _ IH Hstep ].
  - apply poolInv_init.
  - eapply poolInv_step; eassumption.
Qed.


Lemma accounted_perm p :
  reachable NumCPU run jobs p -> Permutation (accounted p) jobs.
Proof.
  intros Hr. destruct (poolInv_reachable p Hr) as (_ & _ & Hacc & _).
  apply (Permutation_count_occ Nat.eq_dec). exact Hacc.
Qed.

Lemma running_In ws i j : nth_error ws i = Some (Running j) -> In j (runningJobs ws).
Proof.
  intros Hi. unfold runningJobs. apply in_flat_map. exists (Running j).
  split; [ eapply nth_error_In; eassumption | left; reflexivity ].
Qed.

Lemma workers_cases (ws : list WorkerState) :
  Forall (fun w => w = Exited) ws \/
  exists i w, nth_error ws i = Some w /\ w <> Exited.
Proof.
  induction ws as [ | w ws [ IH | (i & v & Hi & Hv) ] ].
  - left. constructor.
  - destruct w; [ right; exists 0%nat, Receiving
                | right; exists 0%nat, (Running j)
                | left; constructor; [ reflexivity | assumption ] ];
      (split; [ reflexivity | discriminate ]).
  - right. exists (S i), v. split; assumption.
Qed.

(** A worker that has not returned can move, unless it waits on an empty
    channel that is still open. *)
Lemma worker_moves p i w :
  nth_error (workers p) i = Some w -> w <> Exited ->
  chBuf p <> [] \/ chClosed p = true ->
  exists q, step NumCPU run p q.
Proof.
  intros Hi Hw Hch. destruct w as [ | j | ]; [ | | congruence ].
  - destruct (chBuf p) as [ | j buf ] eqn:Hb.
    + destruct Hch as [ Hch | Hch ]; [ congruence | ].
      eexists. exact (step_drained NumCPU run p i Hi Hb Hch).
    + eexists. exact (step_receive NumCPU run p i j buf Hi Hb).
  - destruct (run j) as [ e | ] eqn:Hr.
    + eexists. exact (step_job_failed NumCPU run p i j e Hi Hr).
    + eexists. exact (step_job_ok NumCPU run p i j Hi Hr).
Qed.

Lemma stuck_cases p :
  reachable NumCPU run jobs p -> stuck NumCPU run p ->
  (exists err, mainSt p = Finished err) \/ blockedSend NumCPU p.
Proof.
  intros Hr Hstuck. destruct (poolInv_reachable p Hr) as (Hlen & Hbuf & _ & _ & Hmain).
  destruct (mainSt p) as [ [ | j rest ] | | err ] eqn:Hm.
  - exfalso. eapply Hstuck. exact (step_close NumCPU run p Hm).
  - right. destruct (Nat.lt_ge_cases (List.length (chBuf p)) NumCPU) as [ Hlt | Hge ].
    { exfalso. eapply Hstuck. exact (step_send NumCPU run p j rest Hm Hlt). }
    destruct (workers_cases (workers p)) as [ Hall | (i & w & Hi & Hw) ].
    + exists j, rest. split; [ exact Hm | ]. split; [ assumption | lia ].
    + exfalso. destruct (worker_moves p i w Hi Hw) as (q & Hq); [ | exact (Hstuck q Hq) ].
      left. intros Hnil. rewrite Hnil in Hge. cbn in Hge.
      assert (Hpos : (i < List.length (workers p))%nat) by (apply nth_error_Some; congruence).
      lia.
  - exfalso. destruct (workers_cases (workers p)) as [ Hall | (i & w & Hi & Hw) ].
    + eapply Hstuck. exact (step_wait NumCPU run p Hm Hall).
    + destruct (worker_moves p i w Hi Hw) as (q & Hq); [ | exact (Hstuck q Hq) ].
      right. exact Hmain.
  - left. eauto.
Qed.

Lemma firstError_None l : (forall j, In j l -> run j = None) -> firstError run l = None.
Proof.
  induction l as [ | j l IH ]; intros H; [ reflexivity | ].
  cbn [firstError]. rewrite (H j) by (left; reflexivity).
  apply IH. intros k Hk. apply H. right. exact Hk.
Qed.

Lemma quietInv_step p q :
  (forall j, In j jobs -> run j = None) ->
  reachable NumCPU run jobs p -> quietInv p -> step NumCPU run p q -> quietInv q.
Proof.
  intros Hquiet Hr Hinv Hstep.
  destruct (poolInv_reachable p Hr) as (_ & _ & _ & _ & Hmain).
  pose proof (accounted_perm p Hr) as Hperm.
  unfold quietInv in *.
  inversion Hstep as [ p' j rest Hs Hcap | p' Hs | p' i j buf Hi Hb | p' i Hi Hb Hc
                     | p' i j Hi Hr' | p' i j e' Hi Hr' | p' Hs Hall ]; subst p'; subst q;
    cbn [workers chBuf chClosed]; intros Hex.
  - rewrite Hs in Hmain. destruct (Hinv Hex) as (Hc & _). congruence.
  - destruct (Hinv Hex) as (_ & Hb). auto.
  - apply setWorker_In_Exited in Hex. destruct Hex as [ Hex | Hex ]; [ discriminate | ].
    destruct (Hinv Hex) as (_ & Hb'). congruence.
  - auto.
  - apply setWorker_In_Exited in Hex. destruct Hex as [ Hex | Hex ]; [ discriminate | ].
    exact (Hinv Hex).
  - exfalso. assert (Hj : In j jobs).
    { apply (Permutation_in j Hperm). unfold accounted.
      apply in_or_app. right. apply in_or_app. left. eapply running_In. eassumption. }
    rewrite (Hquiet j Hj) in Hr'. discriminate.
  - exact (Hinv Hex).
Qed.

Lemma quietInv_reachable p :
  (forall j, In j jobs -> run j = None) ->
  reachable NumCPU run jobs p -> quietInv p.
Proof.
  intros Hquiet. induction 1 as [ | p q Hr IH Hstep ].
  - unfold quietInv, initPool. cbn [workers]. intros Hex.
    apply repeat_spec in Hex. discriminate.
  - eapply quietInv_step; eassumption.
Qed.

(** Property X20.  In every state of the pool the jobs done, being run,
    in the channel and not sent yet are, together, the jobs of the queue:
    a job is run only if it was queued, and no job of a queue without
    duplicates is run twice. *)
Theorem every_job_is_accounted_for (p : Pool) :
  reachable NumCPU run jobs p ->
  Permutation (accounted p) jobs /\
  (forall j, In j (completed p) -> In j jobs) /\
  (NoDup jobs -> NoDup (completed p)).
Proof.
  intros Hr. pose proof (accounted_perm p Hr) as Hperm.
  split; [ exact Hperm | ]. split.
  - intros j Hj. apply (Permutation_in j Hperm). unfold accounted.
    apply in_or_app. left. exact Hj.
  - intros Hnd. apply (Permutation_NoDup (Permutation_sym Hperm)) in Hnd.
    unfold accounted in Hnd. exact (NoDup_app_remove_r _ _ Hnd).
Qed.

(** Property X21.  The error the group holds, and the one [g.Wait()]
    returns, is the error of the first job that failed, in the order in
    which the jobs returned. *)
Theorem group_keeps_first_error (p : Pool) :
  reachable NumCPU run jobs p ->
  groupErr p = firstError run (completed p) /\
  (forall err, mainSt p = Finished err -> err = firstError run (completed p)).
Proof.
  intros Hr. destruct (poolInv_reachable p Hr) as (_ & _ & _ & Herr & Hmain).
  split; [ exact Herr | ]. intros err Hm. rewrite Hm in Hmain.
  destruct Hmain as (_ & -> & _). exact Herr.
Qed.

(** Property X22.  A run can only stop in two ways: main is past
    [g.Wait()], or main is blocked in a send with the buffer full and
    every worker returned. *)
Theorem stuck_is_finished_or_blocked (p : Pool) :
  reachable NumCPU run jobs p -> stuck NumCPU run p ->
  (exists err, mainSt p = Finished err) \/ blockedSend NumCPU p.
Proof. exact (stuck_cases p). Qed.

(** Property X23.  With at least one worker and no failing job, a run that
    stops has main past [g.Wait()] with no error and every job of the
    queue done. *)
Theorem quiet_run_finishes (p : Pool) :
  (0 < NumCPU)%nat ->
  (forall j, In j jobs -> run j = None) ->
  reachable NumCPU run jobs p -> stuck NumCPU run p ->
  mainSt p = Finished None /\ Permutation (completed p) jobs.
Proof.
  intros Hn Hquiet Hr Hstuck.
  destruct (poolInv_reachable p Hr) as (Hlen & _ & _ & Herr & Hmain).
  pose proof (quietInv_reachable p Hquiet Hr) as Hq.
  pose proof (accounted_perm p Hr) as Hperm.
  assert (Hex : Forall (fun w => w = Exited) (workers p) -> In Exited (workers p)).
  { intros Hall. destruct (workers p) as [ | w ws ]; [ cbn in Hlen; lia | ].
    apply Forall_cons_iff in Hall. destruct Hall as (-> & _). left. reflexivity. }
  destruct (stuck_cases p Hr Hstuck) as [ (err & Hm) | (j & rest & Hm & Hall & _) ].
  - rewrite Hm in Hmain. destruct Hmain as (_ & -> & Hall).
    destruct (Hq (Hex Hall)) as (_ & Hb).
    assert (Hrun : runningJobs (workers p) = []).
    { unfold runningJobs. clear - Hall. induction Hall as [ | w ws -> _ IH ]; [ reflexivity | exact IH ]. }
    unfold accounted in Hperm. rewrite Hrun, Hb, Hm in Hperm. cbn [app pendingJobs] in Hperm.
    rewrite app_nil_r in Hperm.
    split; [ | exact Hperm ]. rewrite Hm, Herr. f_equal.
    apply firstError_None. intros k Hk. apply Hquiet. exact (Permutation_in k Hperm Hk).
  - rewrite Hm in Hmain. destruct (Hq (Hex Hall)) as (Hc & _). congruence.
Qed.

End Workers.

(** ** The further properties on sample inputs *)

Lemma FindBbox_transparent_witness :
  exists r, FindBbox (asImage (MakeImage blankFrame)) = Some r /\ Dx r = 0 /\ Dy r = 0 /\
            (Empty (Bounds (asImage (MakeImage blankFrame))) = false -> r = Rect 0 0 0 0).
Proof.
  apply FindBbox_transparent.
  - intros x y Hin. cbn [At asImage Bounds MakeImage blankFrame] in *.
    unfold Paletted_At. cbn [Palette PRect Pix twoTone] in *. rewrite Hin. discriminate.
  - intros x y (Hin & Hop). unfold opaque in Hop.
    cbn [At asImage Bounds MakeImage blankFrame] in Hop, Hin.
    unfold Paletted_At in Hop. cbn [Palette PRect Pix twoTone] in Hop, Hin.
    rewrite Hin in Hop. discriminate Hop.
Defined.

Lemma FindBbox_reads_inside_bounds_witness :
  FindBbox (asImage (dotImage 16 16 3 4)) = FindBbox fencedDot.
Proof.
  apply FindBbox_reads_inside_bounds.
  - reflexivity.
  - intros x y Hin. cbn [Bounds asImage dotImage PRect] in Hin.
    cbn [At asImage fencedDot]. rewrite Hin. reflexivity.
Defined.

Lemma sheet_holds_opaque_pixels_witness :
  exists st, compose wrapSet = Some st /\
    exists trim,
      FindBbox (asImage (MakeImage (solidFrame 1 1))) = Some trim /\
      PointIn 0 0 trim = true /\
      Paletted_At (spriteImg st) (0 + (0 - X (Min trim))) (1021 + (0 - Y (Min trim))) =
        Some (RGBA 255 255 255 255).
Proof.
  destruct wrapSet_run as (st & st' & _ & _ & Hc & _ & _ & _ & _ & Hi).
  exists st'. split; [ exact Hc | ].
  apply (sheet_holds_opaque_pixels twoTone wrapSet st' 2 (solidFrame 1 1)
           (mkFrameInfo (Rect 0 1021 1 1022) (mkPoint 0 0) 5 1) 0 0
           (RGBA 255 255 255 255) twoTone_spritePalette).
  - repeat constructor.
  - exact Hc.
  - rewrite Hi. repeat (apply Forall_cons; [ apply Rect_onCanvas; lia | ]). apply Forall_nil.
  - reflexivity.
  - rewrite Hi. reflexivity.
  - reflexivity.
  - reflexivity.
  - vm_compute. discriminate.
Defined.

Lemma palette_dump_is_injective_witness :
  paletteDump twoTone = Some (paletteBytes twoTone) /\
  [RGBA 0 0 0 0; RGBA 255 255 255 255] = twoTone.
Proof.
  split; [ reflexivity | ].
  apply (palette_dump_is_injective _ twoTone (paletteBytes twoTone)); reflexivity.
Defined.

Lemma quietEnd_reachable : reachable 1 noFail [0%nat] quietEnd.
Proof.
  pose (p1 := mkPool (Sending []) [0%nat] false [Receiving] None []).
  pose (p2 := mkPool (Sending []) [] false [Running 0%nat] None []).
  pose (p3 := mkPool (Sending []) [] false [Receiving] None [0%nat]).
  pose (p4 := mkPool Waiting [] true [Receiving] None [0%nat]).
  pose (p5 := mkPool Waiting [] true [Exited] None [0%nat]).
  assert (R1 : reachable 1 noFail [0%nat] p1).
  { apply (reach_step 1 noFail [0%nat] (initPool 1 [0%nat])); [ apply reach_init | ].
    exact (step_send 1 noFail (initPool 1 [0%nat]) 0%nat [] eq_refl (le_n 1)). }
  assert (R2 : reachable 1 noFail [0%nat] p2).
  { apply (reach_step 1 noFail [0%nat] p1); [ exact R1 | ].
    exact (step_receive 1 noFail p1 0%nat 0%nat [] eq_refl eq_refl). }
  assert (R3 : reachable 1 noFail [0%nat] p3).
  { apply (reach_step 1 noFail [0%nat] p2); [ exact R2 | ].
    exact (step_job_ok 1 noFail p2 0%nat 0%nat eq_refl eq_refl). }
  assert (R4 : reachable 1 noFail [0%nat] p4).
  { apply (reach_step 1 noFail [0%nat] p3); [ exact R3 | ].
    exact (step_close 1 noFail p3 eq_refl). }
  assert (R5 : reachable 1 noFail [0%nat] p5).
  { apply (reach_step 1 noFail [0%nat] p4); [ exact R4 | ].
    exact (step_drained 1 noFail p4 0%nat eq_refl eq_refl eq_refl). }
  apply (reach_step 1 noFail [0%nat] p5); [ exact R5 | ].
  apply (step_wait 1 noFail p5 eq_refl). repeat constructor.
Qed.

Lemma quietEnd_stuck : stuck 1 noFail quietEnd.
Proof.
  intros q Hstep.
  inversion Hstep as [ p' j rest Hs Hcap | p' Hs | p' i j buf Hi Hb | p' i Hi Hb Hc
                     | p' i j Hi Hr | p' i j e' Hi Hr | p' Hs Hall ]; subst p';
    cbn in *; try discriminate; try lia;
    destruct i as [ | [ | i ] ]; discriminate.
Qed.

Lemma every_job_is_accounted_for_witness :
  Permutation
    (accounted (deadlock 0%nat 1%nat 2%nat [3%nat] (ErrOther "create sprites/0000.png: permission denied")))
    [0; 1; 2; 3]%nat.
Proof.
  apply (every_job_is_accounted_for 1 failFirst [0; 1; 2; 3]%nat).
  apply (deadlock_reachable failFirst 0%nat 1%nat 2%nat [3%nat]). reflexivity.
Defined.

Lemma group_keeps_first_error_witness :
  groupErr (deadlock 0%nat 1%nat 2%nat [3%nat] (ErrOther "create sprites/0000.png: permission denied")) =
  firstError failFirst [0%nat].
Proof.
  apply (proj1 (group_keeps_first_error 1 failFirst [0; 1; 2; 3]%nat
           (deadlock 0%nat 1%nat 2%nat [3%nat]
              (ErrOther "create sprites/0000.png: permission denied"))
           (deadlock_reachable failFirst 0%nat 1%nat 2%nat [3%nat] _ eq_refl))).
Defined.

Lemma stuck_is_finished_or_blocked_witness :
  (exists err,
     mainSt (deadlock 0%nat 1%nat 2%nat [3%nat] (ErrOther "create sprites/0000.png: permission denied")) =
     Finished err) \/
  blockedSend 1 (deadlock 0%nat 1%nat 2%nat [3%nat] (ErrOther "create sprites/0000.png: permission denied")).
Proof.
  apply (stuck_is_finished_or_blocked 1 failFirst [0; 1; 2; 3]%nat).
  - apply (deadlock_reachable failFirst 0%nat 1%nat 2%nat [3%nat]). reflexivity.
  - apply (deadlock_stuck failFirst 0%nat 1%nat 2%nat [3%nat]).
Defined.

Lemma quiet_run_finishes_witness :
  mainSt quietEnd = Finished None /\ Permutation (completed quietEnd) [0%nat].
Proof.
  apply (quiet_run_finishes 1 noFail [0%nat]).
  - lia.
  - reflexivity.
  - exact quietEnd_reachable.
  - exact quietEnd_stuck.
Defined.
